(** * AmoraDB: the storage-and-query engine, embedded and checked

    A shallow embedding of the table core ([Table]), the index manager
    ([IndexManager]) and the query engine ([Query]) of AmoraDB, with the
    properties of the specification stated over it.

    Conventions of the embedding.

    - A JavaScript value is [undefined] or an integer number
      ([value := option Z]).  Strings, booleans, [null], nested objects and
      numbers that are not integers are outside the value universe.  Record
      identifiers and the ISO timestamps of the clock are opaque tokens that
      the engine only copies and compares; they are carried as numbers.
    - A record is a finite map from field names to numbers; a field that is
      not in the map reads as [undefined].
    - A JavaScript [Map] or [Set] keeps insertion order and is iterated by
      the engine, so it is a list without duplicate keys ([JsMap], [JsSet]).
    - A file is the list of its lines, each line being what [line.trim()]
      and [JSON.parse] make of it: blank, malformed, or a record.
    - The clock, the identifier generator, the floating-point compaction
      ratio and the failures of the file system are inputs of the
      operations that use them.
    - An operation that the code starts without awaiting it (the flush of
      a full batch, the rebuild of the indices from the log, the debounced
      save) is a step of its own; events emitted to listeners are left
      out. *)

From Stdlib Require Import ZArith QArith List Bool Lia Ascii String.
From stdpp Require Import gmap strings list sorting.

Open Scope Z_scope.

(** ** JavaScript values *)

Abbreviation value := (option Z).
Abbreviation undefined := (@None Z).

Module Js.

(** [ToBoolean]: [undefined] and [0] are falsy. *)
Definition truthy (v : value) : bool :=
  match v with
  | Some n => negb (n =? 0)
  | None => false
  end.

(** [a || b]. *)
Definition or (a b : value) : value := if truthy a then a else b.

(** [a === b]. *)
Definition seq (a b : value) : bool := bool_decide (a = b).

(** [a < b]: a comparison with [undefined] (which converts to NaN) is
    false. *)
Definition lt (a b : value) : bool :=
  match a, b with
  | Some x, Some y => x <? y
  | _, _ => false
  end.

Definition le (a b : value) : bool :=
  match a, b with
  | Some x, Some y => x <=? y
  | _, _ => false
  end.

Definition gt (a b : value) : bool := lt b a.
Definition ge (a b : value) : bool := le b a.

(** [Array.prototype.splice(i, 1)] and [splice(i, 0, x)]. *)
Definition splice_out {A} (i : nat) (l : list A) : list A :=
  take i l ++ drop (S i) l.

Definition splice_in {A} (i : nat) (x : A) (l : list A) : list A :=
  take i l ++ x :: drop i l.

(** [Array.prototype.sort(cmp)]: a stable sort; [cmp a b > 0] puts [a]
    after [b].  Insertion from the right keeps equal elements in their
    original order; for a comparator that orders the elements
    consistently this is the array every stable sort returns. *)
Fixpoint sort_insert {A} (cmp : A -> A -> Z) (x : A) (l : list A) : list A :=
  match l with
  | [] => [x]
  | y :: l' => if 0 <? cmp x y then y :: sort_insert cmp x l' else x :: l
  end.

Definition sort {A} (cmp : A -> A -> Z) (l : list A) : list A :=
  foldr (sort_insert cmp) [] l.

End Js.

(** ** [Map] and [Set] with insertion order *)

Module JsMap.
Section Ops.
Context {K V : Type} `{EqDecision K}.

Definition t := list (K * V).

Fixpoint get (k : K) (m : list (K * V)) : option V :=
  match m with
  | [] => None
  | (k', v) :: m' => if decide (k = k') then Some v else get k m'
  end.

Definition has (k : K) (m : list (K * V)) : bool :=
  match get k m with Some _ => true | None => false end.

(** [set] keeps the position of a key that is already there. *)
Fixpoint set (k : K) (v : V) (m : list (K * V)) : list (K * V) :=
  match m with
  | [] => [(k, v)]
  | (k', v') :: m' =>
      if decide (k = k') then (k, v) :: m' else (k', v') :: set k v m'
  end.

Definition delete (k : K) (m : list (K * V)) : list (K * V) :=
  List.filter (fun p => negb (bool_decide (p.1 = k))) m.

Definition size (m : list (K * V)) : nat := length m.
Definition keys (m : list (K * V)) : list K := map fst m.
Definition values (m : list (K * V)) : list V := map snd m.
End Ops.
End JsMap.

Module JsSet.
Section Ops.
Context {K : Type} `{EqDecision K}.

Definition has (k : K) (s : list K) : bool := bool_decide (k ∈ s).

Definition add (k : K) (s : list K) : list K :=
  if has k s then s else s ++ [k].

Definition delete (k : K) (s : list K) : list K :=
  List.filter (fun k' => negb (bool_decide (k' = k))) s.

Definition size (s : list K) : nat := length s.
End Ops.
End JsSet.

(** ** Records *)

Abbreviation record := (gmap string Z).

(** [record[key]]. *)
Definition field (r : record) (key : string) : value := r !! key.

Definition _id (r : record) : value := field r "_id".
Definition _created (r : record) : value := field r "_created".
Definition _modified (r : record) : value := field r "_modified".

(** ** IndexManager *)

Module IndexManager.

(** An element [{ value, id }] of a sorted index.  The value is a
    number, as every defined value of the universe is; the source puts any
    defined value there, and what is proved of the order of a sorted index
    is proved of indices that hold numbers. *)
Record item := Item { ivalue : Z; iid : value }.

(** A hash index is a [Map] from value to the [Set] of ids; a sorted
    index is [{ type: 'sorted', values, map }]. *)
Inductive index :=
| Hash (m : list (Z * list value))
| Sorted (values : list item) (map : list (value * Z)).

Record t := Mk { indices : list (string * index) }.

Definition empty : t := Mk [].

Fixpoint has_dot (s : string) : bool :=
  match s with
  | EmptyString => false
  | String c s' => if Ascii.eqb c "."%char then true else has_dot s'
  end.

(** [getFieldValue(record, field)] walks the dot-separated path.  A
    record holds numbers only, so a path of two or more parts stops at a
    value that is not an object and gives [undefined]. *)
Definition getFieldValue (r : record) (f : string) : value :=
  if has_dot f then undefined else field r f.

(** *** Position search in a sorted index *)

(** The loop of [binarySearch] on the window [left..right].  [None] is
    the model running out of fuel or reading past the array, which
    [binarySearch_loop_total] rules out. *)
Fixpoint binarySearch_loop (fuel : nat) (arr : list item) (v : Z) (id : value)
    (left right : Z) : option Z :=
  match fuel with
  | O => None
  | S fuel' =>
      if left <=? right then
        let mid := (left + right) / 2 in
        match arr !! Z.to_nat mid with
        | None => None
        | Some it =>
            if (ivalue it =? v) && Js.seq (iid it) id then Some mid
            else if (ivalue it <? v) || ((ivalue it =? v) && Js.lt (iid it) id)
                 then binarySearch_loop fuel' arr v id (mid + 1) right
                 else binarySearch_loop fuel' arr v id left (mid - 1)
        end
      else Some (-1)
  end.

Definition binarySearch (arr : list item) (v : Z) (id : value) : Z :=
  default (-1)
    (binarySearch_loop (S (length arr)) arr v id 0 (Z.of_nat (length arr) - 1)).

Fixpoint findInsertPosition_loop (fuel : nat) (arr : list item) (v : Z)
    (left right : Z) : option Z :=
  match fuel with
  | O => None
  | S fuel' =>
      if left <? right then
        let mid := (left + right) / 2 in
        match arr !! Z.to_nat mid with
        | None => None
        | Some it =>
            if ivalue it <=? v
            then findInsertPosition_loop fuel' arr v (mid + 1) right
            else findInsertPosition_loop fuel' arr v left mid
        end
      else Some left
  end.

Definition findInsertPosition (arr : list item) (v : Z) : Z :=
  default 0
    (findInsertPosition_loop (S (length arr)) arr v 0 (Z.of_nat (length arr))).

(** *** Index maintenance *)

Definition updateHashIndex (f : string) (m : list (Z * list value))
    (id : value) (oldRecord newRecord : option record) : list (Z * list value) :=
  let m1 :=
    match oldRecord with
    | Some o =>
        match getFieldValue o f with
        | Some oldValue =>
            match JsMap.get oldValue m with
            | Some ids =>
                let ids' := JsSet.delete id ids in
                if (JsSet.size ids' =? 0)%nat then JsMap.delete oldValue m
                else JsMap.set oldValue ids' m
            | None => m
            end
        | None => m
        end
    | None => m
    end in
  match newRecord with
  | Some n =>
      match getFieldValue n f with
      | Some newValue =>
          let m2 := if JsMap.has newValue m1 then m1 else JsMap.set newValue [] m1 in
          JsMap.set newValue (JsSet.add id (default [] (JsMap.get newValue m2))) m2
      | None => m1
      end
  | None => m1
  end.

Definition updateSortedIndex (f : string) (values : list item)
    (map : list (value * Z)) (id : value) (oldRecord newRecord : option record)
    : list item * list (value * Z) :=
  let '(values1, map1) :=
    if bool_decide (is_Some oldRecord) || JsMap.has id map then
      let oldValue :=
        match oldRecord with
        | Some o => getFieldValue o f
        | None => JsMap.get id map
        end in
      match oldValue with
      | Some ov =>
          let idx := binarySearch values ov id in
          (if 0 <=? idx then Js.splice_out (Z.to_nat idx) values else values,
           JsMap.delete id map)
      | None => (values, map)
      end
    else (values, map) in
  match newRecord with
  | Some n =>
      match getFieldValue n f with
      | Some newValue =>
          let insertIdx := findInsertPosition values1 newValue in
          (Js.splice_in (Z.to_nat insertIdx) (Item newValue id) values1,
           JsMap.set id newValue map1)
      | None => (values1, map1)
      end
  | None => (values1, map1)
  end.

Definition updateIndex (id : value) (oldRecord newRecord : option record)
    (entry : string * index) : string * index :=
  let '(f, ix) := entry in
  match ix with
  | Sorted values map =>
      let '(values', map') := updateSortedIndex f values map id oldRecord newRecord in
      (f, Sorted values' map')
  | Hash m => (f, Hash (updateHashIndex f m id oldRecord newRecord))
  end.

Definition updateIndices (id : value) (oldRecord newRecord : option record)
    (im : t) : t :=
  Mk (List.map (updateIndex id oldRecord newRecord) (indices im)).

Definition removeFromIndices (id : value) (r : record) (im : t) : t :=
  Mk (List.map (updateIndex id (Some r) None) (indices im)).

(** *** Lookups *)

Fixpoint findByIndex_scan (values : list item) (v : value) (results : list value)
    : list value :=
  match values with
  | [] => results
  | it :: rest =>
      if Js.seq (Some (ivalue it)) v
      then findByIndex_scan rest v (JsSet.add (iid it) results)
      else if Js.gt (Some (ivalue it)) v then results
      else findByIndex_scan rest v results
  end.

(** [findByIndex(field, value)]: [None] is the [null] of a field without
    index. *)
Definition findByIndex (im : t) (f : string) (v : value) : option (list value) :=
  match JsMap.get f (indices im) with
  | None => None
  | Some (Sorted values _) => Some (findByIndex_scan values v [])
  | Some (Hash m) =>
      Some (match v with
            | Some n => default [] (JsMap.get n m)
            | None => []
            end)
  end.

Fixpoint findByRange_scan (values : list item) (min max : value)
    (includeMin includeMax : bool) (results : list value) : list value :=
  match values with
  | [] => results
  | it :: rest =>
      let v := Some (ivalue it) in
      if bool_decide (min <> undefined)
         && (if includeMin then Js.lt v min else Js.le v min)
      then findByRange_scan rest min max includeMin includeMax results
      else if bool_decide (max <> undefined)
              && (if includeMax then Js.gt v max else Js.ge v max)
      then results
      else findByRange_scan rest min max includeMin includeMax
             (JsSet.add (iid it) results)
  end.

Definition findByRange (im : t) (f : string) (min max : value)
    (includeMin includeMax : bool) : option (list value) :=
  match JsMap.get f (indices im) with
  | Some (Sorted values _) =>
      Some (findByRange_scan values min max includeMin includeMax [])
  | _ => None
  end.

(** *** Creation *)

(** The sampling loop of [isNumericOrDateField]; every present value of
    the value universe has [typeof value === 'number']. *)
(** [typeof value === 'number' || !isNaN(Date.parse(value))]: true of
    every value of the universe, all of them numbers.  In the source a
    string that is no date fails the test, and the field then gets a hash
    index. *)
Definition numeric_or_date (v : Z) : bool := true.

Fixpoint sample_loop (recs : list record) (f : string) (samples numericCount : nat)
    : nat * nat :=
  match recs with
  | [] => (samples, numericCount)
  | r :: rest =>
      match getFieldValue r f with
      | Some v =>
          let numericCount' :=
            if numeric_or_date v then S numericCount else numericCount in
          let samples' := S samples in
          if (10 <=? samples')%nat then (samples', numericCount')
          else sample_loop rest f samples' numericCount'
      | None => sample_loop rest f samples numericCount
      end
  end.

Definition isNumericOrDateField (data : list (value * record)) (f : string) : bool :=
  if (JsMap.size data =? 0)%nat then false
  else
    let '(samples, numericCount) := sample_loop (JsMap.values data) f 0 0 in
    (0 <? samples)%nat && (numericCount =? samples)%nat.

Definition item_cmp (a b : item) : Z :=
  if ivalue a <? ivalue b then -1
  else if ivalue b <? ivalue a then 1
  else 0.

Fixpoint collect_sorted (data : list (value * record)) (f : string)
    (values : list item) (map : list (value * Z)) : list item * list (value * Z) :=
  match data with
  | [] => (values, map)
  | (id, r) :: rest =>
      match getFieldValue r f with
      | Some v => collect_sorted rest f (values ++ [Item v id]) (JsMap.set id v map)
      | None => collect_sorted rest f values map
      end
  end.

Fixpoint collect_hash (data : list (value * record)) (f : string)
    (m : list (Z * list value)) : list (Z * list value) :=
  match data with
  | [] => m
  | (id, r) :: rest =>
      match getFieldValue r f with
      | Some v =>
          let m' := if JsMap.has v m then m else JsMap.set v [] m in
          collect_hash rest f (JsMap.set v (JsSet.add id (default [] (JsMap.get v m'))) m')
      | None => collect_hash rest f m
      end
  end.

Definition createIndex (f : string) (data : list (value * record)) (im : t) : t :=
  if isNumericOrDateField data f then
    let '(values, map) := collect_sorted data f [] [] in
    Mk (JsMap.set f (Sorted (Js.sort item_cmp values) map) (indices im))
  else
    Mk (JsMap.set f (Hash (collect_hash data f [])) (indices im)).

Definition dropIndex (f : string) (im : t) : t :=
  Mk (JsMap.delete f (indices im)).

Definition hasIndex (im : t) (f : string) : bool := JsMap.has f (indices im).

Inductive index_type := TSorted | THash.

Definition getIndexType (im : t) (f : string) : option index_type :=
  match JsMap.get f (indices im) with
  | Some (Sorted _ _) => Some TSorted
  | Some (Hash _) => Some THash
  | None => None
  end.

Definition clear (im : t) : t := Mk [].

End IndexManager.

(** ** SimpleCache *)

Module SimpleCache.

(** Modelled from the spec: the source file of [SimpleCache] (required by
    [Table] as ['./SimpleCache']) is missing.  The specification gives a
    bounded id-to-record map with least-recently-used eviction and
    hit/miss accounting: [get] counts a hit or a miss, [set] inserts or
    refreshes recency and evicts the least-recently-used entry when at
    capacity, the capacity is fixed at construction.  [entries] lists the
    least recently used entry first. *)
Record t := Mk {
  entries : list (value * record);
  maxSize : nat;
  hits : nat;
  misses : nat
}.

Definition create (maxSize : nat) : t := Mk [] maxSize 0 0.

Definition has (id : value) (c : t) : bool := JsMap.has id (entries c).

Definition get (id : value) (c : t) : option record * t :=
  match JsMap.get id (entries c) with
  | Some r =>
      (Some r,
       Mk (JsMap.delete id (entries c) ++ [(id, r)]) (maxSize c) (S (hits c)) (misses c))
  | None => (None, Mk (entries c) (maxSize c) (hits c) (S (misses c)))
  end.

Definition set (id : value) (r : record) (c : t) : t :=
  let rest := JsMap.delete id (entries c) in
  let kept := if (maxSize c <=? length rest)%nat then tail rest else rest in
  Mk (kept ++ [(id, r)]) (maxSize c) (hits c) (misses c).

Definition delete (id : value) (c : t) : t :=
  Mk (JsMap.delete id (entries c)) (maxSize c) (hits c) (misses c).

Definition clear (c : t) : t := Mk [] (maxSize c) (hits c) (misses c).

End SimpleCache.

(** ** Table *)

Module Table.

(** A line of the [.jsonl] file, as the readers see it: [line.trim()] is
    empty, [JSON.parse] throws, or the line is a record.  A record that
    [JSON.stringify] wrote reads back as itself. *)
Inductive line := Blank | Malformed | Row (r : record).

Record metadata := Metadata {
  m_autoIncrement : Z;
  m_indices : list string;
  m_recordCount : nat;
  m_modified : value
}.

(** The fields of a [Table] object, with the three files it owns
    ([filePath], [tempPath], [metaPath]; [None] is a file that does not
    exist), the [autoSave] option of its database and whether the
    debounce timer [saveTimer] is armed. *)
Record t := Mk {
  data : list (value * record);
  cache : SimpleCache.t;
  indexManager : IndexManager.t;
  isDirty : bool;
  autoIncrement : Z;
  pendingWrites : list record;
  pendingUpdates : list (value * record);
  pendingDeletes : list value;
  batchSize : nat;
  deletedIds : list value;
  meta : metadata;
  lastCompaction : Z;
  saveTimer : bool;
  autoSave : bool;
  file : option (list line);
  temp : option (list line);
  metaFile : option metadata
}.

(** [new Table(name, db)] on a directory without files of that name. *)
Definition create (cacheSize : nat) (autoSave : bool) (now : Z) : t :=
  {| data := []; cache := SimpleCache.create cacheSize;
     indexManager := IndexManager.empty; isDirty := false; autoIncrement := 1;
     pendingWrites := []; pendingUpdates := []; pendingDeletes := [];
     batchSize := 1000; deletedIds := [];
     meta := Metadata 1 [] 0 undefined;
     lastCompaction := now; saveTimer := false; autoSave := autoSave;
     file := None; temp := None; metaFile := None |}.

Definition set_data v (x : t) : t :=
  Mk v (cache x) (indexManager x) (isDirty x) (autoIncrement x) (pendingWrites x)
     (pendingUpdates x) (pendingDeletes x) (batchSize x) (deletedIds x) (meta x)
     (lastCompaction x) (saveTimer x) (autoSave x) (file x) (temp x) (metaFile x).
Definition set_cache v (x : t) : t :=
  Mk (data x) v (indexManager x) (isDirty x) (autoIncrement x) (pendingWrites x)
     (pendingUpdates x) (pendingDeletes x) (batchSize x) (deletedIds x) (meta x)
     (lastCompaction x) (saveTimer x) (autoSave x) (file x) (temp x) (metaFile x).
Definition set_indexManager v (x : t) : t :=
  Mk (data x) (cache x) v (isDirty x) (autoIncrement x) (pendingWrites x)
     (pendingUpdates x) (pendingDeletes x) (batchSize x) (deletedIds x) (meta x)
     (lastCompaction x) (saveTimer x) (autoSave x) (file x) (temp x) (metaFile x).
Definition set_isDirty v (x : t) : t :=
  Mk (data x) (cache x) (indexManager x) v (autoIncrement x) (pendingWrites x)
     (pendingUpdates x) (pendingDeletes x) (batchSize x) (deletedIds x) (meta x)
     (lastCompaction x) (saveTimer x) (autoSave x) (file x) (temp x) (metaFile x).
Definition set_pendingWrites v (x : t) : t :=
  Mk (data x) (cache x) (indexManager x) (isDirty x) (autoIncrement x) v
     (pendingUpdates x) (pendingDeletes x) (batchSize x) (deletedIds x) (meta x)
     (lastCompaction x) (saveTimer x) (autoSave x) (file x) (temp x) (metaFile x).
Definition set_pendingUpdates v (x : t) : t :=
  Mk (data x) (cache x) (indexManager x) (isDirty x) (autoIncrement x) (pendingWrites x)
     v (pendingDeletes x) (batchSize x) (deletedIds x) (meta x)
     (lastCompaction x) (saveTimer x) (autoSave x) (file x) (temp x) (metaFile x).
Definition set_pendingDeletes v (x : t) : t :=
  Mk (data x) (cache x) (indexManager x) (isDirty x) (autoIncrement x) (pendingWrites x)
     (pendingUpdates x) v (batchSize x) (deletedIds x) (meta x)
     (lastCompaction x) (saveTimer x) (autoSave x) (file x) (temp x) (metaFile x).
Definition set_deletedIds v (x : t) : t :=
  Mk (data x) (cache x) (indexManager x) (isDirty x) (autoIncrement x) (pendingWrites x)
     (pendingUpdates x) (pendingDeletes x) (batchSize x) v (meta x)
     (lastCompaction x) (saveTimer x) (autoSave x) (file x) (temp x) (metaFile x).
Definition set_meta v (x : t) : t :=
  Mk (data x) (cache x) (indexManager x) (isDirty x) (autoIncrement x) (pendingWrites x)
     (pendingUpdates x) (pendingDeletes x) (batchSize x) (deletedIds x) v
     (lastCompaction x) (saveTimer x) (autoSave x) (file x) (temp x) (metaFile x).
Definition set_lastCompaction v (x : t) : t :=
  Mk (data x) (cache x) (indexManager x) (isDirty x) (autoIncrement x) (pendingWrites x)
     (pendingUpdates x) (pendingDeletes x) (batchSize x) (deletedIds x) (meta x)
     v (saveTimer x) (autoSave x) (file x) (temp x) (metaFile x).
Definition set_saveTimer v (x : t) : t :=
  Mk (data x) (cache x) (indexManager x) (isDirty x) (autoIncrement x) (pendingWrites x)
     (pendingUpdates x) (pendingDeletes x) (batchSize x) (deletedIds x) (meta x)
     (lastCompaction x) v (autoSave x) (file x) (temp x) (metaFile x).
Definition set_file v (x : t) : t :=
  Mk (data x) (cache x) (indexManager x) (isDirty x) (autoIncrement x) (pendingWrites x)
     (pendingUpdates x) (pendingDeletes x) (batchSize x) (deletedIds x) (meta x)
     (lastCompaction x) (saveTimer x) (autoSave x) v (temp x) (metaFile x).
Definition set_temp v (x : t) : t :=
  Mk (data x) (cache x) (indexManager x) (isDirty x) (autoIncrement x) (pendingWrites x)
     (pendingUpdates x) (pendingDeletes x) (batchSize x) (deletedIds x) (meta x)
     (lastCompaction x) (saveTimer x) (autoSave x) (file x) v (metaFile x).
Definition set_metaFile v (x : t) : t :=
  Mk (data x) (cache x) (indexManager x) (isDirty x) (autoIncrement x) (pendingWrites x)
     (pendingUpdates x) (pendingDeletes x) (batchSize x) (deletedIds x) (meta x)
     (lastCompaction x) (saveTimer x) (autoSave x) (file x) (temp x) v.

(** [obj[key] = v]; a property holding [undefined] reads like a missing
    one. *)
Definition assign (key : string) (v : value) (r : record) : record :=
  match v with
  | Some n => <[key := n]> r
  | None => delete key r
  end.

(** [{ ...a, ...b }]. *)
Definition spread (a b : record) : record := b ∪ a.

Definition is_deleted (id : value) (x : t) : bool :=
  JsSet.has id (deletedIds x) || JsSet.has id (pendingDeletes x).

(** [queueSave()]: arms the debounce timer whose expiry runs [save]. *)
Definition queueSave (x : t) : t :=
  if autoSave x then set_saveTimer true (set_isDirty true x) else x.

(** *** Reading *)

Fixpoint scan_file (id : value) (lines : list line) : option record :=
  match lines with
  | [] => None
  | Row r :: rest => if Js.seq (_id r) id then Some r else scan_file id rest
  | _ :: rest => scan_file id rest
  end.

(** [loadRecordById(id)].  An error of the read stream (a missing file
    among them) is swallowed and gives [null]. *)
Definition loadRecordById (id : value) (x : t) : option record * t :=
  if is_deleted id x then (None, x)
  else match JsMap.get id (pendingUpdates x) with
  | Some r => (Some r, x)
  | None =>
  match JsMap.get id (data x) with
  | Some r => (Some r, x)
  | None =>
  if SimpleCache.has id (cache x) then
    let '(r, c) := SimpleCache.get id (cache x) in (r, set_cache c x)
  else
    match scan_file id (default [] (file x)) with
    | Some r =>
        if JsSet.has id (deletedIds x) then (None, x)
        else (Some r, set_cache (SimpleCache.set id r (cache x)) x)
    | None => (None, x)
    end
  end
  end.

(** [get(id)], also [findById(id)]. *)
Definition get (id : value) (x : t) : option record * t :=
  if is_deleted id x then (None, x)
  else match JsMap.get id (pendingUpdates x) with
  | Some r => (Some r, x)
  | None =>
  if SimpleCache.has id (cache x) then
    let '(r, c) := SimpleCache.get id (cache x) in (r, set_cache c x)
  else
    match JsMap.get id (data x) with
    | Some r => (Some r, set_cache (SimpleCache.set id r (cache x)) x)
    | None => loadRecordById id x
    end
  end.

Definition findById := get.

(** *** Buffered writes *)

(** [flushPendingWrites()].  [appendFails] says whether [fs.appendFile]
    rejects; the rejection is caught and queues a save. *)
Definition flushPendingWrites (appendFails : bool) (x : t) : t :=
  match pendingWrites x with
  | [] => x
  | _ :: _ =>
      if appendFails then queueSave x
      else
        let x1 := set_file (Some (default [] (file x) ++ List.map Row (pendingWrites x))) x in
        let x2 := set_data (foldl (fun d r => JsMap.set (_id r) r d) (data x1)
                              (pendingWrites x1)) x1 in
        set_pendingWrites [] x2
  end.

(** The record [insert] stores: [{ ...record, _id, _created, _modified }]
    with [id = record.id || record._id || uuidv4()]. *)
Definition insert_id (fresh : Z) (r : record) : value :=
  Js.or (field r "id") (Js.or (field r "_id") (Some fresh)).

Definition fullRecord (now fresh : Z) (r : record) : record :=
  assign "_modified" (Some now)
    (assign "_created" (Some now) (assign "_id" (insert_id fresh r) r)).

(** [insert(record)]; [now] is the clock reading and [fresh] what
    [uuidv4()] would return.  When the batch is full the code starts
    [flushPendingWrites()] without awaiting it: the append completes
    later, as a separate [flushPendingWrites] step. *)
Definition insert (now fresh : Z) (r : record) (x : t) : record * t :=
  let id := insert_id fresh r in
  let full := fullRecord now fresh r in
  let x1 := set_cache (SimpleCache.set id full (cache x)) x in
  let x2 := set_indexManager (IndexManager.updateIndices id None (Some full) (indexManager x1)) x1 in
  let x3 := set_deletedIds (JsSet.delete id (deletedIds x2)) x2 in
  let x4 := set_pendingDeletes (JsSet.delete id (pendingDeletes x3)) x3 in
  let x5 := set_pendingWrites (pendingWrites x4 ++ [full]) x4 in
  (full, x5).

Definition insert_starts_flush (x : t) : bool :=
  (batchSize x <=? length (pendingWrites x))%nat.

(** [update(id, updates)]. *)
Definition update (now : Z) (id : value) (updates : record) (x : t)
    : option record * t :=
  match get id x with
  | (None, x1) => (None, x1)
  | (Some r, x1) =>
      let oldRecord := default r (JsMap.get id (data x1)) in
      let updated :=
        assign "_modified" (Some now)
          (assign "_created" (_created r) (assign "_id" id (spread r updates))) in
      let x2 := set_pendingUpdates (JsMap.set id updated (pendingUpdates x1)) x1 in
      let x3 := set_cache (SimpleCache.set id updated (cache x2)) x2 in
      let x4 := set_indexManager
                  (IndexManager.updateIndices id (Some oldRecord) (Some updated)
                     (indexManager x3)) x3 in
      (Some updated, queueSave x4)
  end.

(** [delete(id)]. *)
Definition delete (id : value) (x : t) : bool * t :=
  match get id x with
  | (None, x1) => (false, x1)
  | (Some r, x1) =>
      let x2 := set_cache (SimpleCache.delete id (cache x1)) x1 in
      let x3 := set_indexManager (IndexManager.removeFromIndices id r (indexManager x2)) x2 in
      let x4 := set_pendingDeletes (JsSet.add id (pendingDeletes x3)) x3 in
      (true, queueSave x4)
  end.

(** [buildIndicesFromFile()]: every record of the log that is not in
    [deletedIds] is put in the indices. *)
Definition buildIndicesFromFile (x : t) : t :=
  set_indexManager
    (foldl (fun im l =>
              match l with
              | Row r =>
                  if JsSet.has (_id r) (deletedIds x) then im
                  else IndexManager.updateIndices (_id r) None (Some r) im
              | _ => im
              end) (indexManager x) (default [] (file x))) x.

(** [createIndex(field)].  When the table is not fully resident
    ([createIndex_starts_rebuild]) the code also starts
    [buildIndicesFromFile()] without awaiting it: the rebuild completes
    later, as a separate step. *)
Definition createIndex (f : string) (x : t) : t :=
  queueSave (set_indexManager (IndexManager.createIndex f (data x) (indexManager x)) x).

Definition createIndex_starts_rebuild (x : t) : bool :=
  (JsMap.size (data x) <? m_recordCount (meta x))%nat.

Definition dropIndex (f : string) (x : t) : t :=
  queueSave (set_indexManager (IndexManager.dropIndex f (indexManager x)) x).

(** [count()] without condition. *)
Definition count_all (x : t) : Z :=
  let deletedCount :=
    Z.of_nat (JsSet.size (deletedIds x)) + Z.of_nat (JsSet.size (pendingDeletes x)) in
  if (JsMap.size (data x) =? m_recordCount (meta x))%nat
     || (m_recordCount (meta x) =? 0)%nat
  then Z.of_nat (JsMap.size (data x)) + Z.of_nat (length (pendingWrites x)) - deletedCount
  else Z.max 0 (Z.of_nat (m_recordCount (meta x))
                + Z.of_nat (length (pendingWrites x)) - deletedCount).

(** *** Compaction *)

(** Where the file system fails during [save]: [fs.stat] rejects on a
    log that is there, reading the log throws after [n] lines were
    delivered (opening it, for [n = 0]), [writeStream.end] reports an
    error, [fs.rename] rejects, or (after the rename) writing the metadata
    rejects. *)
Inductive fault :=
| NoFault
| StatFault
| ReadFault (n : nat)
| EndFault
| RenameFault
| MetaFault.

(** What [save] takes from its surroundings: the result of
    [needsCompaction()] (a floating-point ratio and a clock difference),
    whether [fs.appendFile] rejects, the fault of the file system, the
    clock reading, and whether the [fs.unlink] of the handler rejects. *)
Record env := Env {
  needsCompaction : bool;
  appendFails : bool;
  failure : fault;
  now : Z;
  unlinkFails : bool
}.

Inductive outcome := Skipped | Saved | Threw.

(** [pendingUpdates.get(id) || record]. *)
Definition updatedRecord (x : t) (id : value) (r : record) : record :=
  default r (JsMap.get id (pendingUpdates x)).

(** The loop over the lines of the log; [processedIds] and the lines
    written so far are threaded through. *)
Fixpoint file_pass (x : t) (lines : list line) (processedIds : list value)
    (out : list line) : list value * list line :=
  match lines with
  | [] => (processedIds, out)
  | Row r :: rest =>
      let id := _id r in
      if JsSet.has id processedIds then file_pass x rest processedIds out
      else
        let processedIds' := JsSet.add id processedIds in
        if JsSet.has id (pendingDeletes x) || JsSet.has id (deletedIds x)
        then file_pass x rest processedIds' out
        else file_pass x rest processedIds' (out ++ [Row (updatedRecord x id r)])
  | _ :: rest => file_pass x rest processedIds out
  end.

(** The loop over [this.data.entries()]. *)
Fixpoint data_pass (x : t) (entries : list (value * record))
    (processedIds : list value) (out : list line) : list line :=
  match entries with
  | [] => out
  | (id, r) :: rest =>
      if negb (JsSet.has id processedIds) && negb (JsSet.has id (pendingDeletes x))
         && negb (JsSet.has id (deletedIds x))
      then data_pass x rest processedIds (out ++ [Row (updatedRecord x id r)])
      else data_pass x rest processedIds out
  end.

(** [saveMetadata()] without its write. *)
Definition refreshMetadata (now : Z) (x : t) : t :=
  set_meta (Metadata (autoIncrement x)
              (JsMap.keys (IndexManager.indices (indexManager x)))
              (JsMap.size (data x)) (Some now)) x.

(** The steps of [save] after a successful rename. *)
Definition after_rename (e : env) (x : t) : outcome * t :=
  let x1 := set_data (foldl (fun d p => JsMap.set p.1 p.2 d) (data x) (pendingUpdates x)) x in
  let x2 := set_data (foldl (fun d id => JsMap.delete id d) (data x1) (pendingDeletes x1)) x1 in
  let x3 := set_deletedIds [] (set_pendingDeletes [] (set_pendingUpdates [] x2)) in
  let x4 := set_lastCompaction (now e) x3 in
  let x5 := refreshMetadata (now e) x4 in
  match failure e with
  | MetaFault => (Threw, set_temp None x5)
  | _ => (Saved, set_isDirty false (set_metaFile (Some (meta x5)) x5))
  end.

(** The test that lets [save] return before compacting. *)
Definition skips (e : env) (x : t) : bool :=
  negb (needsCompaction e) && (JsMap.size (pendingUpdates x) =? 0)%nat
  && (JsSet.size (pendingDeletes x) =? 0)%nat.

(** [fs.rename(tempPath, filePath)]. *)
Definition rename (x : t) : t := set_temp None (set_file (temp x) x).

(** [fs.unlink(tempPath).catch(() => {})] of the handler: a rejection
    is passed over and the temporary file stays. *)
Definition unlink_temp (fails : bool) (x : t) : t :=
  if fails then x else set_temp None x.

(** [save()].  [createWriteStream] makes the temporary file; every throw
    inside the [try] runs the handler, which unlinks the temporary file
    and throws again.  [fs.stat(filePath).catch(() => null)] guards the
    pass over the log: a log that is not there and a [stat] that rejects
    for another reason both give [null], and the pass is left out. *)
Definition save (e : env) (x : t) : outcome * t :=
  let x1 := flushPendingWrites (appendFails e) x in
  if skips e x1 then (Skipped, x1)
  else
    let x2 := set_temp (Some []) x1 in
    let lines :=
      match file x2, failure e with
      | Some ls, StatFault => []
      | Some ls, ReadFault n => take n ls
      | Some ls, _ => ls
      | None, _ => []
      end in
    let '(processedIds, out1) := file_pass x2 lines [] [] in
    match file x2, failure e with
    | Some _, ReadFault _ =>
        (Threw, unlink_temp (unlinkFails e) (set_temp (Some out1) x2))
    | _, _ =>
        let out := data_pass x2 (data x2) processedIds out1 in
        let x3 := set_temp (Some out) x2 in
        match failure e with
        | EndFault | RenameFault => (Threw, unlink_temp (unlinkFails e) x3)
        | _ => after_rename e (rename x3)
        end
    end.

(** [flush()]: the pending writes are flushed, then the queued saves are
    awaited. *)
Definition flush (appendFails : bool) (x : t) : t := flushPendingWrites appendFails x.

End Table.

(** ** Query *)

Module Query.

(** An operator object [{ $eq, $ne, $gt, ... }]; a key that is absent
    reads as [undefined] ([None] for the lists, the pattern and the
    flag).  [$regex] with its [$options] is carried as the test that
    [RegExp.prototype.test] performs on the field value. *)
Record operator := Operator {
  op_eq : value;
  op_ne : value;
  op_gt : value;
  op_gte : value;
  op_lt : value;
  op_lte : value;
  op_in : option (list value);
  op_nin : option (list value);
  op_regex : option (value -> bool);
  op_exists : option bool
}.

Definition no_op : operator :=
  Operator undefined undefined undefined undefined undefined undefined None None None None.

(** The value under a key of a condition object: a literal or an
    operator object. *)
Inductive cond_value := Lit (v : value) | Op (o : operator).

(** A condition: a predicate function or an object, held by its
    [Object.entries]. *)
Inductive condition :=
| Fn (p : record -> bool)
| Obj (entries : list (string * cond_value)).

Definition is_def (v : value) : bool := bool_decide (v <> undefined).

Definition evaluateOperator (fieldValue : value) (o : operator) : bool :=
  if is_def (op_eq o) then Js.seq fieldValue (op_eq o)
  else if is_def (op_ne o) then negb (Js.seq fieldValue (op_ne o))
  else if is_def (op_gt o) then Js.gt fieldValue (op_gt o)
  else if is_def (op_gte o) then Js.ge fieldValue (op_gte o)
  else if is_def (op_lt o) then Js.lt fieldValue (op_lt o)
  else if is_def (op_lte o) then Js.le fieldValue (op_lte o)
  else match op_in o with
  | Some l => bool_decide (fieldValue ∈ l)
  | None =>
  match op_nin o with
  | Some l => negb (bool_decide (fieldValue ∈ l))
  | None =>
  match op_regex o with
  | Some test => test fieldValue
  | None =>
  match op_exists o with
  | Some b => Bool.eqb (is_def fieldValue) b
  | None => true
  end end end end.

Fixpoint buildCondition (entries : list (string * cond_value)) (r : record) : bool :=
  match entries with
  | [] => true
  | (key, Op o) :: rest =>
      if negb (evaluateOperator (field r key) o) then false
      else buildCondition rest r
  | (key, Lit v) :: rest =>
      if negb (Js.seq (field r key) v) then false
      else buildCondition rest r
  end.

Inductive cond_type := Range | Exact.

(** An element [{ field, condition, type }] of [indexableConditions]. *)
Record indexable := Indexable {
  i_field : string;
  i_condition : operator;
  i_type : cond_type
}.

Inductive order := Asc | Desc | OtherOrder.

Record t := Mk {
  conditions : list (record -> bool);
  sortField : option string;
  sortOrder : order;
  limitCount : option nat;
  skipCount : nat;
  selectedFields : option (list string);
  indexableConditions : list indexable;
  nonIndexableConditions : list (record -> bool)
}.

(** [new Query(table.data, table.indexManager)] with [query.table =
    table]: the query reads the table it was made on, which is passed to
    the operations that touch it. *)
Definition create : t := Mk [] None Asc None 0 None [] [].

Definition hasRangeOp (o : operator) : bool :=
  is_def (op_gt o) || is_def (op_gte o) || is_def (op_lt o) || is_def (op_lte o).

Fixpoint analyzeCondition (im : IndexManager.t) (entries : list (string * cond_value))
    (q : t) : t :=
  match entries with
  | [] => q
  | (key, v) :: rest =>
      let residual :=
        Mk (conditions q) (sortField q) (sortOrder q) (limitCount q) (skipCount q)
           (selectedFields q) (indexableConditions q)
           (nonIndexableConditions q ++ [buildCondition [(key, v)]]) in
      let eligible c ty :=
        Mk (conditions q) (sortField q) (sortOrder q) (limitCount q) (skipCount q)
           (selectedFields q) (indexableConditions q ++ [Indexable key c ty])
           (nonIndexableConditions q) in
      let q' :=
        if IndexManager.hasIndex im key then
          match v with
          | Op o =>
              if match IndexManager.getIndexType im key with
                 | Some IndexManager.TSorted => true
                 | _ => false
                 end && hasRangeOp o
              then eligible o Range
              else if is_def (op_eq o) || bool_decide (is_Some (op_in o))
              then eligible o Exact
              else residual
          | Lit l =>
              eligible (Operator l undefined undefined undefined undefined undefined
                          None None None None) Exact
          end
        else residual in
      analyzeCondition im rest q'
  end.

Definition where_ (im : IndexManager.t) (c : condition) (q : t) : t :=
  match c with
  | Fn p =>
      Mk (conditions q ++ [p]) (sortField q) (sortOrder q) (limitCount q) (skipCount q)
         (selectedFields q) (indexableConditions q) (nonIndexableConditions q ++ [p])
  | Obj entries =>
      let q1 :=
        Mk (conditions q ++ [buildCondition entries]) (sortField q) (sortOrder q)
           (limitCount q) (skipCount q) (selectedFields q) (indexableConditions q)
           (nonIndexableConditions q) in
      analyzeCondition im entries q1
  end.

Definition and_ := where_.

Definition cond_fn (c : condition) : record -> bool :=
  match c with
  | Fn p => p
  | Obj entries => buildCondition entries
  end.

(** [or(condition)]: the last element of [conditions] is popped and
    replaced by its disjunction with the new condition, which is also
    pushed on [nonIndexableConditions]. *)
Definition or_ (c : condition) (q : t) : t :=
  match List.rev (conditions q) with
  | [] => q
  | prevCondition :: before =>
      let orCondition := fun r => prevCondition r || cond_fn c r in
      Mk (List.rev before ++ [orCondition]) (sortField q) (sortOrder q) (limitCount q)
         (skipCount q) (selectedFields q) (indexableConditions q)
         (nonIndexableConditions q ++ [orCondition])
  end.

Definition sort (f : string) (o : order) (q : t) : t :=
  Mk (conditions q) (Some f) o (limitCount q) (skipCount q) (selectedFields q)
     (indexableConditions q) (nonIndexableConditions q).

Definition limit (count : nat) (q : t) : t :=
  Mk (conditions q) (sortField q) (sortOrder q) (Some count) (skipCount q)
     (selectedFields q) (indexableConditions q) (nonIndexableConditions q).

Definition skip (count : nat) (q : t) : t :=
  Mk (conditions q) (sortField q) (sortOrder q) (limitCount q) count
     (selectedFields q) (indexableConditions q) (nonIndexableConditions q).

Definition select (fields : list string) (q : t) : t :=
  Mk (conditions q) (sortField q) (sortOrder q) (limitCount q) (skipCount q)
     (Some fields) (indexableConditions q) (nonIndexableConditions q).

(** *** Planning *)

(** The ids one index-eligible condition selects. *)
Definition condition_ids (im : IndexManager.t) (c : indexable) : list value :=
  let o := i_condition c in
  match i_type c with
  | Range =>
      let min := if is_def (op_gt o) then op_gt o else op_gte o in
      let max := if is_def (op_lt o) then op_lt o else op_lte o in
      let includeMin := is_def (op_gte o) in
      let includeMax := is_def (op_lte o) in
      default [] (IndexManager.findByRange im (i_field c) min max includeMin includeMax)
  | Exact =>
      if is_def (op_eq o) then
        default [] (IndexManager.findByIndex im (i_field c) (op_eq o))
      else
        match op_in o with
        | Some l =>
            foldl (fun ids v =>
                     foldl (fun ids' id => JsSet.add id ids') ids
                       (default [] (IndexManager.findByIndex im (i_field c) v)))
              [] l
        | None => []
        end
  end.

(** The loop of [getIndexCandidateSet]; [candidateSet] is [None] for
    [null]. *)
Fixpoint candidate_loop (im : IndexManager.t) (cs : list indexable)
    (candidateSet : option (list value)) : option (list value) :=
  match cs with
  | [] => candidateSet
  | c :: rest =>
      let ids := condition_ids im c in
      match candidateSet with
      | None => candidate_loop im rest (Some ids)
      | Some cand =>
          let intersection := List.filter (fun id => JsSet.has id cand) ids in
          if (JsSet.size intersection =? 0)%nat then Some intersection
          else candidate_loop im rest (Some intersection)
      end
  end.

Definition getIndexCandidateSet (im : IndexManager.t) (q : t) : option (list value) :=
  match indexableConditions q with
  | [] => None
  | cs => candidate_loop im cs None
  end.

(** *** Execution *)

Fixpoint executeWithIndex (x : Table.t) (candidateSet : list value)
    (results : list record) : list record * Table.t :=
  match candidateSet with
  | [] => (results, x)
  | id :: rest =>
      if JsSet.has id (Table.pendingDeletes x) then executeWithIndex x rest results
      else
        match JsMap.get id (Table.pendingUpdates x) with
        | Some r => executeWithIndex x rest (results ++ [r])
        | None =>
        match JsMap.get id (Table.data x) with
        | Some r => executeWithIndex x rest (results ++ [r])
        | None =>
            match Table.loadRecordById id x with
            | (Some r, x') => executeWithIndex x' rest (results ++ [r])
            | (None, x') => executeWithIndex x' rest results
            end
        end
        end
  end.

(** [record[sortField]] compared as [sortResults] does. *)
Definition comparison (f : string) (a b : record) : Z :=
  if Js.seq (field a f) (field b f) then 0
  else if Js.lt (field a f) (field b f) then -1 else 1.

Definition sort_compare (f : string) (o : order) (a b : record) : Z :=
  match o with
  | Asc => comparison f a b
  | _ => - comparison f a b
  end.

(** The [compare] of [heapSort]. *)
Definition heap_compare (f : string) (o : order) (a b : record) : Z :=
  match o with
  | Desc => comparison f a b
  | _ => - comparison f a b
  end.

Section Heap.
Context {A : Type} (compare : A -> A -> Z).

Fixpoint bubbleUp_loop (fuel : nat) (heap : list A) (index : nat) : list A :=
  match fuel with
  | O => heap
  | S fuel' =>
      if (0 <? index)%nat then
        let parentIndex := ((index - 1) / 2)%nat in
        match heap !! index, heap !! parentIndex with
        | Some c, Some p =>
            if 0 <=? compare c p then heap
            else bubbleUp_loop fuel' (<[index := p]> (<[parentIndex := c]> heap))
                   parentIndex
        | _, _ => heap
        end
      else heap
  end.

(** The index at least halves at every turn, so [S index] turns are
    enough. *)
Definition bubbleUp (heap : list A) (index : nat) : list A :=
  bubbleUp_loop (S index) heap index.

Definition lower (heap : list A) (i smallest : nat) : nat :=
  match heap !! i, heap !! smallest with
  | Some a, Some b => if compare a b <? 0 then i else smallest
  | _, _ => smallest
  end.

Fixpoint bubbleDown_loop (fuel : nat) (heap : list A) (index : nat) : list A :=
  match fuel with
  | O => heap
  | S fuel' =>
      let left := (2 * index + 1)%nat in
      let right := (2 * index + 2)%nat in
      let smallest := lower heap right (lower heap left index) in
      if (smallest =? index)%nat then heap
      else
        match heap !! index, heap !! smallest with
        | Some a, Some b =>
            bubbleDown_loop fuel' (<[index := b]> (<[smallest := a]> heap)) smallest
        | _, _ => heap
        end
  end.

(** The index grows at every turn and stays below the length. *)
Definition bubbleDown (heap : list A) (index : nat) : list A :=
  bubbleDown_loop (S (length heap)) heap index.

Fixpoint heap_fill (k : nat) (arr : list A) (heap : list A) : list A :=
  match arr with
  | [] => heap
  | a :: rest =>
      if (length heap <? k)%nat then
        heap_fill k rest (bubbleUp (heap ++ [a]) (length heap))
      else
        match heap !! 0%nat with
        | Some top =>
            if compare a top <? 0
            then heap_fill k rest (bubbleDown (<[0%nat := a]> heap) 0)
            else heap_fill k rest heap
        | None => heap_fill k rest heap
        end
  end.

(** [heapSort(arr, k)]: the array after the call. *)
Definition heapSort (arr : list A) (k : nat) : list A :=
  let heap := Js.sort (fun a b => - compare a b) (heap_fill k arr []) in
  take k heap ++ drop (Nat.min k (length heap)) arr.
End Heap.

Definition str_truthy (s : string) : bool :=
  match s with EmptyString => false | _ => true end.

(** [sortResults(results)]: the array after the call.
    [limitCount < results.length / 10] compares with a real quotient. *)
Definition sortResults (q : t) (f : string) (results : list record) : list record :=
  match limitCount q with
  | Some k =>
      if (0 <? k)%nat && (skipCount q =? 0)%nat && (10 * k <? length results)%nat
      then heapSort (heap_compare f (sortOrder q)) results k
      else Js.sort (sort_compare f (sortOrder q)) results
  | None => Js.sort (sort_compare f (sortOrder q)) results
  end.

Definition projectFields (fields : list string) (results : list record) : list record :=
  List.map (fun r : record =>
              foldl (fun (selected : record) f =>
                       match r !! f with
                       | Some v => <[f := v]> selected
                       | None => selected
                       end) (∅ : record) fields)
    results.

(** The records of [table.pendingWrites] that are not in
    [pendingDeletes]. *)
Definition pending_written (x : Table.t) : list record :=
  List.filter (fun r => negb (JsSet.has (_id r) (Table.pendingDeletes x)))
    (Table.pendingWrites x).

Fixpoint stream_loop (x : Table.t) (maxToProcess : option nat) (lines : list Table.line)
    (processedCount : nat) (results : list record) : list record :=
  match lines with
  | [] => results
  | l :: rest =>
      let within :=
        match maxToProcess with
        | Some m => (processedCount <? m)%nat
        | None => true
        end in
      let '(processedCount', results') :=
        match l with
        | Table.Row r =>
            if within && negb (JsSet.has (_id r) (Table.pendingDeletes x))
            then (S processedCount, results ++ [Table.updatedRecord x (_id r) r])
            else (processedCount, results)
        | _ => (processedCount, results)
        end in
      match maxToProcess with
      | Some m =>
          if (m <=? processedCount')%nat then results'
          else stream_loop x maxToProcess rest processedCount' results'
      | None => stream_loop x maxToProcess rest processedCount' results'
      end
  end.

(** [streamResults()]; a missing file ends the pass with what was read. *)
Definition streamResults (x : Table.t) (q : t) : list record :=
  let maxToProcess :=
    match limitCount q with
    | Some k => if (0 <? k)%nat then Some ((k + skipCount q) * 2)%nat else None
    | None => None
    end in
  stream_loop x maxToProcess (default [] (Table.file x)) 0 [] ++ pending_written x.

(** The scan of the resident map, then of the pending writes. *)
Definition memory_scan (x : Table.t) : list record :=
  List.map (fun p => Table.updatedRecord x p.1 p.2)
    (List.filter (fun p => negb (JsSet.has p.1 (Table.pendingDeletes x))) (Table.data x))
  ++ pending_written x.

(** The part of [execute] after the candidates or the scan. *)
Definition finish (q : t) (results : list record) : list record :=
  let r1 := foldl (fun rs c => List.filter c rs) results (nonIndexableConditions q) in
  let r2 :=
    match sortField q with
    | Some f => if str_truthy f then sortResults q f r1 else r1
    | None => r1
    end in
  let r3 := if (0 <? skipCount q)%nat then drop (skipCount q) r2 else r2 in
  let r4 := match limitCount q with Some k => take k r3 | None => r3 end in
  match selectedFields q with
  | Some fields => projectFields fields r4
  | None => r4
  end.

Definition execute (x : Table.t) (q : t) : list record * Table.t :=
  match getIndexCandidateSet (Table.indexManager x) q with
  | Some candidateSet =>
      if (JsSet.size candidateSet =? 0)%nat then ([], x)
      else
        let '(results, x') := executeWithIndex x candidateSet [] in
        (finish q results, x')
  | None =>
      if (JsMap.size (Table.data x) <? Table.m_recordCount (Table.meta x))%nat
      then (finish q (streamResults x q), x)
      else (finish q (memory_scan x), x)
  end.

Definition first (x : Table.t) (q : t) : option record * Table.t :=
  let '(results, x') := execute x (limit 1 q) in
  (head results, x').

Definition count (x : Table.t) (q : t) : nat * Table.t :=
  match getIndexCandidateSet (Table.indexManager x) q, nonIndexableConditions q with
  | Some candidateSet, [] =>
      (length (List.filter (fun id => negb (JsSet.has id (Table.pendingDeletes x)))
                 candidateSet), x)
  | _, _ => let '(results, x') := execute x q in (length results, x')
  end.

Definition distinct (x : Table.t) (f : string) (q : t) : list Z * Table.t :=
  let '(results, x') := execute x q in
  (foldl (fun values r =>
            match IndexManager.getFieldValue r f with
            | Some v => JsSet.add v values
            | None => values
            end) [] results, x').

(** *** Aggregation *)

(** A number that [aggregate] returns: a rational in lowest terms (the
    engine holds the nearest double) or an infinity. *)
Inductive number := Num (q : Q) | Infinity | NegInfinity.

Definition of_Z (n : Z) : number := Num (inject_Z n).

(** An operation [{ $sum, $avg, $min, $max, $count }] of the
    aggregation object; an absent key is [None] or [false]. *)
Record operation := Operation {
  op_sum : option string;
  op_avg : option string;
  op_min : option string;
  op_max : option string;
  op_count : bool
}.

Definition named (o : option string) : option string :=
  match o with
  | Some f => if str_truthy f then Some f else None
  | None => None
  end.

(** [results.reduce((sum, r) => sum + (r[f] || 0), 0)]. *)
Definition sum_of (f : string) (results : list record) : Z :=
  foldl (fun sum r => sum + default 0 (Js.or (field r f) (Some 0))) 0 results.

(** [r[f] || Infinity] and [r[f] || -Infinity]: the number when the
    field is truthy. *)
Definition or_infinity (v : value) : option Z :=
  if Js.truthy v then v else None.

(** [Math.min(...values)] where [None] stands for [Infinity]. *)
Definition math_min (values : list (option Z)) : number :=
  match foldl (fun (acc : option Z) v =>
                 match acc, v with
                 | Some a, Some b => Some (Z.min a b)
                 | None, _ => v
                 | _, None => acc
                 end) None values with
  | Some m => of_Z m
  | None => Infinity
  end.

(** [Math.max(...values)] where [None] stands for [-Infinity]. *)
Definition math_max (values : list (option Z)) : number :=
  match foldl (fun (acc : option Z) v =>
                 match acc, v with
                 | Some a, Some b => Some (Z.max a b)
                 | None, _ => v
                 | _, None => acc
                 end) None values with
  | Some m => of_Z m
  | None => NegInfinity
  end.

Definition aggregate_one (results : list record) (o : operation) : option number :=
  match named (op_sum o) with
  | Some f => Some (of_Z (sum_of f results))
  | None =>
  match named (op_avg o) with
  | Some f =>
      Some (match results with
            | [] => of_Z 0
            | _ :: _ => Num (Qred (sum_of f results # Pos.of_nat (length results)))
            end)
  | None =>
  match named (op_min o) with
  | Some f => Some (math_min (List.map (fun r => or_infinity (field r f)) results))
  | None =>
  match named (op_max o) with
  | Some f => Some (math_max (List.map (fun r => or_infinity (field r f)) results))
  | None =>
      if op_count o then Some (of_Z (Z.of_nat (length results))) else None
  end end end end.

(** [aggregate(operations)]: the keys of the returned object with their
    numbers, in the order of [Object.entries(operations)]. *)
Definition aggregate_results (operations : list (string * operation))
    (results : list record) : list (string * number) :=
  omap (fun '(key, o) =>
          match aggregate_one results o with
          | Some n => Some (key, n)
          | None => None
          end) operations.

Definition aggregate (x : Table.t) (operations : list (string * operation)) (q : t)
    : list (string * number) * Table.t :=
  let '(results, x') := execute x q in
  (aggregate_results operations results, x').

End Query.

(** ** The table's entry points to queries *)

(** [table.find(condition)], [table.all()] and [table.count(condition)]. *)
Definition find (x : Table.t) (c : Query.condition) : Query.t :=
  Query.where_ (Table.indexManager x) c Query.create.

Definition all : Query.t := Query.create.

(** * Inputs and reference definitions *)

Open Scope string_scope.

(** An object literal. *)
Definition obj (l : list (string * Z)) : record := list_to_map l.

(** [{ [f]: { $eq: v } }] and [{ [f]: v }]. *)
Definition eq_cond (f : string) (v : Z) : Query.condition :=
  Query.Obj [(f, Query.Op (Query.Operator (Some v) undefined undefined undefined
                             undefined undefined None None None None))].

Definition lit_cond (f : string) (v : Z) : Query.condition :=
  Query.Obj [(f, Query.Lit (Some v))].

(** The value a field of an id has for a reader of the table. *)
Definition current_value (x : Table.t) (id : value) (f : string) : value :=
  match (Table.get id x).1 with
  | Some r => IndexManager.getFieldValue r f
  | None => undefined
  end.

Module SortedIndexScenario.

(** A table with one flushed record gets an index on [age], which is a
    sorted one; two records with the same age are inserted, the one with
    the larger id first, and the second is deleted. *)
Definition resident : Table.t :=
  Table.flush false
    (Table.insert 1 100 (obj [("_id", 3); ("age", 1)]) (Table.create 1000 true 0)).2.

Definition indexed : Table.t := Table.createIndex "age" resident.

Definition inserted : Table.t :=
  (Table.insert 3 102 (obj [("_id", 1); ("age", 5)])
     (Table.insert 2 101 (obj [("_id", 2); ("age", 5)]) indexed).2).2.

Definition deleted : Table.t := (Table.delete (Some 1) inserted).2.

End SortedIndexScenario.

Module StaleIndexScenario.

(** An index on [f] (a hash index, the table being empty), one record
    inserted and flushed, then updated twice. *)
Definition flushed : Table.t :=
  Table.flush false
    (Table.insert 1 100 (obj [("_id", 1); ("f", 1)])
       (Table.createIndex "f" (Table.create 1000 true 0))).2.

Definition updated : Table.t :=
  (Table.update 3 (Some 1) (obj [("f", 3)])
     (Table.update 2 (Some 1) (obj [("f", 2)]) flushed).2).2.

(** The same table without the index: the query is answered by a scan
    with the residual filter. *)
Definition unindexed : Table.t := Table.dropIndex "f" updated.

Definition current : record :=
  obj [("_id", 1); ("f", 3); ("_created", 1); ("_modified", 3)].

(** The record updated once before any flush. *)
Definition unflushed : Table.t :=
  (Table.update 2 (Some 1) (obj [("f", 2)])
     (Table.insert 1 100 (obj [("_id", 1); ("f", 1)])
        (Table.createIndex "f" (Table.create 1000 true 0))).2).2.

Definition once : record :=
  obj [("_id", 1); ("f", 2); ("_created", 1); ("_modified", 2)].

End StaleIndexScenario.

Module OrScenario.

(** Two records, [x] being 1 in the first and 2 in the second. *)
Definition first : record := obj [("_id", 1); ("x", 1); ("_created", 1); ("_modified", 1)].
Definition second : record := obj [("_id", 2); ("x", 2); ("_created", 2); ("_modified", 2)].

Definition table : Table.t :=
  (Table.insert 2 101 (obj [("_id", 2); ("x", 2)])
     (Table.insert 1 100 (obj [("_id", 1); ("x", 1)]) (Table.create 1000 true 0)).2).2.

(** [table.find({x: 1}).or({x: 2})]. *)
Definition query : Query.t := Query.or_ (lit_cond "x" 2) (find table (lit_cond "x" 1)).

End OrScenario.

Module TopKScenario.

(** Eleven records with [v] from 1 to 11, and
    [table.all().sort('v', 'asc').limit(1)]. *)
Definition numbers : list Z := [1; 2; 3; 4; 5; 6; 7; 8; 9; 10; 11].

Definition table : Table.t :=
  foldl (fun x n => (Table.insert n 100 (obj [("_id", n); ("v", n)]) x).2)
    (Table.create 1000 true 0) numbers.

Definition query : Query.t := Query.limit 1 (Query.sort "v" Query.Asc all).

Definition stored (n : Z) : record :=
  obj [("_id", n); ("v", n); ("_created", n); ("_modified", n)].

End TopKScenario.

Module AggregateScenario.

(** Two records, [x] being 0 in the first and 5 in the second, and
    [{ low: { $min: 'x' } }]; then [x] being 0 and -5, and
    [{ high: { $max: 'x' } }]. *)
Definition table : Table.t :=
  (Table.insert 2 101 (obj [("_id", 2); ("x", 5)])
     (Table.insert 1 100 (obj [("_id", 1); ("x", 0)]) (Table.create 1000 true 0)).2).2.

Definition low : list (string * Query.operation) :=
  [("low", Query.Operation None None (Some "x") None false)].

Definition table' : Table.t :=
  (Table.insert 2 101 (obj [("_id", 2); ("x", -5)])
     (Table.insert 1 100 (obj [("_id", 1); ("x", 0)]) (Table.create 1000 true 0)).2).2.

Definition high : list (string * Query.operation) :=
  [("high", Query.Operation None None None (Some "x") false)].

End AggregateScenario.

Module ReinsertScenario.

(** The same id inserted twice. *)
Definition older : record := obj [("_id", 1); ("x", 1); ("_created", 1); ("_modified", 1)].
Definition newer : record := obj [("_id", 1); ("x", 2); ("_created", 2); ("_modified", 2)].

Definition table : Table.t :=
  (Table.insert 2 101 (obj [("_id", 1); ("x", 2)])
     (Table.insert 1 100 (obj [("_id", 1); ("x", 1)]) (Table.create 1000 true 0)).2).2.

End ReinsertScenario.

Module InsertAfterUpdateScenario.

(** An id is inserted, updated, and inserted again. *)
Definition updated : Table.t :=
  (Table.update 2 (Some 1) (obj [("x", 2)])
     (Table.insert 1 100 (obj [("_id", 1); ("x", 1)]) (Table.create 1000 true 0)).2).2.

Definition again : record := obj [("_id", 1); ("x", 3)].

Definition stored : record := obj [("_id", 1); ("x", 3); ("_created", 3); ("_modified", 3)].

Definition stale : record := obj [("_id", 1); ("x", 2); ("_created", 1); ("_modified", 2)].

End InsertAfterUpdateScenario.

Module EvictionScenario.

(** A cache of one entry and two inserts: the first record is in
    [pendingWrites] only. *)
Definition first : record := obj [("_id", 1); ("x", 1); ("_created", 1); ("_modified", 1)].

Definition table : Table.t :=
  (Table.insert 2 101 (obj [("_id", 2); ("x", 2)])
     (Table.insert 1 100 (obj [("_id", 1); ("x", 1)]) (Table.create 1 true 0)).2).2.

End EvictionScenario.

Module CompactionScenario.

(** A log with a blank and a malformed line and id 1 on two lines; id 2
    is deleted, id 3 has a pending update, id 4 is resident only. *)
Definition lines : list Table.line :=
  [Table.Row (obj [("_id", 1); ("x", 10)]); Table.Blank;
   Table.Row (obj [("_id", 2); ("x", 20)]); Table.Malformed;
   Table.Row (obj [("_id", 1); ("x", 11)]);
   Table.Row (obj [("_id", 3); ("x", 30)])].

Definition table : Table.t :=
  Table.set_file (Some lines)
    (Table.set_data [(Some 4, obj [("_id", 4); ("x", 40)]); (Some 1, obj [("_id", 1); ("x", 11)])]
       (Table.set_pendingUpdates [(Some 3, obj [("_id", 3); ("x", 31)])]
          (Table.set_pendingDeletes [Some 2]
             (Table.set_pendingWrites [obj [("_id", 5); ("x", 50)]]
                (Table.create 1000 true 0))))).

Definition quiet : Table.env := Table.Env false false Table.NoFault 7 false.
Definition failing (f : Table.fault) : Table.env := Table.Env false false f 7 false.


End CompactionScenario.

(** ** Compaction, in the words of the specification *)

Module Compaction.

(** The records of the lines that parse. *)
Definition rows (lines : list Table.line) : list record :=
  omap (fun l => match l with Table.Row r => Some r | _ => None end) lines.

(** The first record of every id, in the order of the log: the head is
    kept and the later records of its id are dropped. *)
Fixpoint first_occurrences (rs : list record) : list record :=
  match rs with
  | [] => []
  | r :: rest =>
      r :: List.filter (fun r' => negb (Js.seq (_id r') (_id r))) (first_occurrences rest)
  end.

(** An id marked deleted, in this session or a former one. *)
Definition marked_deleted (x : Table.t) (id : value) : bool :=
  JsSet.has id (Table.pendingDeletes x) || JsSet.has id (Table.deletedIds x).

(** The pending-update value if one exists, else the record's own. *)
Definition substituted (x : Table.t) (id : value) (r : record) : record :=
  match JsMap.get id (Table.pendingUpdates x) with
  | Some u => u
  | None => r
  end.

(** The lines of the compacted log of a table: the first occurrences of
    the log that are not deleted, substituted, then the resident records
    whose id is on no line of the log and not deleted, substituted. *)
Definition compacted (x : Table.t) : list Table.line :=
  let rs := rows (default [] (Table.file x)) in
  List.map (fun r => Table.Row (substituted x (_id r) r))
    (List.filter (fun r => negb (marked_deleted x (_id r))) (first_occurrences rs))
  ++ List.map (fun p => Table.Row (substituted x p.1 p.2))
       (List.filter (fun p => negb (bool_decide (p.1 ∈ List.map _id rs))
                              && negb (marked_deleted x p.1))
          (Table.data x)).



End Compaction.

Close Scope string_scope.

(** Equality of the results that the properties compare is decidable. *)
#[global] Instance index_type_eq_dec : EqDecision IndexManager.index_type.
Proof. solve_decision. Defined.

#[global] Instance outcome_eq_dec : EqDecision Table.outcome.
Proof. solve_decision. Defined.

#[global] Instance line_eq_dec : EqDecision Table.line.
Proof. solve_decision. Defined.

#[global] Instance Q_eq_dec : EqDecision Q.
Proof. solve_decision. Defined.

#[global] Instance number_eq_dec : EqDecision Query.number.
Proof. solve_decision. Defined.

#[global] Instance item_eq_dec : EqDecision IndexManager.item.
Proof. solve_decision. Defined.

(** * Loading, bulk operations and the table's query entry points *)

Module Loading.

Definition set_autoIncrement (v : Z) (x : Table.t) : Table.t :=
  Table.Mk (Table.data x) (Table.cache x) (Table.indexManager x) (Table.isDirty x) v
    (Table.pendingWrites x) (Table.pendingUpdates x) (Table.pendingDeletes x)
    (Table.batchSize x) (Table.deletedIds x) (Table.meta x) (Table.lastCompaction x)
    (Table.saveTimer x) (Table.autoSave x) (Table.file x) (Table.temp x)
    (Table.metaFile x).

(** [loadMetadata()]: the metadata file, when there is one, replaces
    [this.metadata]; [autoIncrement] is [metadata.autoIncrement || 1]; an
    index is created for every listed field over [new Map()].  A missing
    file (ENOENT) is passed over. *)
Definition loadMetadata (x : Table.t) : Table.t :=
  match Table.metaFile x with
  | None => x
  | Some m =>
      let x1 := Table.set_meta m x in
      let x2 :=
        set_autoIncrement
          (if Table.m_autoIncrement m =? 0 then 1 else Table.m_autoIncrement m) x1 in
      Table.set_indexManager
        (foldl (fun im f => IndexManager.createIndex f [] im) (Table.indexManager x2)
           (Table.m_indices m)) x2
  end.

(** One turn of the loop of [loadAllRecords()]. *)
Definition loadLine (x : Table.t) (l : Table.line) : Table.t :=
  match l with
  | Table.Row r =>
      if JsSet.has (_id r) (Table.deletedIds x) then x
      else
        let x1 := Table.set_data (JsMap.set (_id r) r (Table.data x)) x in
        Table.set_indexManager
          (IndexManager.updateIndices (_id r) None (Some r) (Table.indexManager x1)) x1
  | _ => x
  end.

(** [loadAllRecords()]; a missing log is passed over. *)
Definition loadAllRecords (x : Table.t) : Table.t :=
  foldl loadLine x (default [] (Table.file x)).

(** [load()]; [db.options.cacheSize] is the capacity the cache was made
    with.  The flag [isLoaded], which the table never reads, is left
    out. *)
Definition load (x : Table.t) : Table.t :=
  let x1 := loadMetadata x in
  if (Table.m_recordCount (Table.meta x1) <=? SimpleCache.maxSize (Table.cache x1))%nat
  then loadAllRecords x1
  else Table.buildIndicesFromFile x1.

End Loading.

Module Bulk.

(** One turn of the loop of [insertMany]: the body of [insert] with the
    timestamp taken once before the loop.  A record comes with what
    [uuidv4()] would return for it. *)
Definition insertOne (now : Z) (acc : list record * Table.t) (entry : Z * record)
    : list record * Table.t :=
  let '(inserted, x) := acc in
  let '(fresh, r) := entry in
  let id := Js.or (field r "id") (Js.or (field r "_id") (Some fresh)) in
  let full :=
    Table.assign "_modified" (Some now)
      (Table.assign "_created" (Some now) (Table.assign "_id" id r)) in
  let x1 := Table.set_cache (SimpleCache.set id full (Table.cache x)) x in
  let x2 :=
    Table.set_indexManager
      (IndexManager.updateIndices id None (Some full) (Table.indexManager x1)) x1 in
  let x3 := Table.set_deletedIds (JsSet.delete id (Table.deletedIds x2)) x2 in
  let x4 := Table.set_pendingDeletes (JsSet.delete id (Table.pendingDeletes x3)) x3 in
  (inserted ++ [full], Table.set_pendingWrites (Table.pendingWrites x4 ++ [full]) x4).

(** [insertMany(records)]: the loop.  As in [insert], the flush of a
    full batch is started without being awaited; [insertMany_call] below
    has it. *)
Definition insertMany (now : Z) (records : list (Z * record)) (x : Table.t)
    : list record * Table.t :=
  foldl (insertOne now) ([], x) records.

(** The flush that [insert] and [insertMany] start when the buffer has
    reached [batchSize]: [flushPendingWrites()] is called and not awaited.
    Up to its [await] the call changes nothing of the table; it hands the
    lines of the whole buffer to [fs.appendFile], and on an empty buffer
    it returns at once.  The result is the list of the buffers handed
    over: none or one. *)
Definition started_flush (x : Table.t) : list (list record) :=
  if Table.insert_starts_flush x then
    match Table.pendingWrites x with
    | [] => []
    | _ :: _ => [Table.pendingWrites x]
    end
  else [].

(** One call of [insert] among calls made in a row, none of the appends
    completing in between: the records returned so far, the table, and
    the buffers handed to [fs.appendFile] so far. *)
Definition insert_call (now : Z) (acc : list record * Table.t * list (list record))
    (entry : Z * record) : list record * Table.t * list (list record) :=
  let '(inserted, x, started) := acc in
  let '(full, x') := Table.insert now entry.1 entry.2 x in
  (inserted ++ [full], x', started ++ started_flush x').

Definition inserts (now : Z) (records : list (Z * record)) (x : Table.t)
    : list record * Table.t * list (list record) :=
  foldl (insert_call now) ([], x, []) records.

(** [insertMany(records)] with the flush it starts after the loop. *)
Definition insertMany_call (now : Z) (records : list (Z * record)) (x : Table.t)
    : list record * Table.t * list (list record) :=
  let '(inserted, x') := insertMany now records x in
  (inserted, x', started_flush x').

(** One turn of the loop of [deleteMany]. *)
Definition deleteOne (x : Table.t) (r : record) : Table.t :=
  let x1 := Table.set_cache (SimpleCache.delete (_id r) (Table.cache x)) x in
  let x2 :=
    Table.set_indexManager
      (IndexManager.removeFromIndices (_id r) r (Table.indexManager x1)) x1 in
  Table.set_pendingDeletes (JsSet.add (_id r) (Table.pendingDeletes x2)) x2.

(** [deleteMany(condition)]. *)
Definition deleteMany (c : Query.condition) (x : Table.t) : list record * Table.t :=
  let '(records, x1) := Query.execute x (find x c) in
  let x2 := foldl deleteOne x1 records in
  (records, if (0 <? length records)%nat then Table.queueSave x2 else x2).

(** One turn of the loop of [updateMany]. *)
Definition updateOne (now : Z) (updates : record) (acc : list record * Table.t)
    (r : record) : list record * Table.t :=
  let '(updated, x) := acc in
  let oldRecord := default r (JsMap.get (_id r) (Table.data x)) in
  let updatedRecord :=
    Table.assign "_modified" (Some now)
      (Table.assign "_created" (_created r)
         (Table.assign "_id" (_id r) (Table.spread r updates))) in
  let x1 :=
    Table.set_pendingUpdates (JsMap.set (_id r) updatedRecord (Table.pendingUpdates x)) x in
  let x2 := Table.set_cache (SimpleCache.set (_id r) updatedRecord (Table.cache x1)) x1 in
  let x3 :=
    Table.set_indexManager
      (IndexManager.updateIndices (_id r) (Some oldRecord) (Some updatedRecord)
         (Table.indexManager x2)) x2 in
  (updated ++ [updatedRecord], x3).

(** [updateMany(condition, updates)]. *)
Definition updateMany (now : Z) (c : Query.condition) (updates : record) (x : Table.t)
    : list record * Table.t :=
  let '(records, x1) := Query.execute x (find x c) in
  let '(updated, x2) := foldl (updateOne now updates) ([], x1) records in
  (updated, if (0 <? length updated)%nat then Table.queueSave x2 else x2).

(** [findOne(condition)]. *)
Definition findOne (c : Query.condition) (x : Table.t) : option record * Table.t :=
  Query.first x (find x c).

(** [count(condition)]; [None] is the call without condition. *)
Definition count (c : option Query.condition) (x : Table.t) : Z * Table.t :=
  match c with
  | None => (Table.count_all x, x)
  | Some c' =>
      let '(n, x') := Query.count x (find x c') in (Z.of_nat n, x')
  end.

End Bulk.

(** ** Reference notions for the further properties *)

(** The elements of a sorted index, whose values are numbers, in
    ascending order of value. *)
Definition value_sorted (values : list IndexManager.item) : Prop :=
  StronglySorted (fun a b => IndexManager.ivalue a <= IndexManager.ivalue b) values.

(** Every sorted index of the manager is in ascending order of value. *)
Definition indices_sorted (im : IndexManager.t) : Prop :=
  forall (f : string) (values : list IndexManager.item) (map : list (value * Z)),
    JsMap.get f (IndexManager.indices im) = Some (IndexManager.Sorted values map) ->
    value_sorted values.

(** A value within the bounds that [findByRange] is given. *)
Definition in_range (min max : value) (includeMin includeMax : bool) (v : Z) : Prop :=
  (match min with
   | Some lo => if includeMin then lo <= v else lo < v
   | None => True
   end)
  /\ (match max with
      | Some hi => if includeMax then v <= hi else v < hi
      | None => True
      end).

(** A query without sort, skip, limit and projection. *)
Definition plain (q : Query.t) : Prop :=
  Query.sortField q = None /\ Query.skipCount q = 0%nat
  /\ Query.limitCount q = None /\ Query.selectedFields q = None.

(** No key of the condition has an index. *)
Definition unindexed (im : IndexManager.t) (c : Query.condition) : Prop :=
  match c with
  | Query.Fn _ => True
  | Query.Obj entries =>
      forall key : string, key ∈ List.map fst entries -> IndexManager.hasIndex im key = false
  end.

(** The records are in ascending order of a field. *)
Definition ascending (f : string) (results : list record) : Prop :=
  StronglySorted (fun a b => Js.le (field a f) (field b f) = true) results.

(** The values of a field that [$min] and [$max] take into account: the
    truthy ones. *)
Definition counted (f : string) (results : list record) (v : Z) : Prop :=
  v <> 0 /\ exists r : record, r ∈ results /\ field r f = Some v.

(** [{ [key]: { $min: f } }] and [{ [key]: { $max: f } }]. *)
Definition min_of (f : string) : Query.operation :=
  Query.Operation None None (Some f) None false.

Definition max_of (f : string) : Query.operation :=
  Query.Operation None None None (Some f) false.

Module FlushScenario.

(** An empty table whose batch is full at two pending writes, and two
    records to insert. *)
Definition table : Table.t :=
  {| Table.data := []; Table.cache := SimpleCache.create 1000;
     Table.indexManager := IndexManager.empty; Table.isDirty := false;
     Table.autoIncrement := 1; Table.pendingWrites := []; Table.pendingUpdates := [];
     Table.pendingDeletes := []; Table.batchSize := 1; Table.deletedIds := [];
     Table.meta := Table.Metadata 1 [] 0 undefined; Table.lastCompaction := 0;
     Table.saveTimer := false; Table.autoSave := true; Table.file := None;
     Table.temp := None; Table.metaFile := None |}.

Definition records : list (Z * record) :=
  [(100, obj [("_id"%string, 1)]); (101, obj [("_id"%string, 2)])].

Definition first : record :=
  obj [("_id"%string, 1); ("_created"%string, 9); ("_modified"%string, 9)].
Definition second : record :=
  obj [("_id"%string, 2); ("_created"%string, 9); ("_modified"%string, 9)].

End FlushScenario.

Module QueryScenario.

(** Three records, [x] being 0, 5 and 3; the second has no [y]. *)
Definition zero : record := obj [("_id"%string, 1); ("x"%string, 0); ("y"%string, 7)].
Definition five : record := obj [("_id"%string, 2); ("x"%string, 5)].
Definition three : record := obj [("_id"%string, 3); ("x"%string, 3); ("y"%string, 9)].

Definition results : list record := [zero; five; three].

(** A log of the three records under a table that holds none of them in
    memory, and [table.all().limit(1)]. *)
Definition table : Table.t :=
  Table.set_meta (Table.Metadata 4 [] 3 (Some 1))
    (Table.set_file (Some [Table.Row zero; Table.Row five; Table.Row three])
       (Table.create 1000 true 0)).

Definition query : Query.t := Query.limit 1 all.

End QueryScenario.

Module ReloadScenario.

(** The files of a table that was saved with an index on [age]: two
    records of id 1 on the log, a blank line between them, and one of
    id 2. *)
Definition older : record := obj [("_id"%string, 1); ("age"%string, 30)].
Definition newer : record := obj [("_id"%string, 1); ("age"%string, 31)].
Definition other : record := obj [("_id"%string, 2); ("age"%string, 40)].

Definition lines : list Table.line :=
  [Table.Row older; Table.Blank; Table.Row other; Table.Row newer].

Definition stored : Table.t :=
  Table.set_metaFile (Some (Table.Metadata 1 ["age"%string] 2 (Some 7)))
    (Table.set_file (Some lines) (Table.create 1000 true 0)).

(** The same files under a cache of one record: the table is not loaded
    into memory. *)
Definition large : Table.t :=
  Table.set_metaFile (Some (Table.Metadata 1 ["age"%string] 2 (Some 7)))
    (Table.set_file (Some lines) (Table.create 1 true 0)).

End ReloadScenario.

Module IndexScenario.

(** A manager with one sorted index on [age]: three elements, two of them
    with the same value. *)
Definition values : list IndexManager.item :=
  [IndexManager.Item 1 (Some 3); IndexManager.Item 5 (Some 2);
   IndexManager.Item 5 (Some 1)].

Definition manager : IndexManager.t :=
  IndexManager.Mk
    [("age"%string, IndexManager.Sorted values [(Some 3, 1); (Some 2, 5); (Some 1, 5)])].

(** Three resident records. *)
Definition data : list (value * record) :=
  [(Some 3, obj [("_id"%string, 3); ("age"%string, 1)]);
   (Some 2, obj [("_id"%string, 2); ("age"%string, 5)]);
   (Some 1, obj [("_id"%string, 1); ("age"%string, 5)])].

End IndexScenario.

(** * Properties *)

(** ** Position search returns *)

Lemma binarySearch_loop_total (arr : list IndexManager.item) (v : Z) (id : value) :
  forall (fuel : nat) (left right : Z),
    0 <= left -> right < Z.of_nat (length arr) ->
    Z.max 0 (right - left + 1) < Z.of_nat fuel ->
    is_Some (IndexManager.binarySearch_loop fuel arr v id left right).
Proof.
  induction fuel as [|fuel IH]; intros left right Hl Hr Hf; [lia|].
  cbn [IndexManager.binarySearch_loop].
  destruct (Z.leb_spec left right) as [Hle|Hgt]; [|eauto].
  assert (Hmid : left <= (left + right) / 2 <= right).
  { pose proof (Z.div_mod (left + right) 2 ltac:(lia)).
    pose proof (Z.mod_pos_bound (left + right) 2 ltac:(lia)). lia. }
  destruct (lookup_lt_is_Some_2 arr (Z.to_nat ((left + right) / 2))) as [it Hit]; [lia|].
  rewrite Hit.
  destruct (_ && _); [eauto|].
  destruct (_ || _); apply IH; lia.
Qed.

Lemma findInsertPosition_loop_total (arr : list IndexManager.item) (v : Z) :
  forall (fuel : nat) (left right : Z),
    0 <= left -> right <= Z.of_nat (length arr) ->
    Z.max 0 (right - left) < Z.of_nat fuel ->
    is_Some (IndexManager.findInsertPosition_loop fuel arr v left right).
Proof.
  induction fuel as [|fuel IH]; intros left right Hl Hr Hf; [lia|].
  cbn [IndexManager.findInsertPosition_loop].
  destruct (Z.ltb_spec left right) as [Hlt|Hge]; [|eauto].
  assert (Hmid : left <= (left + right) / 2 < right).
  { pose proof (Z.div_mod (left + right) 2 ltac:(lia)).
    pose proof (Z.mod_pos_bound (left + right) 2 ltac:(lia)). lia. }
  destruct (lookup_lt_is_Some_2 arr (Z.to_nat ((left + right) / 2))) as [it Hit]; [lia|].
  rewrite Hit.
  destruct (_ <=? _); apply IH; lia.
Qed.

(** [binarySearch] and [findInsertPosition] never take the default of the
    model: the loops end within the fuel they are given. *)
Lemma binarySearch_total (arr : list IndexManager.item) (v : Z) (id : value) :
  is_Some (IndexManager.binarySearch_loop (S (length arr)) arr v id 0
             (Z.of_nat (length arr) - 1)).
Proof. apply binarySearch_loop_total; lia. Qed.

Lemma findInsertPosition_total (arr : list IndexManager.item) (v : Z) :
  is_Some (IndexManager.findInsertPosition_loop (S (length arr)) arr v 0
             (Z.of_nat (length arr))).
Proof. apply findInsertPosition_loop_total; lia. Qed.

(** ** The heap loops end within their fuel *)

(** More fuel than the index does not change [bubbleUp]. *)
Lemma bubbleUp_loop_fuel {A} (compare : A -> A -> Z) :
  forall (fuel1 fuel2 : nat) (heap : list A) (index : nat),
    (index < fuel1)%nat -> (index < fuel2)%nat ->
    Query.bubbleUp_loop compare fuel1 heap index
    = Query.bubbleUp_loop compare fuel2 heap index.
Proof.
  induction fuel1 as [|fuel1 IH]; intros fuel2 heap index H1 H2; [lia|].
  destruct fuel2 as [|fuel2]; [lia|].
  cbn [Query.bubbleUp_loop].
  destruct (Nat.ltb_spec 0 index) as [Hpos|Hzero]; [|reflexivity].
  destruct (heap !! index) as [c|]; [|reflexivity].
  destruct (heap !! ((index - 1) / 2)%nat) as [p|]; [|reflexivity].
  destruct (0 <=? compare c p); [reflexivity|].
  assert (Hparent : ((index - 1) / 2 <= index - 1)%nat).
  { apply Nat.Div0.div_le_upper_bound. lia. }
  apply IH; lia.
Qed.

Lemma lower_cases {A} (compare : A -> A -> Z) (heap : list A) (i smallest : nat) :
  Query.lower compare heap i smallest = smallest
  \/ (Query.lower compare heap i smallest = i /\ (i < length heap)%nat).
Proof.
  unfold Query.lower.
  destruct (heap !! i) as [a|] eqn:Hi; [|left; reflexivity].
  destruct (heap !! smallest) as [b|]; [|left; reflexivity].
  destruct (compare a b <? 0); [right|left; reflexivity].
  split; [reflexivity|]. apply lookup_lt_Some in Hi. exact Hi.
Qed.

(** More fuel than the distance to the end does not change
    [bubbleDown]. *)
Lemma bubbleDown_loop_fuel {A} (compare : A -> A -> Z) :
  forall (fuel1 fuel2 : nat) (heap : list A) (index : nat),
    (length heap - index < fuel1)%nat -> (length heap - index < fuel2)%nat ->
    Query.bubbleDown_loop compare fuel1 heap index
    = Query.bubbleDown_loop compare fuel2 heap index.
Proof.
  induction fuel1 as [|fuel1 IH]; intros fuel2 heap index H1 H2; [lia|].
  destruct fuel2 as [|fuel2]; [lia|].
  cbn [Query.bubbleDown_loop].
  set (left := (2 * index + 1)%nat).
  set (right := (2 * index + 2)%nat).
  set (smallest := Query.lower compare heap right (Query.lower compare heap left index)).
  destruct (Nat.eqb_spec smallest index) as [Heq|Hne]; [reflexivity|].
  destruct (heap !! index) as [a|]; [|reflexivity].
  destruct (heap !! smallest) as [b|]; [|reflexivity].
  assert (Hs : (index < smallest < length heap)%nat).
  { unfold smallest in *.
    destruct (lower_cases compare heap right (Query.lower compare heap left index))
      as [Hr|[Hr Hlen]];
      destruct (lower_cases compare heap left index) as [Hl|[Hl Hlen']];
      rewrite ?Hr, ?Hl in *; unfold left, right in *; lia. }
  apply IH; rewrite !length_insert; lia.
Qed.

(** ** Compaction *)

Lemma filter_filter_weaker {A} (p q : A -> bool) (l : list A) :
  (forall a, p a = true -> q a = true) ->
  List.filter p (List.filter q l) = List.filter p l.
Proof.
  intros Hpq. induction l as [|a l IH]; [reflexivity|].
  cbn [List.filter]. destruct (q a) eqn:Hq, (p a) eqn:Hp; cbn [List.filter];
    rewrite ?Hp, ?IH; try reflexivity.
  rewrite (Hpq a Hp) in Hq. discriminate.
Qed.

Lemma filter_andb {A} (p q : A -> bool) (l : list A) :
  List.filter (fun a => p a && q a) l = List.filter p (List.filter q l).
Proof.
  induction l as [|a l IH]; [reflexivity|].
  cbn [List.filter]. destruct (q a) eqn:Hq, (p a) eqn:Hp; cbn [List.filter andb];
    rewrite ?Hp, ?IH; reflexivity.
Qed.

Lemma JsSet_has_app {K} `{EqDecision K} (k k' : K) (s : list K) :
  JsSet.has k (s ++ [k']) = JsSet.has k s || bool_decide (k = k').
Proof.
  unfold JsSet.has. rewrite <- bool_decide_or. apply bool_decide_ext.
  rewrite elem_of_app, elem_of_cons. split.
  - intros [Hin|[Heq|Hnil]]; [left; exact Hin | right; exact Heq |].
    apply not_elem_of_nil in Hnil. contradiction.
  - intros [Hin|Heq]; [left; exact Hin | right; left; exact Heq].
Qed.

Section CompactionPasses.

Variable x : Table.t.

Let unseen (P : list value) (r : record) : bool := negb (JsSet.has (_id r) P).
Let live (r : record) : bool := negb (Compaction.marked_deleted x (_id r)).
Let emit (r : record) : Table.line :=
  Table.Row (Compaction.substituted x (_id r) r).

Lemma updatedRecord_substituted (id : value) (r : record) :
  Table.updatedRecord x id r = Compaction.substituted x id r.
Proof.
  unfold Table.updatedRecord, Compaction.substituted.
  destruct (JsMap.get id (Table.pendingUpdates x)); reflexivity.
Qed.

(** The loop over the log adds to [processedIds] the ids of the first
    occurrences it had not seen, and writes those that are live. *)
Lemma file_pass_spec (lines : list Table.line) :
  forall (P : list value) (out : list Table.line),
    Table.file_pass x lines P out =
      (P ++ List.map _id
              (List.filter (unseen P) (Compaction.first_occurrences (Compaction.rows lines))),
       out ++ List.map emit
                (List.filter live
                   (List.filter (unseen P)
                      (Compaction.first_occurrences (Compaction.rows lines))))).
Proof.
  induction lines as [|l lines IH]; intros P out.
  - cbn. rewrite !app_nil_r. reflexivity.
  - destruct l as [| |r]; cbn [Table.file_pass Compaction.rows omap list_omap];
      try apply IH.
    fold (Compaction.rows lines).
    cbn [Compaction.first_occurrences List.filter].
    set (later := fun r' : record => negb (Js.seq (_id r') (_id r))).
    assert (Hu : unseen P r = negb (JsSet.has (_id r) P)) by reflexivity.
    assert (Hl : live r = negb (Compaction.marked_deleted x (_id r))) by reflexivity.
    rewrite Hu.
    destruct (JsSet.has (_id r) P) eqn:Hseen; cbn [negb].
    + rewrite IH. rewrite (filter_filter_weaker (unseen P) later); [reflexivity|].
      intros r' Hr'. unfold unseen, later, Js.seq in *.
      apply negb_true_iff, bool_decide_eq_false_2. intros Heq.
      rewrite Heq, Hseen in Hr'. discriminate.
    + assert (Hadd : JsSet.add (_id r) P = P ++ [_id r]).
      { unfold JsSet.add. rewrite Hseen. reflexivity. }
      rewrite Hadd.
      assert (Hfil : forall L : list record,
                 List.filter (unseen (P ++ [_id r])) L
                 = List.filter (unseen P) (List.filter later L)).
      { intros L. rewrite <- filter_andb. apply List.filter_ext. intros r'.
        unfold unseen, later, Js.seq. rewrite JsSet_has_app, negb_orb. reflexivity. }
      cbn [List.map List.filter]. rewrite Hl.
      fold (Compaction.marked_deleted x (_id r)).
      destruct (Compaction.marked_deleted x (_id r)) eqn:Hdel; cbn [negb].
      * rewrite IH, Hfil. rewrite <- app_assoc. reflexivity.
      * rewrite IH, Hfil. cbn [List.map]. rewrite updatedRecord_substituted.
        rewrite <- !app_assoc. reflexivity.
Qed.

(** The loop over the resident map writes the live entries that the
    first loop had not seen. *)
Lemma data_pass_spec (entries : list (value * record)) :
  forall (P : list value) (out : list Table.line),
    Table.data_pass x entries P out =
      out ++ List.map (fun p => Table.Row (Compaction.substituted x p.1 p.2))
               (List.filter (fun p => negb (JsSet.has p.1 P)
                                      && negb (Compaction.marked_deleted x p.1))
                  entries).
Proof.
  induction entries as [|[id r] entries IH]; intros P out.
  - cbn. rewrite app_nil_r. reflexivity.
  - cbn [Table.data_pass List.filter fst snd].
    unfold Compaction.marked_deleted at 1. rewrite negb_orb, andb_assoc.
    destruct (_ && _ && _).
    + rewrite IH. cbn [List.map fst snd]. rewrite updatedRecord_substituted.
      rewrite <- app_assoc. reflexivity.
    + apply IH.
Qed.

End CompactionPasses.

(** The first occurrences carry the ids of the log, each once. *)
Lemma first_occurrences_ids (rs : list record) (id : value) :
  id ∈ List.map _id (Compaction.first_occurrences rs) <-> id ∈ List.map _id rs.
Proof.
  induction rs as [|r rs IH]; [reflexivity|].
  cbn [Compaction.first_occurrences List.map]. rewrite !elem_of_cons, <- IH.
  rewrite !list_elem_of_In, !in_map_iff.
  split; (intros [Heq|(r' & Hr' & Hin)]; [left; exact Heq|]).
  - right. apply filter_In in Hin as [Hin _]. eauto.
  - destruct (decide (id = _id r)) as [Heq|Hne]; [left; exact Heq|right].
    exists r'. split; [exact Hr'|]. apply filter_In. split; [exact Hin|].
    unfold Js.seq. apply negb_true_iff, bool_decide_eq_false_2. congruence.
Qed.

Lemma first_occurrences_NoDup (rs : list record) :
  NoDup (List.map _id (Compaction.first_occurrences rs)).
Proof.
  induction rs as [|r rs IH]; cbn [Compaction.first_occurrences List.map].
  - constructor.
  - constructor.
    + rewrite list_elem_of_In, in_map_iff. intros (r' & Hr' & Hin).
      apply filter_In in Hin as [_ Hne].
      unfold Js.seq in Hne. apply negb_true_iff, bool_decide_eq_false in Hne.
      congruence.
    + induction (Compaction.first_occurrences rs) as [|a l IHl]; [constructor|].
      cbn [List.filter]. inversion IH as [|? ? Hnot Hrest]; subst.
      destruct (negb _).
      * cbn [List.map]. constructor; [|apply IHl; exact Hrest].
        rewrite list_elem_of_In, in_map_iff. intros (r' & Hr' & Hin).
        apply filter_In in Hin as [Hin _]. apply Hnot.
        rewrite list_elem_of_In, in_map_iff. eauto.
      * apply IHl; exact Hrest.
Qed.


(** What the two loops of [save] write, on the table as the flush of the
    pending writes left it. *)
Lemma passes_compacted (x : Table.t) (v : option (list Table.line)) :
  let x2 := Table.set_temp v x in
  Table.data_pass x2 (Table.data x2)
    (Table.file_pass x2 (default [] (Table.file x2)) [] []).1
    (Table.file_pass x2 (default [] (Table.file x2)) [] []).2
  = Compaction.compacted x.
Proof.
  intros x2. rewrite file_pass_spec. cbn [fst snd]. rewrite data_pass_spec.
  unfold Compaction.compacted. cbn [app].
  change (Table.file x2) with (Table.file x).
  change (Table.data x2) with (Table.data x).
  set (rs := Compaction.rows (default [] (Table.file x))).
  assert (Hall : forall L : list record,
             List.filter (fun r : record => negb (JsSet.has (_id r) [])) L = L).
  { intros L. induction L as [|a L IHL]; [reflexivity|].
    cbn [List.filter]. unfold JsSet.has at 1.
    rewrite bool_decide_eq_false_2 by apply not_elem_of_nil.
    cbn [negb]. rewrite IHL. reflexivity. }
  rewrite Hall.
  change (Compaction.substituted x2) with (Compaction.substituted x).
  change (Compaction.marked_deleted x2) with (Compaction.marked_deleted x).
  do 2 f_equal.
  apply List.filter_ext. intros [id r]. cbn [fst snd]. do 2 f_equal.
  unfold JsSet.has. apply bool_decide_ext. apply first_occurrences_ids.
Qed.

(** [save] when nothing fails: the rename of the temporary file that
    holds the compacted log, then the steps after it. *)
Lemma save_without_fault (e : Table.env) (x : Table.t) :
  Table.failure e = Table.NoFault ->
  Table.skips e (Table.flushPendingWrites (Table.appendFails e) x) = false ->
  let x1 := Table.flushPendingWrites (Table.appendFails e) x in
  Table.save e x
  = Table.after_rename e
      (Table.rename (Table.set_temp (Some (Compaction.compacted x1)) x1)).
Proof.
  intros Hno Hskip x1.
  change (Table.skips e x1 = false) in Hskip.
  unfold Table.save. fold x1. rewrite Hskip, Hno.
  pose proof (passes_compacted x1 (Some [])) as Hp. cbn zeta in Hp.
  set (x2 := Table.set_temp (Some []) x1) in *.
  assert (Hlines : match Table.file x2 with Some ls => ls | None => [] end
                   = default [] (Table.file x2)) by reflexivity.
  rewrite Hlines.
  destruct (Table.file_pass x2 (default [] (Table.file x2)) [] []) as [P out1] eqn:Hfp.
  cbn [fst snd] in Hp. rewrite Hp.
  destruct (Table.file x2); reflexivity.
Qed.

Lemma after_rename_saved (e : Table.env) (x : Table.t) :
  Table.failure e = Table.NoFault ->
  (Table.after_rename e x).1 = Table.Saved
  /\ Table.file (Table.after_rename e x).2 = Table.file x
  /\ Table.temp (Table.after_rename e x).2 = Table.temp x.
Proof.
  intros Hno. unfold Table.after_rename. rewrite Hno. repeat split.
Qed.

(** C3.  When [save] does not return early and the file system does not
    fail, the log it leaves is the compacted log of the specification,
    computed on the table as the flush of the pending writes left it: one
    line for the first occurrence of every id of the log, in the order of
    the log, without the ids marked deleted, with the pending update where
    there is one, then the resident records whose id was not on a line of
    the log, under the same rule.  The lines go to the temporary file,
    which is renamed over the log: [save] is [after_rename] of [rename] of
    the table with that temporary file, and no temporary file is left. *)
Theorem save_compacts (e : Table.env) (x : Table.t) :
  Table.failure e = Table.NoFault ->
  Table.skips e (Table.flushPendingWrites (Table.appendFails e) x) = false ->
  let x1 := Table.flushPendingWrites (Table.appendFails e) x in
  let out := Compaction.compacted x1 in
  Table.save e x = Table.after_rename e (Table.rename (Table.set_temp (Some out) x1))
  /\ (Table.save e x).1 = Table.Saved
  /\ Table.file (Table.save e x).2 = Some out
  /\ Table.temp (Table.save e x).2 = None.
Proof.
  intros Hno Hskip x1 out.
  pose proof (save_without_fault e x Hno Hskip) as Hsave. cbn zeta in Hsave.
  fold x1 in Hsave. fold out in Hsave.
  destruct (after_rename_saved e (Table.rename (Table.set_temp (Some out) x1)) Hno)
    as (Hs & Hf & Ht).
  rewrite Hsave. split; [reflexivity|]. split; [exact Hs|].
  split; [rewrite Hf | rewrite Ht]; reflexivity.
Qed.

(** C3 on a log with a duplicate id, a deleted id, a pending update, a
    pending write and a resident-only record. *)
Lemma save_compacts_witness :
  Table.failure CompactionScenario.quiet = Table.NoFault
  /\ Table.skips CompactionScenario.quiet
       (Table.flushPendingWrites false CompactionScenario.table) = false
  /\ (Table.save CompactionScenario.quiet CompactionScenario.table).1 = Table.Saved
  /\ Table.file (Table.save CompactionScenario.quiet CompactionScenario.table).2
     = Some (Compaction.compacted
               (Table.flushPendingWrites false CompactionScenario.table)).
Proof.
  pose proof (save_compacts CompactionScenario.quiet CompactionScenario.table
                eq_refl eq_refl) as (_ & Hs & Hf & _).
  split; [reflexivity|]. split; [reflexivity|]. split; [exact Hs | exact Hf].
Defined.

(** The compacted log of that table, line by line. *)
Example compacted_scenario :
  Compaction.compacted (Table.flushPendingWrites false CompactionScenario.table)
  = [Table.Row (obj [("_id", 1); ("x", 10)]%string);
     Table.Row (obj [("_id", 3); ("x", 31)]%string);
     Table.Row (obj [("_id", 5); ("x", 50)]%string);
     Table.Row (obj [("_id", 4); ("x", 40)]%string)].
Proof. compute_done. Qed.

(** ** A failure during compaction *)








Lemma data_pass_set_temp (t : option (list Table.line)) (x : Table.t)
    (entries : list (value * record)) :
  forall (processedIds : list value) (out : list Table.line),
    Table.data_pass (Table.set_temp t x) entries processedIds out
    = Table.data_pass x entries processedIds out.
Proof.
  induction entries as [|[id r] entries IH]; intros processedIds out;
    cbn [Table.data_pass]; [reflexivity|].
  rewrite !IH. reflexivity.
Qed.

(** A [stat] that rejects on a log that is there is passed over: [save]
    leaves out the pass over the log, writes the resident records only,
    renames them over the log and empties the buffers, and nothing is
    thrown. *)
Lemma save_passes_over_stat_fault (e : Table.env) (x : Table.t) :
  Table.failure e = Table.StatFault ->
  Table.skips e (Table.flushPendingWrites (Table.appendFails e) x) = false ->
  let x1 := Table.flushPendingWrites (Table.appendFails e) x in
  (Table.save e x).1 = Table.Saved
  /\ Table.file (Table.save e x).2 = Some (Table.data_pass x1 (Table.data x1) [] [])
  /\ Table.pendingUpdates (Table.save e x).2 = []
  /\ Table.pendingDeletes (Table.save e x).2 = [].
Proof.
  intros Hstat Hskip x1. change (Table.skips e x1 = false) in Hskip.
  unfold Table.save. fold x1. rewrite Hskip, Hstat.
  set (x2 := Table.set_temp (Some []) x1).
  change (Table.file x2) with (Table.file x1).
  assert (Hpass : Table.file_pass x2
                    match Table.file x1 with Some _ => [] | None => [] end [] []
                  = ([], [])) by (destruct (Table.file x1); reflexivity).
  rewrite Hpass.
  assert (Hend : match Table.file x1 with
                 | Some _ | _ =>
                     Table.after_rename e
                       (Table.rename
                          (Table.set_temp (Some (Table.data_pass x2 (Table.data x2) [] []))
                             x2))
                 end
                 = Table.after_rename e
                     (Table.rename
                        (Table.set_temp (Some (Table.data_pass x2 (Table.data x2) [] []))
                           x2))) by (destruct (Table.file x1); reflexivity).
  rewrite Hend. unfold Table.after_rename. rewrite Hstat.
  split; [reflexivity|]. split; [|split; reflexivity].
  cbn [snd Table.file Table.set_isDirty Table.set_metaFile Table.refreshMetadata
       Table.set_meta Table.set_lastCompaction Table.set_deletedIds
       Table.set_pendingDeletes Table.set_pendingUpdates Table.set_data Table.rename
       Table.set_file Table.set_temp Table.temp].
  f_equal. apply (data_pass_set_temp (Some []) x1).
Qed.

(** On the log of the scenario: the records of ids 1 and 3, which are on
    the log, are not in the log that [save] leaves when [stat] rejects;
    the resident copy of id 1 and the resident record of id 4 are. *)
Example save_loses_log_on_stat_fault :
  (Table.save (CompactionScenario.failing Table.StatFault) CompactionScenario.table).1
  = Table.Saved
  /\ Table.file
       (Table.save (CompactionScenario.failing Table.StatFault) CompactionScenario.table).2
     = Some [Table.Row (obj [("_id"%string, 4); ("x"%string, 40)]);
             Table.Row (obj [("_id"%string, 1); ("x"%string, 11)]);
             Table.Row (obj [("_id"%string, 5); ("x"%string, 50)])]
  /\ Table.pendingUpdates
       (Table.save (CompactionScenario.failing Table.StatFault) CompactionScenario.table).2
     = [].
Proof. compute_done. Qed.

(** ** Reading by id and the pending writes *)

(** [get] does not read [pendingWrites]. *)
Lemma get_without_pendingWrites (x : Table.t) (pw : list record) (id : value) :
  (Table.get id (Table.set_pendingWrites pw x)).1 = (Table.get id x).1.
Proof.
  unfold Table.get, Table.loadRecordById, Table.is_deleted. destruct x. cbn.
  repeat case_match; simplify_eq; reflexivity.
Qed.

(** A record of [pendingWrites] that is not deleted is among the results
    of the query without conditions. *)
Lemma execute_all_pendingWrites (x : Table.t) (r : record) :
  r ∈ Table.pendingWrites x ->
  JsSet.has (_id r) (Table.pendingDeletes x) = false ->
  r ∈ (Query.execute x all).1.
Proof.
  intros Hin Hdel.
  assert (Hpw : r ∈ Query.pending_written x).
  { unfold Query.pending_written. apply list_elem_of_In, filter_In.
    split; [apply list_elem_of_In; exact Hin | rewrite Hdel; reflexivity]. }
  unfold Query.execute, all. cbn [Query.getIndexCandidateSet Query.indexableConditions
                                  Query.create].
  destruct (_ <? _)%nat; cbn [fst]; unfold Query.finish; cbn;
    unfold Query.streamResults, Query.memory_scan;
    apply elem_of_app; right; exact Hpw.
Qed.

(** C10.  For a record that is in [pendingWrites] only (not deleted, no
    pending update, not in the cache, not resident, on no line of the
    log), [get] and [findById] return [null], while the query without
    conditions returns the record; and [get] returns the same for any
    content of [pendingWrites]. *)
Theorem get_misses_pending_write (x : Table.t) (r : record) :
  r ∈ Table.pendingWrites x ->
  Table.is_deleted (_id r) x = false ->
  JsMap.get (_id r) (Table.pendingUpdates x) = None ->
  SimpleCache.has (_id r) (Table.cache x) = false ->
  JsMap.get (_id r) (Table.data x) = None ->
  Table.scan_file (_id r) (default [] (Table.file x)) = None ->
  (Table.get (_id r) x).1 = None
  /\ (Table.findById (_id r) x).1 = None
  /\ r ∈ (Query.execute x all).1
  /\ (forall (pw : list record) (id : value),
        (Table.get id (Table.set_pendingWrites pw x)).1 = (Table.get id x).1).
Proof.
  intros Hin Hdel Hupd Hcache Hdata Hfile.
  assert (Hget : (Table.get (_id r) x).1 = None).
  { unfold Table.get, Table.loadRecordById.
    rewrite Hdel, Hupd, Hcache, Hdata, Hfile. reflexivity. }
  split; [exact Hget|]. split; [exact Hget|]. split.
  - apply execute_all_pendingWrites; [exact Hin|].
    unfold Table.is_deleted in Hdel. apply orb_false_iff in Hdel as [_ Hdel]. exact Hdel.
  - intros pw id. apply get_without_pendingWrites.
Qed.

(** C10 on a table whose cache holds one record, after two inserts. *)
Lemma get_misses_pending_write_witness :
  EvictionScenario.first ∈ Table.pendingWrites EvictionScenario.table
  /\ (Table.get (Some 1) EvictionScenario.table).1 = None
  /\ EvictionScenario.first ∈ (Query.execute EvictionScenario.table all).1.
Proof.
  assert (Hin : EvictionScenario.first ∈ Table.pendingWrites EvictionScenario.table).
  { compute_done. }
  destruct (get_misses_pending_write EvictionScenario.table EvictionScenario.first
              Hin eq_refl eq_refl eq_refl eq_refl eq_refl) as (Hget & _ & Hq & _).
  split; [exact Hin|]. split; [exact Hget | exact Hq].
Defined.

(** ** The indices after a sequence of mutations *)

(** C1 (the code departs from it).  The claim: after any sequence of
    index mutations that follows the table's mutations, [findByIndex] and
    [findByRange] return exactly the ids whose current value matches.  On
    the code: after [insert] of id 2 and of id 1 with the same [age] and
    [delete] of id 1, which succeeds, id 1 has no value any more and both
    lookups on the sorted index still return it.  [binarySearch] expects
    equal values to be ordered by id, [findInsertPosition] puts a new
    element after all equal values. *)
Theorem sorted_index_keeps_deleted_id :
  IndexManager.getIndexType (Table.indexManager SortedIndexScenario.deleted) "age"
  = Some IndexManager.TSorted
  /\ (Table.delete (Some 1) SortedIndexScenario.inserted).1 = true
  /\ current_value SortedIndexScenario.deleted (Some 1) "age" = undefined
  /\ IndexManager.findByIndex (Table.indexManager SortedIndexScenario.deleted) "age" (Some 5)
     = Some [Some 2; Some 1]
  /\ IndexManager.findByRange (Table.indexManager SortedIndexScenario.deleted) "age"
       (Some 5) (Some 5) true true
     = Some [Some 2; Some 1].
Proof. compute_done. Qed.

(** The search that misses: the element is at position 2. *)
Example binarySearch_misses_equal_value :
  IndexManager.binarySearch
    [IndexManager.Item 1 (Some 3); IndexManager.Item 5 (Some 2);
     IndexManager.Item 5 (Some 1)] 5 (Some 1) = -1.
Proof. reflexivity. Qed.

(** ** An indexed equality query against the scan *)

(** C2 (the code departs from it).  The claim: with an index on [f],
    [find({f: {$eq: v}}).execute()] returns the same records as the scan
    with the same predicate.  On the code: after two updates of a resident
    record ([f] from 1 to 2, then to 3) the index still lists the id under
    2, because [update] removes the value of [data.get(id)], which is the
    one before both updates; the indexed query for 2 returns the record,
    whose [f] is 3, and the scan, run on the table without the index,
    returns nothing. *)
Theorem indexed_eq_differs_from_scan :
  (Query.execute StaleIndexScenario.updated
     (find StaleIndexScenario.updated (eq_cond "f" 2))).1
  = [StaleIndexScenario.current]
  /\ (Query.execute StaleIndexScenario.unindexed
        (find StaleIndexScenario.unindexed (eq_cond "f" 2))).1
     = []
  /\ length (Query.indexableConditions
               (find StaleIndexScenario.updated (eq_cond "f" 2))) = 1%nat
  /\ length (Query.indexableConditions
               (find StaleIndexScenario.unindexed (eq_cond "f" 2))) = 0%nat
  /\ (Table.get (Some 1) StaleIndexScenario.updated).1 = Some StaleIndexScenario.current
  /\ field StaleIndexScenario.current "f" = Some 3.
Proof. compute_done. Qed.

(** The two paths differ the other way round as well: a record that was
    updated while still in [pendingWrites] is found by the index under its
    new value, and the scan, which takes the pending writes as they were
    inserted, misses it. *)
Example scan_misses_update_of_pending_write :
  (Query.execute StaleIndexScenario.unflushed
     (find StaleIndexScenario.unflushed (eq_cond "f" 2))).1
  = [StaleIndexScenario.once]
  /\ (Query.execute (Table.dropIndex "f" StaleIndexScenario.unflushed)
        (find (Table.dropIndex "f" StaleIndexScenario.unflushed) (eq_cond "f" 2))).1
     = []
  /\ (Table.get (Some 1) StaleIndexScenario.unflushed).1 = Some StaleIndexScenario.once.
Proof. compute_done. Qed.

(** ** [or] *)

(** C5 (the code departs from it).  The claim:
    [where(A).or(B).execute()] returns the records that satisfy A or B.
    On the code: [where] has put A on [nonIndexableConditions], [or]
    adds the disjunction after it without taking A away, and [execute]
    filters with both; of two records with [x] 1 and 2,
    [find({x: 1}).or({x: 2})] returns the first only. *)
Theorem or_keeps_first_clause :
  (Query.execute OrScenario.table all).1 = [OrScenario.first; OrScenario.second]
  /\ Query.cond_fn (lit_cond "x" 2) OrScenario.second = true
  /\ (Query.execute OrScenario.table OrScenario.query).1 = [OrScenario.first]
  /\ length (Query.nonIndexableConditions OrScenario.query) = 2%nat
  /\ length (Query.conditions OrScenario.query) = 1%nat.
Proof. compute_done. Qed.

Lemma filter_or_after {A} (p b : A -> bool) (l : list A) :
  List.filter (fun a => p a || b a) (List.filter p l) = List.filter p l.
Proof.
  induction l as [|a l IH]; [reflexivity|].
  cbn [List.filter]. destruct (p a) eqn:Hp; [|exact IH].
  cbn [List.filter]. rewrite Hp, IH. reflexivity.
Qed.

(** X23.  After [where(p)] with a function, [or(B)] changes the result of no
    query: the filter by [p] stays in [nonIndexableConditions] before the
    disjunction. *)
Lemma or_after_where_is_void (x : Table.t) (im : IndexManager.t) (q : Query.t)
    (p : record -> bool) (B : Query.condition) :
  Query.execute x (Query.or_ B (Query.where_ im (Query.Fn p) q))
  = Query.execute x (Query.where_ im (Query.Fn p) q).
Proof.
  assert (Hfinish : forall results : list record,
             Query.finish (Query.or_ B (Query.where_ im (Query.Fn p) q)) results
             = Query.finish (Query.where_ im (Query.Fn p) q) results).
  { intros results. unfold Query.or_, Query.where_.
    cbn [Query.conditions]. rewrite rev_app_distr. cbn [rev app].
    unfold Query.finish.
    cbn [Query.nonIndexableConditions Query.sortField Query.skipCount Query.limitCount
         Query.selectedFields].
    rewrite !foldl_snoc, filter_or_after. reflexivity. }
  unfold Query.execute.
  assert (Hcand : Query.getIndexCandidateSet (Table.indexManager x)
                    (Query.or_ B (Query.where_ im (Query.Fn p) q))
                  = Query.getIndexCandidateSet (Table.indexManager x)
                      (Query.where_ im (Query.Fn p) q)).
  { unfold Query.or_, Query.where_. cbn [Query.conditions].
    rewrite rev_app_distr. reflexivity. }
  rewrite Hcand. clear Hcand.
  destruct (Query.getIndexCandidateSet (Table.indexManager x)
              (Query.where_ im (Query.Fn p) q)) as [candidateSet|].
  - destruct (_ =? _)%nat; [reflexivity|].
    destruct (Query.executeWithIndex x candidateSet []) as [results x'].
    rewrite Hfinish. reflexivity.
  - assert (Hstream : Query.streamResults x (Query.or_ B (Query.where_ im (Query.Fn p) q))
                      = Query.streamResults x (Query.where_ im (Query.Fn p) q)).
    { unfold Query.or_, Query.where_. cbn [Query.conditions].
      rewrite rev_app_distr. reflexivity. }
    rewrite Hstream, !Hfinish. reflexivity.
Qed.

(** ** The bounded heap *)

(** C6 (the code departs from it).  The claim: with a limit [k], no skip
    and [k] small against the number of results, the heap selection gives
    the first [k] records of the full sort.  On the code: of eleven
    records with [v] from 1 to 11, sorted ascending with limit 1, the heap
    path returns the record with [v] 11 and the full sort begins with the
    one with [v] 1.  [heapSort] keeps the largest element at the root for
    an ascending sort and replaces the root when the next element is
    larger still. *)
Theorem heap_selection_differs_from_sort :
  (Query.execute TopKScenario.table all).1
  = List.map TopKScenario.stored TopKScenario.numbers
  /\ take 1 (Query.sortResults TopKScenario.query "v"
               (List.map TopKScenario.stored TopKScenario.numbers))
     = [TopKScenario.stored 11]
  /\ take 1 (Js.sort (Query.sort_compare "v" Query.Asc)
               (List.map TopKScenario.stored TopKScenario.numbers))
     = [TopKScenario.stored 1]
  /\ (Query.execute TopKScenario.table TopKScenario.query).1 = [TopKScenario.stored 11].
Proof. compute_done. Qed.

(** ** Aggregation *)

(** C7 (the code departs from it).  The claim: a value that is present,
    0 included, takes part in [$min] and [$max].  On the code
    ([r[f] || Infinity], [r[f] || -Infinity]): the minimum of 0 and 5 is
    given as 5, the maximum of 0 and -5 as -5. *)
Theorem aggregate_min_max_skip_zero :
  List.map (fun r => field r "x") (Query.execute AggregateScenario.table all).1
  = [Some 0; Some 5]
  /\ (Query.aggregate AggregateScenario.table AggregateScenario.low all).1
     = [("low"%string, Query.of_Z 5)]
  /\ List.map (fun r => field r "x") (Query.execute AggregateScenario.table' all).1
     = [Some 0; Some (-5)]
  /\ (Query.aggregate AggregateScenario.table' AggregateScenario.high all).1
     = [("high"%string, Query.of_Z (-5))].
Proof. compute_done. Qed.

(** ** Inserting an id again *)

(** C8 (the code departs from it).  The claim: after an [insert] of an id
    that exists, one record of that id, the latest, is visible to [get]
    and to queries.  On the code: [insert] appends to [pendingWrites]
    whatever is there; the query without conditions returns both records
    of the id, the older first, and [count()] is 2; [get] returns the
    newer. *)
Theorem reinsert_shows_both_records :
  (Query.execute ReinsertScenario.table all).1
  = [ReinsertScenario.older; ReinsertScenario.newer]
  /\ _id ReinsertScenario.older = _id ReinsertScenario.newer
  /\ Table.count_all ReinsertScenario.table = 2
  /\ (Table.get (Some 1) ReinsertScenario.table).1 = Some ReinsertScenario.newer.
Proof. compute_done. Qed.

(** ** Insert, then get *)

(** C9 (the code departs from it).  The claim: a record fetched by id
    right after its [insert] is the record with [_id], [_created] and
    [_modified] set, the two timestamps being equal.  On the code: when a
    pending update of the id exists, [get] returns it: after insert,
    update and a second insert of id 1, [get] gives the updated record,
    not the one stored by the second insert, and its timestamps differ.
    [insert] clears the id from [deletedIds] and [pendingDeletes], not from
    [pendingUpdates]. *)
Theorem get_after_insert_returns_pending_update :
  (Table.insert 3 102 InsertAfterUpdateScenario.again InsertAfterUpdateScenario.updated).1
  = InsertAfterUpdateScenario.stored
  /\ (Table.get (Some 1)
        (Table.insert 3 102 InsertAfterUpdateScenario.again
           InsertAfterUpdateScenario.updated).2).1
     = Some InsertAfterUpdateScenario.stale
  /\ InsertAfterUpdateScenario.stale <> InsertAfterUpdateScenario.stored
  /\ _created InsertAfterUpdateScenario.stale <> _modified InsertAfterUpdateScenario.stale.
Proof. compute_done. Qed.

Lemma JsSet_has_delete {K} `{EqDecision K} (k : K) (s : list K) :
  JsSet.has k (JsSet.delete k s) = false.
Proof.
  unfold JsSet.has, JsSet.delete. apply bool_decide_eq_false_2.
  rewrite list_elem_of_In, filter_In. intros [_ Hne].
  apply negb_true_iff, bool_decide_eq_false in Hne. congruence.
Qed.

Lemma JsMap_get_delete {K V} `{EqDecision K} (k : K) (m : list (K * V)) :
  JsMap.get k (JsMap.delete k m) = None.
Proof.
  unfold JsMap.delete. induction m as [|[k' v] m IH]; [reflexivity|].
  cbn [List.filter fst]. destruct (decide (k' = k)) as [Heq|Hne].
  - rewrite bool_decide_eq_true_2 by exact Heq. exact IH.
  - rewrite bool_decide_eq_false_2 by exact Hne. cbn [negb JsMap.get].
    destruct (decide (k = k')); [congruence | exact IH].
Qed.

Lemma JsMap_get_tail {K V} `{EqDecision K} (k : K) (m : list (K * V)) :
  JsMap.get k m = None -> JsMap.get k (tail m) = None.
Proof.
  destruct m as [|[k' v] m]; [auto|]. cbn [JsMap.get tail].
  destruct (decide (k = k')); [discriminate | auto].
Qed.

Lemma JsMap_get_snoc {K V} `{EqDecision K} (k : K) (v : V) (m : list (K * V)) :
  JsMap.get k m = None -> JsMap.get k (m ++ [(k, v)]) = Some v.
Proof.
  induction m as [|[k' v'] m IH]; cbn [JsMap.get app].
  - intros _. destruct (decide (k = k)); [reflexivity | congruence].
  - destruct (decide (k = k')); [discriminate | exact IH].
Qed.

(** [cache.set(id, r)] then [cache.has(id)] and [cache.get(id)]. *)
Lemma SimpleCache_get_set (id : value) (r : record) (c : SimpleCache.t) :
  SimpleCache.has id (SimpleCache.set id r c) = true
  /\ (SimpleCache.get id (SimpleCache.set id r c)).1 = Some r.
Proof.
  assert (Hget : JsMap.get id (SimpleCache.entries (SimpleCache.set id r c)) = Some r).
  { unfold SimpleCache.set. cbn [SimpleCache.entries]. apply JsMap_get_snoc.
    destruct (_ <=? _)%nat; [apply JsMap_get_tail|]; apply JsMap_get_delete. }
  unfold SimpleCache.has, SimpleCache.get, JsMap.has. rewrite Hget. split; reflexivity.
Qed.

Lemma insert_id_number (fresh : Z) (r : record) :
  exists n : Z, Table.insert_id fresh r = Some n.
Proof.
  unfold Table.insert_id, Js.or.
  destruct (field r "id") as [a|]; cbn [Js.truthy].
  - destruct (negb (a =? 0)); [eauto|].
    destruct (field r "_id") as [b|]; cbn [Js.truthy]; [destruct (negb (b =? 0))|]; eauto.
  - destruct (field r "_id") as [b|]; cbn [Js.truthy]; [destruct (negb (b =? 0))|]; eauto.
Qed.

(** X4.  Without a pending update of the id, [get] after [insert] returns the
    stored record: the inserted one with [_id], [_created] and [_modified]
    set, the two timestamps being the clock reading. *)
Lemma get_after_insert (now fresh : Z) (r : record) (x : Table.t) :
  let id := Table.insert_id fresh r in
  let stored := (Table.insert now fresh r x).1 in
  JsMap.get id (Table.pendingUpdates x) = None ->
  (Table.get id (Table.insert now fresh r x).2).1 = Some stored
  /\ _id stored = id
  /\ _created stored = Some now
  /\ _modified stored = Some now
  /\ (forall f : string,
        f <> "_id"%string -> f <> "_created"%string -> f <> "_modified"%string ->
        field stored f = field r f).
Proof.
  intros id stored Hupd. split.
  - unfold Table.get, Table.insert, Table.is_deleted. cbn [fst snd].
    cbn [Table.deletedIds Table.pendingDeletes Table.pendingUpdates Table.cache
         Table.set_pendingWrites Table.set_pendingDeletes Table.set_deletedIds
         Table.set_indexManager Table.set_cache].
    fold id. rewrite !JsSet_has_delete. cbn [orb]. rewrite Hupd.
    destruct (SimpleCache_get_set id (Table.fullRecord now fresh r) (Table.cache x))
      as [Hhas Hget].
    rewrite Hhas.
    destruct (SimpleCache.get id _) as [got c] eqn:Hg. cbn [fst] in Hget |- *.
    exact Hget.
  - destruct (insert_id_number fresh r) as [n Hn].
    unfold stored, Table.insert, Table.fullRecord, _id, _created, _modified, field.
    cbn [fst]. unfold id. rewrite Hn. unfold Table.assign.
    repeat split.
    + rewrite !lookup_insert_ne by discriminate. apply lookup_insert_eq.
    + rewrite lookup_insert_ne by discriminate. apply lookup_insert_eq.
    + apply lookup_insert_eq.
    + intros f H1 H2 H3. rewrite !lookup_insert_ne by congruence. reflexivity.
Qed.

(** * Further properties of the code *)

(** ** Reading, deleting and updating by id *)

Lemma set_cache_same (x : Table.t) : Table.set_cache (Table.cache x) x = x.
Proof. destruct x. reflexivity. Qed.

Lemma SimpleCache_get_has (id : value) (c : SimpleCache.t) :
  SimpleCache.has id c = true ->
  exists (r : record) (c' : SimpleCache.t), SimpleCache.get id c = (Some r, c').
Proof.
  unfold SimpleCache.has, JsMap.has, SimpleCache.get.
  destruct (JsMap.get id (SimpleCache.entries c)) as [r|]; [eauto | discriminate].
Qed.

Lemma loadRecordById_cache_only (id : value) (x : Table.t) :
  exists c : SimpleCache.t, (Table.loadRecordById id x).2 = Table.set_cache c x.
Proof.
  unfold Table.loadRecordById.
  repeat case_match; cbn [snd];
    first [ eexists; reflexivity | exists (Table.cache x); symmetry; apply set_cache_same ].
Qed.

Lemma get_cache_only (id : value) (x : Table.t) :
  exists c : SimpleCache.t, (Table.get id x).2 = Table.set_cache c x.
Proof.
  unfold Table.get.
  repeat case_match; cbn [snd];
    first [ apply loadRecordById_cache_only
          | eexists; reflexivity
          | exists (Table.cache x); symmetry; apply set_cache_same ].
Qed.

(** X1.  [get] and [loadRecordById] change nothing of the table but its
    cache: the resident map, the pending buffers, the deletion markers,
    the indices, the metadata and the files are as before. *)
Theorem get_changes_cache_only (id : value) (x : Table.t) :
  (exists c : SimpleCache.t, (Table.get id x).2 = Table.set_cache c x)
  /\ (exists c : SimpleCache.t, (Table.loadRecordById id x).2 = Table.set_cache c x).
Proof. split; [apply get_cache_only | apply loadRecordById_cache_only]. Qed.

Lemma loadRecordById_none (id : value) (x : Table.t) :
  (Table.loadRecordById id x).1 = None -> (Table.loadRecordById id x).2 = x.
Proof.
  unfold Table.loadRecordById.
  destruct (Table.is_deleted id x); [reflexivity|].
  destruct (JsMap.get id (Table.pendingUpdates x)); [discriminate|].
  destruct (JsMap.get id (Table.data x)); [discriminate|].
  destruct (SimpleCache.has id (Table.cache x)) eqn:Hhas.
  - destruct (SimpleCache_get_has id (Table.cache x) Hhas) as (r & c' & Hget).
    rewrite Hget. discriminate.
  - destruct (Table.scan_file id _); [|reflexivity].
    destruct (JsSet.has id (Table.deletedIds x)); [reflexivity | discriminate].
Qed.

(** A [get] that finds nothing leaves the table as it was. *)
Lemma get_none (id : value) (x : Table.t) :
  (Table.get id x).1 = None -> (Table.get id x).2 = x.
Proof.
  unfold Table.get.
  destruct (Table.is_deleted id x); [reflexivity|].
  destruct (JsMap.get id (Table.pendingUpdates x)); [discriminate|].
  destruct (SimpleCache.has id (Table.cache x)) eqn:Hhas.
  - destruct (SimpleCache_get_has id (Table.cache x) Hhas) as (r & c' & Hget).
    rewrite Hget. discriminate.
  - destruct (JsMap.get id (Table.data x)); [discriminate|].
    apply loadRecordById_none.
Qed.

Lemma get_deleted (id : value) (x : Table.t) :
  Table.is_deleted id x = true -> (Table.get id x).1 = None.
Proof. intros Hdel. unfold Table.get. rewrite Hdel. reflexivity. Qed.

Lemma get_some_not_deleted (id : value) (x : Table.t) (r : record) :
  (Table.get id x).1 = Some r -> Table.is_deleted id x = false.
Proof.
  intros Hget. destruct (Table.is_deleted id x) eqn:Hdel; [|reflexivity].
  rewrite (get_deleted id x Hdel) in Hget. discriminate.
Qed.

Lemma JsSet_has_add {K} `{EqDecision K} (k : K) (s : list K) :
  JsSet.has k (JsSet.add k s) = true.
Proof.
  unfold JsSet.add. destruct (JsSet.has k s) eqn:Hhas; [exact Hhas|].
  rewrite JsSet_has_app, bool_decide_eq_true_2 by reflexivity. apply orb_true_r.
Qed.

Lemma is_deleted_queueSave (id : value) (x : Table.t) :
  Table.is_deleted id (Table.queueSave x) = Table.is_deleted id x.
Proof. unfold Table.queueSave. destruct (Table.autoSave x); reflexivity. Qed.

(** X2.  After [delete(id)], [get(id)] returns [null]; [delete] returns
    [true] exactly when [get] found a record before it. *)
Theorem delete_then_get (id : value) (x : Table.t) :
  (Table.get id (Table.delete id x).2).1 = None
  /\ ((Table.delete id x).1 = true <-> is_Some (Table.get id x).1).
Proof.
  unfold Table.delete.
  destruct (Table.get id x) as [[r|] x1] eqn:Hget; cbn [fst snd].
  - split; [|split; [eauto | reflexivity]].
    apply get_deleted. rewrite is_deleted_queueSave.
    unfold Table.is_deleted. cbn [Table.pendingDeletes Table.set_pendingDeletes].
    rewrite JsSet_has_add. apply orb_true_r.
  - pose proof (get_none id x) as Hsame. rewrite Hget in Hsame. cbn [fst snd] in Hsame.
    rewrite (Hsame eq_refl), Hget. cbn [fst].
    split; [reflexivity|]. split; [discriminate | intros [r Hr]; discriminate].
Qed.

Lemma JsMap_get_set {K V} `{EqDecision K} (k k' : K) (v : V) (m : list (K * V)) :
  JsMap.get k (JsMap.set k' v m) = if decide (k = k') then Some v else JsMap.get k m.
Proof.
  induction m as [|[k0 v0] m IH]; cbn [JsMap.set JsMap.get].
  - destruct (decide (k = k')); reflexivity.
  - destruct (decide (k' = k0)) as [Heq|Hne]; cbn [JsMap.get].
    + subst k0. destruct (decide (k = k')); reflexivity.
    + rewrite IH. destruct (decide (k = k0)) as [Hk|Hk]; [|reflexivity].
      subst k0. destruct (decide (k = k')); [congruence | reflexivity].
Qed.

Lemma field_assign (key key' : string) (v : value) (r : record) :
  field (Table.assign key v r) key' = if decide (key' = key) then v else field r key'.
Proof.
  unfold field, Table.assign. destruct v as [n|]; destruct (decide (key' = key)) as [->|Hne].
  - apply lookup_insert_eq.
  - apply lookup_insert_ne. congruence.
  - apply lookup_delete_eq.
  - apply lookup_delete_ne. congruence.
Qed.

Lemma field_spread (r updates : record) (key : string) :
  field (Table.spread r updates) key
  = match field updates key with Some v => Some v | None => field r key end.
Proof.
  unfold field, Table.spread. rewrite lookup_union.
  destruct (updates !! key), (r !! key); reflexivity.
Qed.

Lemma pendingUpdates_queueSave (x : Table.t) :
  Table.pendingUpdates (Table.queueSave x) = Table.pendingUpdates x.
Proof. unfold Table.queueSave. destruct (Table.autoSave x); reflexivity. Qed.

(** X3.  When [get(id)] finds a record, [update(id, updates)] returns the
    record that a following [get(id)] returns; it has the id, the
    [_created] of the record found, the clock reading as [_modified], the
    value of [updates] for every other key that [updates] has, and the
    former value for the rest. *)
Theorem update_then_get (now : Z) (id : value) (updates r : record) (x : Table.t) :
  (Table.get id x).1 = Some r ->
  exists r' : record,
    (Table.update now id updates x).1 = Some r'
    /\ (Table.get id (Table.update now id updates x).2).1 = Some r'
    /\ _id r' = id
    /\ _created r' = _created r
    /\ _modified r' = Some now
    /\ (forall f : string,
          f <> "_id"%string -> f <> "_created"%string -> f <> "_modified"%string ->
          field r' f = match field updates f with
                       | Some v => Some v
                       | None => field r f
                       end).
Proof.
  intros Hget.
  pose proof (get_some_not_deleted id x r Hget) as Hdel.
  destruct (get_cache_only id x) as [c Hstate].
  unfold Table.update.
  destruct (Table.get id x) as [[r0|] x1] eqn:Hg; cbn [fst snd] in *; [|discriminate].
  injection Hget as ->. subst x1.
  eexists. split; [reflexivity|]. split.
  { unfold Table.get. rewrite is_deleted_queueSave, pendingUpdates_queueSave.
    change (Table.is_deleted id _) with (Table.is_deleted id x). rewrite Hdel.
    cbn [Table.pendingUpdates Table.set_indexManager Table.set_cache
         Table.set_pendingUpdates].
    rewrite JsMap_get_set. destruct (decide (id = id)); [reflexivity | congruence]. }
  unfold _id, _created, _modified.
  repeat split.
  - rewrite !field_assign. reflexivity.
  - rewrite !field_assign. reflexivity.
  - rewrite !field_assign. reflexivity.
  - intros f H1 H2 H3. rewrite !field_assign.
    destruct (decide (f = "_modified"%string)); [congruence|].
    destruct (decide (f = "_created"%string)); [congruence|].
    destruct (decide (f = "_id"%string)); [congruence|].
    apply field_spread.
Qed.

(** X3 on the table with two inserted records. *)
Lemma update_then_get_witness :
  (Table.get (Some 1) OrScenario.table).1 = Some OrScenario.first
  /\ exists r' : record,
       (Table.update 5 (Some 1) (obj [("x"%string, 7)]) OrScenario.table).1 = Some r'
       /\ field r' "x" = Some 7
       /\ _created r' = Some 1.
Proof.
  assert (Hget : (Table.get (Some 1) OrScenario.table).1 = Some OrScenario.first).
  { compute_done. }
  split; [exact Hget|].
  destruct (update_then_get 5 (Some 1) (obj [("x"%string, 7)]) OrScenario.first
              OrScenario.table Hget) as (r' & Hupd & _ & _ & Hc & _ & Hf).
  exists r'. split; [exact Hupd|]. split.
  - rewrite Hf by discriminate. reflexivity.
  - rewrite Hc. reflexivity.
Defined.

(** X4 on an empty table, for a record without id, which gets the
    generated one. *)
Lemma get_after_insert_witness :
  JsMap.get (Table.insert_id 100 (obj [("x"%string, 1)]))
    (Table.pendingUpdates (Table.create 1000 true 0)) = None
  /\ _id (Table.insert 9 100 (obj [("x"%string, 1)]) (Table.create 1000 true 0)).1
     = Some 100
  /\ _created (Table.insert 9 100 (obj [("x"%string, 1)]) (Table.create 1000 true 0)).1
     = Some 9.
Proof.
  split; [reflexivity|].
  destruct (get_after_insert 9 100 (obj [("x"%string, 1)]) (Table.create 1000 true 0)
              eq_refl) as (_ & Hid & Hc & _).
  split; [exact Hid | exact Hc].
Defined.

(** ** Flushing the pending writes *)

Lemma JsMap_get_fold_set (r : record) (pw : list record) :
  forall d : list (value * record),
    r ∈ pw \/ is_Some (JsMap.get (_id r) d) ->
    is_Some (JsMap.get (_id r) (foldl (fun d r' => JsMap.set (_id r') r' d) d pw)).
Proof.
  induction pw as [|r0 pw IH]; intros d H; cbn [foldl].
  - destruct H as [H|H]; [|exact H]. apply not_elem_of_nil in H. contradiction.
  - apply IH. destruct H as [H|H].
    + apply elem_of_cons in H as [->|H]; [right|left; exact H].
      rewrite JsMap_get_set. destruct (decide (_id r0 = _id r0)); [eauto | congruence].
    + right. rewrite JsMap_get_set. destruct (decide (_id r = _id r0)); [eauto | exact H].
Qed.

(** X5.  A flush whose append succeeds empties [pendingWrites], appends
    one line per pending record to the log, and makes every pending record
    that is not deleted readable by [get]. *)
Theorem flush_makes_writes_readable (x : Table.t) (r : record) :
  r ∈ Table.pendingWrites x ->
  Table.is_deleted (_id r) x = false ->
  Table.pendingWrites (Table.flushPendingWrites false x) = []
  /\ Table.file (Table.flushPendingWrites false x)
     = Some (default [] (Table.file x) ++ List.map Table.Row (Table.pendingWrites x))
  /\ is_Some (Table.get (_id r) (Table.flushPendingWrites false x)).1.
Proof.
  intros Hin Hdel. unfold Table.flushPendingWrites.
  destruct (Table.pendingWrites x) as [|r0 pw] eqn:Hpw.
  { apply not_elem_of_nil in Hin. contradiction. }
  split; [reflexivity|]. split; [reflexivity|].
  unfold Table.get.
  change (Table.is_deleted (_id r) _) with (Table.is_deleted (_id r) x). rewrite Hdel.
  cbn [Table.pendingUpdates Table.cache Table.data Table.set_pendingWrites Table.set_data
       Table.set_file Table.pendingWrites].
  rewrite ?Hpw.
  destruct (JsMap.get (_id r) (Table.pendingUpdates x)); [eauto|].
  destruct (SimpleCache.has (_id r) (Table.cache x)) eqn:Hhas.
  - destruct (SimpleCache_get_has _ _ Hhas) as (r1 & c' & Hget). rewrite Hget. eauto.
  - destruct (JsMap_get_fold_set r (r0 :: pw) (Table.data x) (or_introl Hin)) as [r1 Hr1].
    rewrite Hr1. eauto.
Qed.

(** X5 on the table whose cache has lost the first record. *)
Lemma flush_makes_writes_readable_witness :
  EvictionScenario.first ∈ Table.pendingWrites EvictionScenario.table
  /\ (Table.get (Some 1) EvictionScenario.table).1 = None
  /\ is_Some (Table.get (Some 1) (Table.flushPendingWrites false EvictionScenario.table)).1.
Proof.
  assert (Hin : EvictionScenario.first ∈ Table.pendingWrites EvictionScenario.table).
  { compute_done. }
  split; [exact Hin|]. split; [reflexivity|].
  exact (proj2 (proj2 (flush_makes_writes_readable EvictionScenario.table
                         EvictionScenario.first Hin eq_refl))).
Defined.

(** ** Bulk operations *)

Lemma insertMany_fold_insert (now : Z) (records : list (Z * record)) (x : Table.t) :
  Bulk.insertMany now records x
  = foldl (fun (acc : list record * Table.t) (entry : Z * record) =>
             let '(full, x') := Table.insert now entry.1 entry.2 acc.2 in
             (acc.1 ++ [full], x'))
      ([], x) records.
Proof.
  unfold Bulk.insertMany. generalize (@nil record, x).
  induction records as [|[fresh r] records IH]; intros [inserted x0]; [reflexivity|].
  cbn [foldl]. rewrite IH. reflexivity.
Qed.

Lemma inserts_fold_insert (now : Z) (records : list (Z * record)) :
  forall acc : list record * Table.t * list (list record),
    (foldl (Bulk.insert_call now) acc records).1
    = foldl (fun (acc : list record * Table.t) (entry : Z * record) =>
               let '(full, x') := Table.insert now entry.1 entry.2 acc.2 in
               (acc.1 ++ [full], x'))
        acc.1 records.
Proof.
  induction records as [|[fresh r] records IH]; intros [[inserted x0] started];
    [reflexivity|].
  cbn [foldl]. rewrite IH. reflexivity.
Qed.

(** What the calls in a row leave: the buffer grows by the records
    returned, and the [k]-th call hands the buffer over when it finds it
    at [batchSize]. *)
Lemma inserts_started (now : Z) (records : list (Z * record)) (x : Table.t) :
  Table.pendingWrites (Bulk.inserts now records x).1.2
  = Table.pendingWrites x ++ (Bulk.inserts now records x).1.1
  /\ Table.batchSize (Bulk.inserts now records x).1.2 = Table.batchSize x
  /\ length (Bulk.inserts now records x).1.1 = length records
  /\ (Bulk.inserts now records x).2
     = List.map (fun k => Table.pendingWrites x ++ take k (Bulk.inserts now records x).1.1)
         (List.filter
            (fun k => (Table.batchSize x <=? length (Table.pendingWrites x) + k)%nat)
            (List.seq 1 (length records))).
Proof.
  unfold Bulk.inserts.
  induction records as [|[fresh r] records IH] using rev_ind.
  - cbn. rewrite app_nil_r. repeat split.
  - rewrite foldl_snoc.
    destruct (foldl (Bulk.insert_call now) ([], x, []) records) as [[ins x'] st].
    cbn [fst snd] in IH. destruct IH as (Hpw & Hbatch & Hlen & Hst).
    cbn [Bulk.insert_call Table.insert fst snd].
    cbn [Table.pendingWrites Table.batchSize Table.set_pendingWrites
         Table.set_pendingDeletes Table.set_deletedIds Table.set_indexManager
         Table.set_cache].
    rewrite Hpw, Hbatch, !length_app, Hlen. cbn [length].
    split; [rewrite <- app_assoc; reflexivity|]. split; [reflexivity|].
    split; [reflexivity|].
    rewrite Nat.add_1_r, List.seq_S, List.filter_app, List.map_app. f_equal.
    + rewrite Hst. apply List.map_ext_in. intros k Hk.
      apply List.filter_In in Hk as [Hk _]. apply List.in_seq in Hk.
      rewrite take_app_le by lia. reflexivity.
    + unfold Bulk.started_flush, Table.insert_starts_flush.
      cbn [Table.pendingWrites Table.batchSize Table.set_pendingWrites
           Table.set_pendingDeletes Table.set_deletedIds Table.set_indexManager
           Table.set_cache List.filter List.map].
      rewrite ?Hpw, ?Hbatch, ?length_app, ?Hlen. cbn [length].
      replace (length (Table.pendingWrites x) + (1 + length records))%nat
        with (length (Table.pendingWrites x) + (length records + 1))%nat by lia.
      rewrite <- ?Nat.add_assoc.
      destruct (Table.batchSize x <=? _)%nat; [|reflexivity].
      cbn [List.map].
      rewrite take_ge by (rewrite length_app; cbn [length]; lia).
      rewrite <- app_assoc.
      destruct (Table.pendingWrites x ++ ins ++ [Table.fullRecord now fresh r]) eqn:Hnil;
        [|reflexivity].
      apply (f_equal length) in Hnil. rewrite !length_app in Hnil. cbn [length] in Hnil. lia.
Qed.

(** X6.  [insertMany(records)] returns the records and leaves the table
    that [insert], called for the records in a row with the same clock
    reading, returns and leaves.  The two differ in the flushes they
    start without awaiting them: [insertMany] starts at most one, after
    the loop, of the whole buffer; the calls of [insert] start one at
    every call that finds the buffer at [batchSize] or above, each of the
    whole buffer at that point, so that such flushes hand the same records
    to [fs.appendFile] again. *)
Theorem insertMany_as_inserts (now : Z) (records : list (Z * record)) (x : Table.t) :
  (Bulk.insertMany_call now records x).1 = (Bulk.insertMany now records x)
  /\ (Bulk.inserts now records x).1 = Bulk.insertMany now records x
  /\ (Bulk.insertMany_call now records x).2
     = Bulk.started_flush (Bulk.insertMany now records x).2
  /\ (length (Bulk.insertMany_call now records x).2 <= 1)%nat
  /\ (Bulk.inserts now records x).2
     = List.map (fun k => Table.pendingWrites x ++ take k (Bulk.insertMany now records x).1)
         (List.filter
            (fun k => (Table.batchSize x <=? length (Table.pendingWrites x) + k)%nat)
            (List.seq 1 (length records))).
Proof.
  assert (Hsame : (Bulk.inserts now records x).1 = Bulk.insertMany now records x).
  { unfold Bulk.inserts. rewrite inserts_fold_insert, insertMany_fold_insert.
    reflexivity. }
  unfold Bulk.insertMany_call.
  destruct (Bulk.insertMany now records x) as [inserted x'] eqn:Hmany. cbn [fst snd].
  split; [reflexivity|]. split; [exact Hsame|]. split; [reflexivity|]. split.
  - unfold Bulk.started_flush. destruct (Table.insert_starts_flush x'); [|cbn; lia].
    destruct (Table.pendingWrites x'); cbn; lia.
  - destruct (inserts_started now records x) as (_ & _ & _ & Hst).
    rewrite Hst, Hsame. reflexivity.
Qed.

(** Two records on an empty table whose batch is full at one: the two
    calls of [insert] start two flushes, the second with the first record
    again; [insertMany] starts one. *)
Example inserts_start_overlapping_flushes :
  (Bulk.inserts 9 FlushScenario.records FlushScenario.table).2
  = [[FlushScenario.first]; [FlushScenario.first; FlushScenario.second]]
  /\ (Bulk.insertMany_call 9 FlushScenario.records FlushScenario.table).2
     = [[FlushScenario.first; FlushScenario.second]].
Proof. compute_done. Qed.

Lemma JsSet_has_add_other {K} `{EqDecision K} (k k' : K) (s : list K) :
  JsSet.has k s = true -> JsSet.has k (JsSet.add k' s) = true.
Proof.
  intros Hhas. unfold JsSet.add. destruct (JsSet.has k' s); [exact Hhas|].
  rewrite JsSet_has_app, Hhas. reflexivity.
Qed.

Lemma deleteOne_fold_marks (r : record) (records : list record) :
  forall x : Table.t,
    r ∈ records \/ JsSet.has (_id r) (Table.pendingDeletes x) = true ->
    JsSet.has (_id r) (Table.pendingDeletes (foldl Bulk.deleteOne x records)) = true.
Proof.
  induction records as [|r0 records IH]; intros x H; cbn [foldl].
  - destruct H as [H|H]; [|exact H]. apply not_elem_of_nil in H. contradiction.
  - apply IH. destruct H as [H|H].
    + apply elem_of_cons in H as [->|H]; [right|left; exact H].
      unfold Bulk.deleteOne. cbn [Table.pendingDeletes Table.set_pendingDeletes].
      apply JsSet_has_add.
    + right. unfold Bulk.deleteOne. cbn [Table.pendingDeletes Table.set_pendingDeletes].
      apply JsSet_has_add_other. exact H.
Qed.

(** X7.  [deleteMany(condition)] returns the records that the query
    [find(condition)] returns, and afterwards [get] returns [null] for the
    id of each of them. *)
Theorem deleteMany_then_get (c : Query.condition) (x : Table.t) :
  (Bulk.deleteMany c x).1 = (Query.execute x (find x c)).1
  /\ (forall r : record,
        r ∈ (Bulk.deleteMany c x).1 ->
        (Table.get (_id r) (Bulk.deleteMany c x).2).1 = None).
Proof.
  unfold Bulk.deleteMany.
  destruct (Query.execute x (find x c)) as [records x1]. cbn [fst snd].
  split; [reflexivity|]. intros r Hin.
  apply get_deleted.
  assert (Hmark : JsSet.has (_id r)
                    (Table.pendingDeletes (foldl Bulk.deleteOne x1 records)) = true).
  { apply deleteOne_fold_marks. left. exact Hin. }
  destruct (0 <? length records)%nat; [rewrite is_deleted_queueSave|];
    unfold Table.is_deleted; rewrite Hmark; apply orb_true_r.
Qed.

(** ** Index kinds under maintenance *)

Lemma JsMap_get_updateIndex (id : value) (o n : option record) (f : string)
    (l : list (string * IndexManager.index)) :
  JsMap.get f (List.map (IndexManager.updateIndex id o n) l)
  = match JsMap.get f l with
    | Some ix => Some (IndexManager.updateIndex id o n (f, ix)).2
    | None => None
    end.
Proof.
  induction l as [|[g ix] l IH]; [reflexivity|].
  cbn [List.map JsMap.get].
  assert (Hkey : (IndexManager.updateIndex id o n (g, ix)).1 = g).
  { unfold IndexManager.updateIndex. destruct ix as [m|values map]; [reflexivity|].
    destruct (IndexManager.updateSortedIndex g values map id o n). reflexivity. }
  destruct (IndexManager.updateIndex id o n (g, ix)) as [g' ix'] eqn:Hupd.
  cbn [fst] in Hkey. subst g'. cbn [JsMap.get].
  destruct (decide (f = g)) as [->|Hne]; [|exact IH].
  rewrite Hupd. reflexivity.
Qed.

Lemma updateIndices_kinds (id : value) (o n : option record)
    (im : IndexManager.t) (f : string) :
  IndexManager.getIndexType (IndexManager.updateIndices id o n im) f
  = IndexManager.getIndexType im f
  /\ IndexManager.hasIndex (IndexManager.updateIndices id o n im) f
     = IndexManager.hasIndex im f.
Proof.
  unfold IndexManager.getIndexType, IndexManager.hasIndex, JsMap.has,
    IndexManager.updateIndices.
  cbn [IndexManager.indices]. rewrite JsMap_get_updateIndex.
  destruct (JsMap.get f (IndexManager.indices im)) as [[m|values map]|];
    [split; reflexivity| |split; reflexivity].
  unfold IndexManager.updateIndex.
  destruct (IndexManager.updateSortedIndex f values map id o n). split; reflexivity.
Qed.

(** X8.  [updateIndices] and [removeFromIndices], and so every insert,
    update and delete of the table, leave the set of indexed fields and
    the kind of every index (hash or sorted) as it was. *)
Theorem updateIndices_keeps_kinds (id : value) (o n : option record) (r : record)
    (im : IndexManager.t) (f : string) :
  IndexManager.getIndexType (IndexManager.updateIndices id o n im) f
  = IndexManager.getIndexType im f
  /\ IndexManager.hasIndex (IndexManager.updateIndices id o n im) f
     = IndexManager.hasIndex im f
  /\ IndexManager.getIndexType (IndexManager.removeFromIndices id r im) f
     = IndexManager.getIndexType im f
  /\ IndexManager.hasIndex (IndexManager.removeFromIndices id r im) f
     = IndexManager.hasIndex im f.
Proof.
  destruct (updateIndices_kinds id o n im f) as [Ht Hh].
  destruct (updateIndices_kinds id (Some r) None im f) as [Ht' Hh'].
  repeat split; assumption.
Qed.

(** ** Loading *)

Lemma loadLine_set_file (v : option (list Table.line)) (x : Table.t) (l : Table.line) :
  Loading.loadLine (Table.set_file v x) l = Table.set_file v (Loading.loadLine x l).
Proof.
  destruct l as [| |r]; try reflexivity.
  unfold Loading.loadLine. cbn [Table.deletedIds Table.set_file].
  destruct (JsSet.has (_id r) (Table.deletedIds x)); reflexivity.
Qed.

Lemma foldl_loadLine_set_file (v : option (list Table.line)) (ls : list Table.line) :
  forall x : Table.t,
    foldl Loading.loadLine (Table.set_file v x) ls
    = Table.set_file v (foldl Loading.loadLine x ls).
Proof.
  induction ls as [|l ls IH]; intros x; [reflexivity|].
  cbn [foldl]. rewrite loadLine_set_file. apply IH.
Qed.

Lemma foldl_loadLine_rows (ls : list Table.line) :
  forall x : Table.t,
    foldl Loading.loadLine x ls
    = foldl Loading.loadLine x (List.map Table.Row (Compaction.rows ls)).
Proof.
  induction ls as [|l ls IH]; intros x; [reflexivity|].
  destruct l as [| |r]; cbn [foldl Compaction.rows omap list_omap List.map]; apply IH.
Qed.

Lemma rows_of_rows (ls : list Table.line) :
  Compaction.rows (List.map Table.Row (Compaction.rows ls)) = Compaction.rows ls.
Proof.
  induction ls as [|l ls IH]; [reflexivity|].
  destruct l as [| |r]; cbn [Compaction.rows omap list_omap List.map]; [exact IH..|].
  f_equal. exact IH.
Qed.

Lemma loadMetadata_set_file (v : option (list Table.line)) (x : Table.t) :
  Loading.loadMetadata (Table.set_file v x) = Table.set_file v (Loading.loadMetadata x).
Proof.
  unfold Loading.loadMetadata. cbn [Table.metaFile Table.set_file].
  destruct (Table.metaFile x); reflexivity.
Qed.

Lemma set_file_set_file (v w : option (list Table.line)) (x : Table.t) :
  Table.set_file v (Table.set_file w x) = Table.set_file v x.
Proof. reflexivity. Qed.

Lemma buildIndices_fold_rows (deleted : list value) (ls : list Table.line) :
  forall im : IndexManager.t,
    foldl (fun im l =>
             match l with
             | Table.Row r =>
                 if JsSet.has (_id r) deleted then im
                 else IndexManager.updateIndices (_id r) None (Some r) im
             | _ => im
             end) im ls
    = foldl (fun im l =>
               match l with
               | Table.Row r =>
                   if JsSet.has (_id r) deleted then im
                   else IndexManager.updateIndices (_id r) None (Some r) im
               | _ => im
               end) im (List.map Table.Row (Compaction.rows ls)).
Proof.
  induction ls as [|l ls IH]; intros im; [reflexivity|].
  destruct l as [| |r]; cbn [foldl Compaction.rows omap list_omap List.map]; apply IH.
Qed.

(** X9.  [load] passes over the blank and the malformed lines of the log:
    it builds the table it builds from the log without them; and a log
    that does not exist loads like an empty one. *)
Theorem load_skips_bad_lines (lines : list Table.line) (x : Table.t) :
  Loading.load (Table.set_file (Some lines) x)
  = Table.set_file (Some lines)
      (Loading.load (Table.set_file (Some (List.map Table.Row (Compaction.rows lines))) x))
  /\ Loading.load (Table.set_file None x)
     = Table.set_file None (Loading.load (Table.set_file (Some []) x)).
Proof.
  split.
  - unfold Loading.load. rewrite !loadMetadata_set_file.
    cbn [Table.meta Table.cache Table.set_file].
    destruct (_ <=? _)%nat.
    + unfold Loading.loadAllRecords. cbn [Table.file Table.set_file default].
      rewrite !foldl_loadLine_set_file, set_file_set_file.
      rewrite (foldl_loadLine_rows lines). reflexivity.
    + unfold Table.buildIndicesFromFile.
      cbn [Table.file Table.set_file default Table.indexManager Table.deletedIds].
      rewrite (buildIndices_fold_rows _ lines). reflexivity.
  - unfold Loading.load. rewrite !loadMetadata_set_file.
    cbn [Table.meta Table.cache Table.set_file].
    destruct (_ <=? _)%nat; reflexivity.
Qed.

Lemma getIndexType_createIndex_empty (f g : string) (im : IndexManager.t) :
  IndexManager.getIndexType (IndexManager.createIndex f [] im) g
  = if decide (g = f) then Some IndexManager.THash else IndexManager.getIndexType im g.
Proof.
  unfold IndexManager.getIndexType, IndexManager.createIndex.
  cbn [IndexManager.isNumericOrDateField JsMap.size length Nat.eqb IndexManager.indices
       IndexManager.collect_hash].
  rewrite JsMap_get_set. destruct (decide (g = f)); reflexivity.
Qed.

Lemma getIndexType_createIndex_fold (f : string) (fields : list string) :
  forall im : IndexManager.t,
    f ∈ fields \/ IndexManager.getIndexType im f = Some IndexManager.THash ->
    IndexManager.getIndexType
      (foldl (fun im g => IndexManager.createIndex g [] im) im fields) f
    = Some IndexManager.THash.
Proof.
  induction fields as [|g fields IH]; intros im H; cbn [foldl].
  - destruct H as [H|H]; [|exact H]. apply not_elem_of_nil in H. contradiction.
  - apply IH. rewrite getIndexType_createIndex_empty.
    destruct (decide (f = g)) as [Heq|Hne]; [right; reflexivity|].
    destruct H as [H|H]; [left|right; exact H].
    apply elem_of_cons in H as [H|H]; [congruence | exact H].
Qed.

Lemma getIndexType_loadLines (f : string) (ls : list Table.line) :
  forall x : Table.t,
    IndexManager.getIndexType (Table.indexManager (foldl Loading.loadLine x ls)) f
    = IndexManager.getIndexType (Table.indexManager x) f.
Proof.
  induction ls as [|l ls IH]; intros x; [reflexivity|].
  cbn [foldl]. rewrite IH. destruct l as [| |r]; try reflexivity.
  unfold Loading.loadLine. destruct (JsSet.has _ _); [reflexivity|].
  cbn [Table.indexManager Table.set_indexManager Table.set_data].
  apply updateIndices_kinds.
Qed.

Lemma getIndexType_buildIndices (f : string) (x : Table.t) :
  IndexManager.getIndexType (Table.indexManager (Table.buildIndicesFromFile x)) f
  = IndexManager.getIndexType (Table.indexManager x) f.
Proof.
  unfold Table.buildIndicesFromFile. cbn [Table.indexManager Table.set_indexManager].
  generalize (Table.indexManager x).
  induction (default [] (Table.file x)) as [|l ls IH]; intros im; [reflexivity|].
  cbn [foldl]. rewrite IH. destruct l as [| |r]; try reflexivity.
  destruct (JsSet.has _ _); [reflexivity|]. apply updateIndices_kinds.
Qed.

(** X10.  After [load], the index of every field listed in the metadata
    file is a hash index, whatever its kind was when the table was saved:
    [loadMetadata] creates it over an empty map, and filling it from the
    log does not change its kind. *)
Theorem load_builds_hash_indices (x : Table.t) (m : Table.metadata) (f : string) :
  Table.metaFile x = Some m ->
  f ∈ Table.m_indices m ->
  IndexManager.getIndexType (Table.indexManager (Loading.load x)) f
  = Some IndexManager.THash.
Proof.
  intros Hmeta Hin. unfold Loading.load.
  assert (Hhash : IndexManager.getIndexType
                    (Table.indexManager (Loading.loadMetadata x)) f
                  = Some IndexManager.THash).
  { unfold Loading.loadMetadata. rewrite Hmeta.
    cbn [Table.indexManager Table.set_indexManager].
    apply getIndexType_createIndex_fold. left. exact Hin. }
  destruct (_ <=? _)%nat.
  - unfold Loading.loadAllRecords. rewrite getIndexType_loadLines. exact Hhash.
  - rewrite getIndexType_buildIndices. exact Hhash.
Qed.

(** X10 on the stored table, whose [age] values are all numbers, loaded
    into memory and not. *)
Lemma load_builds_hash_indices_witness :
  IndexManager.getIndexType (Table.indexManager (Loading.load ReloadScenario.stored)) "age"
  = Some IndexManager.THash
  /\ IndexManager.getIndexType (Table.indexManager (Loading.load ReloadScenario.large)) "age"
     = Some IndexManager.THash.
Proof.
  split.
  - apply (load_builds_hash_indices ReloadScenario.stored
             (Table.Metadata 1 ["age"%string] 2 (Some 7)) "age" eq_refl).
    apply list_elem_of_here.
  - apply (load_builds_hash_indices ReloadScenario.large
             (Table.Metadata 1 ["age"%string] 2 (Some 7)) "age" eq_refl).
    apply list_elem_of_here.
Defined.

Lemma deletedIds_loadLines (ls : list Table.line) :
  forall x : Table.t,
    Table.deletedIds (foldl Loading.loadLine x ls) = Table.deletedIds x.
Proof.
  induction ls as [|l ls IH]; intros x; [reflexivity|].
  cbn [foldl]. rewrite IH. destruct l as [| |r]; try reflexivity.
  unfold Loading.loadLine. destruct (JsSet.has _ _); reflexivity.
Qed.

Lemma data_loadLines_other (k : value) (ls : list Table.line) :
  (forall r : record, r ∈ Compaction.rows ls -> _id r <> k) ->
  forall x : Table.t,
    JsMap.get k (Table.data (foldl Loading.loadLine x ls)) = JsMap.get k (Table.data x).
Proof.
  induction ls as [|l ls IH]; intros Hother x; [reflexivity|].
  cbn [foldl]. destruct l as [| |r]; cbn [Compaction.rows omap list_omap] in Hother.
  - apply IH. exact Hother.
  - apply IH. exact Hother.
  - rewrite IH by (intros r' Hr'; apply Hother; right; exact Hr').
    unfold Loading.loadLine. destruct (JsSet.has _ _); [reflexivity|].
    cbn [Table.data Table.set_indexManager Table.set_data].
    rewrite JsMap_get_set. destruct (decide (k = _id r)) as [Heq|Hne]; [|reflexivity].
    exfalso. apply (Hother r); [left | congruence].
Qed.

(** X11.  After [loadAllRecords], the resident record of an id is the
    last line of that id on the log (compaction, for its part, keeps the
    first). *)
Theorem loadAllRecords_keeps_last_line (x : Table.t) (before after : list Table.line)
    (r : record) :
  Table.file x = Some (before ++ Table.Row r :: after) ->
  (forall r' : record, r' ∈ Compaction.rows after -> _id r' <> _id r) ->
  JsSet.has (_id r) (Table.deletedIds x) = false ->
  JsMap.get (_id r) (Table.data (Loading.loadAllRecords x)) = Some r.
Proof.
  intros Hfile Hlast Hdel. unfold Loading.loadAllRecords. rewrite Hfile.
  cbn [from_option id]. rewrite foldl_app. cbn [foldl].
  rewrite (data_loadLines_other (_id r) after Hlast).
  unfold Loading.loadLine. rewrite deletedIds_loadLines, Hdel.
  cbn [Table.data Table.set_indexManager Table.set_data].
  rewrite JsMap_get_set. destruct (decide (_id r = _id r)); [reflexivity | congruence].
Qed.

(** X11 on the stored log: id 1 is on the first and on the last line. *)
Lemma loadAllRecords_keeps_last_line_witness :
  JsMap.get (Some 1) (Table.data (Loading.loadAllRecords ReloadScenario.stored))
  = Some ReloadScenario.newer.
Proof.
  apply (loadAllRecords_keeps_last_line ReloadScenario.stored
           [Table.Row ReloadScenario.older; Table.Blank; Table.Row ReloadScenario.other]
           [] ReloadScenario.newer eq_refl).
  - intros r' Hr'. apply not_elem_of_nil in Hr'. contradiction.
  - reflexivity.
Defined.

Lemma scan_file_first (id : value) (before after : list Table.line) (r : record) :
  _id r = id ->
  (forall r' : record, r' ∈ Compaction.rows before -> _id r' <> id) ->
  Table.scan_file id (before ++ Table.Row r :: after) = Some r.
Proof.
  intros Hid. induction before as [|l before IH]; intros Hfirst; cbn [app Table.scan_file].
  - unfold Js.seq. rewrite bool_decide_eq_true_2 by exact Hid. reflexivity.
  - destruct l as [| |r0]; cbn [Compaction.rows omap list_omap] in Hfirst.
    + apply IH. exact Hfirst.
    + apply IH. exact Hfirst.
    + unfold Js.seq. rewrite bool_decide_eq_false_2 by (apply Hfirst; left).
      apply IH. intros r' Hr'. apply Hfirst. right. exact Hr'.
Qed.

(** X12.  For an id that is not deleted, has no pending update and is
    neither cached nor resident, [get] returns the first line of that id
    on the log and puts it in the cache. *)
Theorem get_reads_first_line (x : Table.t) (before after : list Table.line)
    (r : record) :
  Table.file x = Some (before ++ Table.Row r :: after) ->
  (forall r' : record, r' ∈ Compaction.rows before -> _id r' <> _id r) ->
  Table.is_deleted (_id r) x = false ->
  JsMap.get (_id r) (Table.pendingUpdates x) = None ->
  SimpleCache.has (_id r) (Table.cache x) = false ->
  JsMap.get (_id r) (Table.data x) = None ->
  (Table.get (_id r) x).1 = Some r
  /\ SimpleCache.has (_id r) (Table.cache (Table.get (_id r) x).2) = true.
Proof.
  intros Hfile Hfirst Hdel Hupd Hcache Hdata.
  pose proof Hdel as Hdel'. unfold Table.is_deleted in Hdel'.
  apply orb_false_iff in Hdel' as [Hdi _].
  unfold Table.get, Table.loadRecordById.
  rewrite Hdel, Hupd, Hcache, Hdata, Hfile. cbn [from_option id].
  rewrite (scan_file_first (_id r) before after r eq_refl Hfirst), Hdi.
  cbn [fst snd Table.cache Table.set_cache].
  split; [reflexivity|]. apply SimpleCache_get_set.
Qed.

(** X12 on the stored log before any load: the first line of id 1. *)
Lemma get_reads_first_line_witness :
  (Table.get (Some 1) ReloadScenario.stored).1 = Some ReloadScenario.older.
Proof.
  apply (get_reads_first_line ReloadScenario.stored []
           [Table.Blank; Table.Row ReloadScenario.other; Table.Row ReloadScenario.newer]
           ReloadScenario.older eq_refl).
  - intros r' Hr'. apply not_elem_of_nil in Hr'. contradiction.
  - reflexivity.
  - reflexivity.
  - reflexivity.
  - reflexivity.
Defined.

(** ** The sorted index *)

Lemma binarySearch_loop_sound (arr : list IndexManager.item) (v : Z) (id : value) :
  forall (fuel : nat) (left right i : Z),
    0 <= left ->
    IndexManager.binarySearch_loop fuel arr v id left right = Some i ->
    i = -1 \/ (0 <= i /\ arr !! Z.to_nat i = Some (IndexManager.Item v id)).
Proof.
  induction fuel as [|fuel IH]; intros left right i Hl Hres; [discriminate|].
  cbn [IndexManager.binarySearch_loop] in Hres.
  destruct (Z.leb_spec left right) as [Hle|Hgt]; [|injection Hres as <-; left; reflexivity].
  assert (Hmid : left <= (left + right) / 2).
  { pose proof (Z.div_mod (left + right) 2 ltac:(lia)).
    pose proof (Z.mod_pos_bound (left + right) 2 ltac:(lia)). lia. }
  destruct (arr !! Z.to_nat ((left + right) / 2)) as [[iv ii]|] eqn:Hit; [|discriminate].
  cbn [IndexManager.ivalue IndexManager.iid] in Hres.
  destruct ((iv =? v) && Js.seq ii id) eqn:Hhit.
  - injection Hres as <-. right. split; [lia|].
    apply andb_true_iff in Hhit as [Hv Hi].
    apply Z.eqb_eq in Hv. unfold Js.seq in Hi. apply bool_decide_eq_true in Hi.
    subst. exact Hit.
  - destruct (_ || _); apply IH in Hres; try lia; exact Hres.
Qed.

(** What [binarySearch] returns is -1 or the position of the element
    [{ value, id }] it was asked for. *)
Lemma binarySearch_sound (arr : list IndexManager.item) (v : Z) (id : value) :
  0 <= IndexManager.binarySearch arr v id ->
  arr !! Z.to_nat (IndexManager.binarySearch arr v id) = Some (IndexManager.Item v id).
Proof.
  unfold IndexManager.binarySearch.
  destruct (IndexManager.binarySearch_loop _ arr v id 0 _) as [i|] eqn:Hres;
    cbn [from_option Datatypes.id]; [|lia].
  intros Hpos.
  destruct (binarySearch_loop_sound arr v id _ _ _ _ (Z.le_refl 0) Hres) as [->|[_ Hit]];
    [lia | exact Hit].
Qed.

Lemma elem_of_splice_out {A} (i : nat) (l : list A) (a b : A) :
  l !! i = Some b -> a ∈ l -> a <> b -> a ∈ Js.splice_out i l.
Proof.
  intros Hi Hin Hne. unfold Js.splice_out.
  rewrite <- (take_drop_middle l i b Hi) in Hin.
  rewrite elem_of_app, elem_of_cons in Hin. rewrite elem_of_app.
  destruct Hin as [Hin|[Heq|Hin]]; [left; exact Hin | contradiction | right; exact Hin].
Qed.

Lemma elem_of_splice_in {A} (i : nat) (x : A) (l : list A) (a : A) :
  a ∈ Js.splice_in i x l <-> a = x \/ a ∈ l.
Proof.
  assert (Hl : a ∈ l <-> a ∈ take i l \/ a ∈ drop i l).
  { rewrite <- elem_of_app, take_drop. reflexivity. }
  unfold Js.splice_in. rewrite Hl, elem_of_app, elem_of_cons. tauto.
Qed.

(** X13.  [updateSortedIndex] for one id never takes the element of
    another id out of the index: [binarySearch] returns only the position
    of the element of that id. *)
Theorem updateSortedIndex_keeps_other_ids (f : string) (values : list IndexManager.item)
    (map : list (value * Z)) (id : value) (o n : option record) (it : IndexManager.item) :
  it ∈ values ->
  IndexManager.iid it <> id ->
  it ∈ (IndexManager.updateSortedIndex f values map id o n).1.
Proof.
  intros Hin Hne. unfold IndexManager.updateSortedIndex.
  set (first := if bool_decide (is_Some o) || JsMap.has id map then _ else _).
  assert (Hfirst : it ∈ first.1).
  { subst first. destruct (_ || _); [|exact Hin].
    destruct (match o with Some o0 => _ | None => _ end) as [ov|]; [|exact Hin].
    cbn [fst]. destruct (Z.leb_spec 0 (IndexManager.binarySearch values ov id)) as [Hpos|Hneg];
      [|exact Hin].
    apply (elem_of_splice_out _ _ _ _ (binarySearch_sound values ov id Hpos) Hin).
    intros ->. apply Hne. reflexivity. }
  destruct first as [values1 map1]. cbn [fst] in Hfirst.
  destruct n as [nr|]; [|exact Hfirst].
  destruct (IndexManager.getFieldValue nr f); [|exact Hfirst].
  cbn [fst]. apply elem_of_splice_in. right. exact Hfirst.
Qed.

(** X13 on the index of the scenario: the element of id 2 stays when id 1
    is removed. *)
Lemma updateSortedIndex_keeps_other_ids_witness :
  IndexManager.Item 5 (Some 2)
  ∈ (IndexManager.updateSortedIndex "age"
       [IndexManager.Item 1 (Some 3); IndexManager.Item 5 (Some 1);
        IndexManager.Item 5 (Some 2)]
       [] (Some 1) (Some (obj [("age"%string, 5)])) None).1.
Proof.
  apply updateSortedIndex_keeps_other_ids.
  - compute_done.
  - discriminate.
Defined.

Lemma value_sorted_lookup (l : list IndexManager.item) :
  value_sorted l ->
  forall (i j : nat) (a b : IndexManager.item),
    (i <= j)%nat -> l !! i = Some a -> l !! j = Some b ->
    IndexManager.ivalue a <= IndexManager.ivalue b.
Proof.
  unfold value_sorted. induction l as [|x l IH]; intros Hs i j a b Hij Ha Hb.
  - discriminate.
  - apply StronglySorted_cons in Hs as [Hall Hs].
    destruct i as [|i], j as [|j]; cbn in Ha, Hb.
    + injection Ha as <-. injection Hb as <-. lia.
    + injection Ha as <-. rewrite Forall_lookup in Hall. exact (Hall j b Hb).
    + lia.
    + apply (IH Hs i j a b); [lia | exact Ha | exact Hb].
Qed.

Lemma value_sorted_splice_out (i : nat) (l : list IndexManager.item) :
  value_sorted l -> value_sorted (Js.splice_out i l).
Proof.
  unfold value_sorted, Js.splice_out. intros Hs.
  rewrite <- (take_drop i l) in Hs.
  apply StronglySorted_app in Hs as (Hcross & Htake & Hdrop).
  assert (Hone : drop (S i) l = drop 1 (drop i l)).
  { rewrite drop_drop. f_equal. lia. }
  rewrite Hone.
  apply StronglySorted_app. split; [|split; [exact Htake|]].
  - intros x1 x2 H1 H2. apply Hcross; [exact H1|].
    destruct (drop i l) as [|b rest]; [exact H2 | right; exact H2].
  - destruct (drop i l) as [|b rest]; [exact Hdrop|].
    apply StronglySorted_cons in Hdrop as [_ Hrest]. exact Hrest.
Qed.

Lemma findInsertPosition_loop_spec (l : list IndexManager.item) (v : Z) :
  value_sorted l ->
  forall (fuel : nat) (left right p : Z),
    0 <= left -> left <= right ->
    (forall (i : nat) (a : IndexManager.item),
        Z.of_nat i < left -> l !! i = Some a -> IndexManager.ivalue a <= v) ->
    (forall (i : nat) (b : IndexManager.item),
        right <= Z.of_nat i -> l !! i = Some b -> v < IndexManager.ivalue b) ->
    IndexManager.findInsertPosition_loop fuel l v left right = Some p ->
    0 <= p
    /\ (forall (i : nat) (a : IndexManager.item),
          Z.of_nat i < p -> l !! i = Some a -> IndexManager.ivalue a <= v)
    /\ (forall (i : nat) (b : IndexManager.item),
          p <= Z.of_nat i -> l !! i = Some b -> v < IndexManager.ivalue b).
Proof.
  intros Hs. induction fuel as [|fuel IH]; intros left right p Hl Hlr Hlow Hhigh Hres;
    [discriminate|].
  cbn [IndexManager.findInsertPosition_loop] in Hres.
  destruct (Z.ltb_spec left right) as [Hlt|Hge].
  - assert (Hmid : left <= (left + right) / 2 < right).
    { pose proof (Z.div_mod (left + right) 2 ltac:(lia)).
      pose proof (Z.mod_pos_bound (left + right) 2 ltac:(lia)). lia. }
    set (mid := (left + right) / 2) in *.
    destruct (l !! Z.to_nat mid) as [it|] eqn:Hit; [|discriminate].
    destruct (Z.leb_spec (IndexManager.ivalue it) v) as [Hle|Hgt].
    + apply (IH (mid + 1) right p); try lia; [|exact Hhigh|exact Hres].
      intros i a Hi Ha.
      pose proof (value_sorted_lookup l Hs i (Z.to_nat mid) a it ltac:(lia) Ha Hit). lia.
    + apply (IH left mid p); try lia; [exact Hlow| |exact Hres].
      intros i b Hi Hb.
      pose proof (value_sorted_lookup l Hs (Z.to_nat mid) i it b ltac:(lia) Hit Hb). lia.
  - injection Hres as <-. split; [lia|]. split; [exact Hlow|].
    intros i b Hi Hb. apply (Hhigh i b); [lia | exact Hb].
Qed.

(** In an index in ascending order, [findInsertPosition] returns the
    position after the last element that is not larger than the value. *)
Lemma findInsertPosition_spec (l : list IndexManager.item) (v : Z) :
  value_sorted l ->
  Forall (fun a => IndexManager.ivalue a <= v)
    (take (Z.to_nat (IndexManager.findInsertPosition l v)) l)
  /\ Forall (fun b => v < IndexManager.ivalue b)
       (drop (Z.to_nat (IndexManager.findInsertPosition l v)) l).
Proof.
  intros Hs. unfold IndexManager.findInsertPosition.
  destruct (findInsertPosition_total l v) as [p Hp]. rewrite Hp.
  cbn [from_option Datatypes.id].
  destruct (findInsertPosition_loop_spec l v Hs (S (length l)) 0 (Z.of_nat (length l)) p
              (Z.le_refl 0) (Nat2Z.is_nonneg _)) as (Hpos & Hlow & Hhigh);
    [intros; lia | intros i b Hi Hb; apply lookup_lt_Some in Hb; lia | exact Hp |].
  split; apply Forall_lookup; intros i a Ha.
  - apply lookup_take_Some in Ha as [Ha Hi]. apply (Hlow i a); [lia | exact Ha].
  - rewrite lookup_drop in Ha. apply (Hhigh (Z.to_nat p + i)%nat a); [lia | exact Ha].
Qed.

Lemma value_sorted_splice_in (l : list IndexManager.item) (v : Z) (id : value) :
  value_sorted l ->
  value_sorted
    (Js.splice_in (Z.to_nat (IndexManager.findInsertPosition l v))
       (IndexManager.Item v id) l).
Proof.
  intros Hs. destruct (findInsertPosition_spec l v Hs) as [Hlow Hhigh].
  set (p := Z.to_nat (IndexManager.findInsertPosition l v)) in *.
  unfold value_sorted, Js.splice_in in *.
  rewrite <- (take_drop p l) in Hs.
  apply StronglySorted_app in Hs as (Hcross & Htake & Hdrop).
  rewrite Forall_forall in Hlow, Hhigh.
  apply StronglySorted_app. split; [|split; [exact Htake|]].
  - intros x1 x2 H1 H2. apply elem_of_cons in H2 as [->|H2]; cbn [IndexManager.ivalue].
    + apply Hlow. exact H1.
    + pose proof (Hlow x1 H1). pose proof (Hhigh x2 H2). lia.
  - apply StronglySorted_cons. split; [|exact Hdrop].
    apply Forall_forall. intros b Hb. pose proof (Hhigh b Hb).
    cbn [IndexManager.ivalue]. lia.
Qed.

(** [updateSortedIndex] keeps a sorted index in ascending order of
    value. *)
Lemma updateSortedIndex_keeps_order (f : string) (values : list IndexManager.item)
    (map : list (value * Z)) (id : value) (o n : option record) :
  value_sorted values ->
  value_sorted (IndexManager.updateSortedIndex f values map id o n).1.
Proof.
  intros Hs. unfold IndexManager.updateSortedIndex.
  set (first := if bool_decide (is_Some o) || JsMap.has id map then _ else _).
  assert (Hfirst : value_sorted first.1).
  { subst first. destruct (_ || _); [|exact Hs].
    destruct (match o with Some o0 => _ | None => _ end) as [ov|]; [|exact Hs].
    cbn [fst]. destruct (0 <=? _); [apply value_sorted_splice_out|]; exact Hs. }
  destruct first as [values1 map1]. cbn [fst] in Hfirst.
  destruct n as [nr|]; [|exact Hfirst].
  destruct (IndexManager.getFieldValue nr f); [|exact Hfirst].
  cbn [fst]. apply value_sorted_splice_in. exact Hfirst.
Qed.

(** For instance, an index of three elements that gets a fourth. *)
Lemma updateSortedIndex_keeps_order_example :
  value_sorted
    (IndexManager.updateSortedIndex "age"
       [IndexManager.Item 1 (Some 3); IndexManager.Item 5 (Some 2);
        IndexManager.Item 9 (Some 1)]
       [] (Some 4) None (Some (obj [("age"%string, 5)]))).1.
Proof.
  apply updateSortedIndex_keeps_order. unfold value_sorted.
  repeat (apply SSorted_cons; [|repeat constructor; cbn; lia]). constructor.
Defined.

Lemma elem_of_JsSet_add {K} `{EqDecision K} (k k' : K) (s : list K) :
  k ∈ JsSet.add k' s <-> k = k' \/ k ∈ s.
Proof.
  unfold JsSet.add, JsSet.has. destruct (decide (k' ∈ s)) as [Hin|Hin].
  - rewrite bool_decide_eq_true_2 by exact Hin. split; [tauto|].
    intros [->|H]; [exact Hin | exact H].
  - rewrite bool_decide_eq_false_2 by exact Hin.
    rewrite elem_of_app, elem_of_cons. split.
    + intros [H|[H|H]]; [tauto | tauto |]. apply not_elem_of_nil in H. contradiction.
    + tauto.
Qed.

Lemma findByIndex_scan_spec (values : list IndexManager.item) (n : Z) :
  value_sorted values ->
  forall (results : list value) (id : value),
    id ∈ IndexManager.findByIndex_scan values (Some n) results
    <-> id ∈ results
        \/ exists it : IndexManager.item,
             it ∈ values /\ IndexManager.ivalue it = n /\ IndexManager.iid it = id.
Proof.
  unfold value_sorted. induction values as [|it rest IH]; intros Hs results id.
  - cbn. split; [tauto|]. intros [H|(it & Hin & _)]; [exact H|].
    apply not_elem_of_nil in Hin. contradiction.
  - apply StronglySorted_cons in Hs as [Hall Hs]. rewrite Forall_forall in Hall.
    cbn [IndexManager.findByIndex_scan]. unfold Js.seq, Js.gt, Js.lt.
    destruct (decide (IndexManager.ivalue it = n)) as [Heq|Hne].
    + rewrite bool_decide_eq_true_2 by congruence.
      rewrite (IH Hs), elem_of_JsSet_add. split.
      * intros [[->|H]|(it' & Hin & Hv & Hi)].
        -- right. exists it. split; [left|split; [exact Heq | reflexivity]].
        -- left. exact H.
        -- right. exists it'. split; [right; exact Hin | split; assumption].
      * intros [H|(it' & Hin & Hv & Hi)]; [left; right; exact H|].
        apply elem_of_cons in Hin as [->|Hin]; [left; left; congruence|].
        right. exists it'. split; [exact Hin | split; assumption].
    + rewrite bool_decide_eq_false_2 by congruence.
      destruct (Z.ltb_spec n (IndexManager.ivalue it)) as [Hlt|Hge].
      * split; [tauto|]. intros [H|(it' & Hin & Hv & Hi)]; [exact H|].
        apply elem_of_cons in Hin as [->|Hin]; [contradiction|].
        pose proof (Hall it' Hin). lia.
      * rewrite (IH Hs). split.
        -- intros [H|(it' & Hin & Hv & Hi)]; [left; exact H|].
           right. exists it'. split; [right; exact Hin | split; assumption].
        -- intros [H|(it' & Hin & Hv & Hi)]; [left; exact H|].
           apply elem_of_cons in Hin as [->|Hin]; [contradiction|].
           right. exists it'. split; [exact Hin | split; assumption].
Qed.

(** X15.  On a sorted index in ascending order, [findByIndex(field, v)]
    returns exactly the ids of the elements whose value is [v]: stopping
    at the first larger value loses none. *)
Theorem findByIndex_sorted_exact (im : IndexManager.t) (f : string)
    (values : list IndexManager.item) (map : list (value * Z)) (n : Z) (id : value) :
  JsMap.get f (IndexManager.indices im) = Some (IndexManager.Sorted values map) ->
  value_sorted values ->
  exists ids : list value,
    IndexManager.findByIndex im f (Some n) = Some ids
    /\ (id ∈ ids
        <-> exists it : IndexManager.item,
              it ∈ values /\ IndexManager.ivalue it = n /\ IndexManager.iid it = id).
Proof.
  intros Hget Hs. unfold IndexManager.findByIndex. rewrite Hget.
  eexists. split; [reflexivity|].
  rewrite (findByIndex_scan_spec values n Hs). split; [|tauto].
  intros [H|H]; [|exact H]. apply not_elem_of_nil in H. contradiction.
Qed.

Lemma below_min_spec (min : value) (includeMin : bool) (v : Z) :
  (bool_decide (min <> undefined)
   && (if includeMin then Js.lt (Some v) min else Js.le (Some v) min)) = false
  <-> match min with
      | Some lo => if includeMin then lo <= v else lo < v
      | None => True
      end.
Proof.
  destruct min as [lo|]; cbn [Js.lt Js.le].
  - rewrite bool_decide_eq_true_2 by discriminate. cbn [andb].
    destruct includeMin.
    + rewrite Z.ltb_ge. reflexivity.
    + rewrite Z.leb_gt. reflexivity.
  - rewrite bool_decide_eq_false_2 by (intros H; apply H; reflexivity). tauto.
Qed.

Lemma above_max_spec (max : value) (includeMax : bool) (v : Z) :
  (bool_decide (max <> undefined)
   && (if includeMax then Js.gt (Some v) max else Js.ge (Some v) max)) = false
  <-> match max with
      | Some hi => if includeMax then v <= hi else v < hi
      | None => True
      end.
Proof.
  destruct max as [hi|]; unfold Js.gt, Js.ge; cbn [Js.lt Js.le].
  - rewrite bool_decide_eq_true_2 by discriminate. cbn [andb].
    destruct includeMax.
    + rewrite Z.ltb_ge. reflexivity.
    + rewrite Z.leb_gt. reflexivity.
  - rewrite bool_decide_eq_false_2 by (intros H; apply H; reflexivity). tauto.
Qed.

Lemma above_max_mono (max : value) (includeMax : bool) (v w : Z) :
  v <= w ->
  match max with
  | Some hi => if includeMax then w <= hi else w < hi
  | None => True
  end ->
  match max with
  | Some hi => if includeMax then v <= hi else v < hi
  | None => True
  end.
Proof. destruct max as [hi|], includeMax; cbn; lia. Qed.

Lemma findByRange_scan_spec (values : list IndexManager.item) (min max : value)
    (includeMin includeMax : bool) :
  value_sorted values ->
  forall (results : list value) (id : value),
    id ∈ IndexManager.findByRange_scan values min max includeMin includeMax results
    <-> id ∈ results
        \/ exists it : IndexManager.item,
             it ∈ values /\ IndexManager.iid it = id
             /\ in_range min max includeMin includeMax (IndexManager.ivalue it).
Proof.
  unfold value_sorted. induction values as [|it rest IH]; intros Hs results id.
  - cbn. split; [tauto|]. intros [H|(it & Hin & _)]; [exact H|].
    apply not_elem_of_nil in Hin. contradiction.
  - apply StronglySorted_cons in Hs as [Hall Hs]. rewrite Forall_forall in Hall.
    cbn [IndexManager.findByRange_scan].
    pose proof (below_min_spec min includeMin (IndexManager.ivalue it)) as Hbelow.
    pose proof (above_max_spec max includeMax (IndexManager.ivalue it)) as Habove.
    destruct (bool_decide (min <> undefined) && _) eqn:Hb.
    + rewrite (IH Hs). split.
      * intros [H|(it' & Hin & Hi & Hr)]; [left; exact H|].
        right. exists it'. split; [right; exact Hin | split; assumption].
      * intros [H|(it' & Hin & Hi & Hr)]; [left; exact H|].
        apply elem_of_cons in Hin as [->|Hin].
        -- destruct Hr as [Hlo _]. apply Hbelow in Hlo. discriminate.
        -- right. exists it'. split; [exact Hin | split; assumption].
    + destruct (bool_decide (max <> undefined) && _) eqn:Ha.
      * split; [tauto|]. intros [H|(it' & Hin & Hi & Hr)]; [exact H|].
        exfalso. destruct Hr as [_ Hhi].
        assert (Hle : IndexManager.ivalue it <= IndexManager.ivalue it').
        { apply elem_of_cons in Hin as [->|Hin]; [lia | exact (Hall it' Hin)]. }
        apply (above_max_mono max includeMax _ _ Hle) in Hhi.
        apply Habove in Hhi. discriminate.
      * rewrite (IH Hs), elem_of_JsSet_add. split.
        -- intros [[->|H]|(it' & Hin & Hi & Hr)].
           ++ right. exists it. split; [left|split; [reflexivity|]].
              split; [apply Hbelow | apply Habove]; reflexivity.
           ++ left. exact H.
           ++ right. exists it'. split; [right; exact Hin | split; assumption].
        -- intros [H|(it' & Hin & Hi & Hr)]; [left; right; exact H|].
           apply elem_of_cons in Hin as [->|Hin]; [left; left; congruence|].
           right. exists it'. split; [exact Hin | split; assumption].
Qed.

(** X16.  On a sorted index in ascending order, [findByRange] returns
    exactly the ids of the elements whose value is within the bounds, each
    bound being inclusive or strict by its flag and absent when
    [undefined]. *)
Theorem findByRange_sorted_exact (im : IndexManager.t) (f : string)
    (values : list IndexManager.item) (map : list (value * Z)) (min max : value)
    (includeMin includeMax : bool) (id : value) :
  JsMap.get f (IndexManager.indices im) = Some (IndexManager.Sorted values map) ->
  value_sorted values ->
  exists ids : list value,
    IndexManager.findByRange im f min max includeMin includeMax = Some ids
    /\ (id ∈ ids
        <-> exists it : IndexManager.item,
              it ∈ values /\ IndexManager.iid it = id
              /\ in_range min max includeMin includeMax (IndexManager.ivalue it)).
Proof.
  intros Hget Hs. unfold IndexManager.findByRange. rewrite Hget.
  eexists. split; [reflexivity|].
  rewrite (findByRange_scan_spec values min max includeMin includeMax Hs).
  split; [|tauto].
  intros [H|H]; [|exact H]. apply not_elem_of_nil in H. contradiction.
Qed.

Lemma IndexScenario_sorted : value_sorted IndexScenario.values.
Proof.
  unfold value_sorted, IndexScenario.values.
  repeat (apply SSorted_cons; [|repeat constructor; cbn; lia]). constructor.
Qed.

(** X15 on the index of three elements: id 2 is found under 5. *)
Lemma findByIndex_sorted_exact_witness :
  exists ids : list value,
    IndexManager.findByIndex IndexScenario.manager "age" (Some 5) = Some ids
    /\ (Some 2 ∈ ids
        <-> exists it : IndexManager.item,
              it ∈ IndexScenario.values /\ IndexManager.ivalue it = 5
              /\ IndexManager.iid it = Some 2).
Proof.
  exact (findByIndex_sorted_exact IndexScenario.manager "age" IndexScenario.values
           [(Some 3, 1); (Some 2, 5); (Some 1, 5)] 5 (Some 2) eq_refl IndexScenario_sorted).
Defined.

(** X16 on the same index, for the values above 1 up to 5. *)
Lemma findByRange_sorted_exact_witness :
  exists ids : list value,
    IndexManager.findByRange IndexScenario.manager "age" (Some 1) (Some 5) false true
    = Some ids
    /\ (Some 3 ∈ ids
        <-> exists it : IndexManager.item,
              it ∈ IndexScenario.values /\ IndexManager.iid it = Some 3
              /\ in_range (Some 1) (Some 5) false true (IndexManager.ivalue it)).
Proof.
  exact (findByRange_sorted_exact IndexScenario.manager "age" IndexScenario.values
           [(Some 3, 1); (Some 2, 5); (Some 1, 5)] (Some 1) (Some 5) false true (Some 3)
           eq_refl IndexScenario_sorted).
Defined.

(** ** Creating an index *)

Lemma elem_of_sort_insert {A} (cmp : A -> A -> Z) (x a : A) (l : list A) :
  a ∈ Js.sort_insert cmp x l <-> a = x \/ a ∈ l.
Proof.
  induction l as [|y l IH]; cbn [Js.sort_insert].
  - rewrite elem_of_cons. reflexivity.
  - destruct (0 <? cmp x y).
    + rewrite !elem_of_cons, IH. tauto.
    + rewrite !elem_of_cons. tauto.
Qed.

Lemma sort_insert_Permutation {A} (cmp : A -> A -> Z) (x : A) (l : list A) :
  Js.sort_insert cmp x l ≡ₚ x :: l.
Proof.
  induction l as [|y l IH]; cbn [Js.sort_insert]; [reflexivity|].
  destruct (0 <? cmp x y); [|reflexivity].
  rewrite IH. apply Permutation_swap.
Qed.

(** [Array.prototype.sort] keeps the elements: the sorted array is a
    permutation of the array. *)
Lemma sort_Permutation {A} (cmp : A -> A -> Z) (l : list A) : Js.sort cmp l ≡ₚ l.
Proof.
  unfold Js.sort. induction l as [|x l IH]; cbn [foldr]; [reflexivity|].
  rewrite sort_insert_Permutation, IH. reflexivity.
Qed.






Lemma sample_loop_spec (f : string) (recs : list record) :
  forall s : nat,
    (IndexManager.sample_loop recs f s s).2 = (IndexManager.sample_loop recs f s s).1
    /\ ((0 < (IndexManager.sample_loop recs f s s).1)%nat
        <-> (0 < s)%nat
            \/ exists r : record, r ∈ recs /\ IndexManager.getFieldValue r f <> undefined).
Proof.
  induction recs as [|r recs IH]; intros s;
    cbn [IndexManager.sample_loop IndexManager.numeric_or_date].
  - cbn [fst snd]. split; [reflexivity|]. split; [tauto|].
    intros [H|(r & Hin & _)]; [exact H|]. apply not_elem_of_nil in Hin. contradiction.
  - destruct (IndexManager.getFieldValue r f) as [v|] eqn:Hv.
    + assert (Hhere : exists r' : record,
                 r' ∈ r :: recs /\ IndexManager.getFieldValue r' f <> undefined).
      { exists r. split; [left | rewrite Hv; discriminate]. }
      destruct (10 <=? S s)%nat.
      * cbn [fst snd]. split; [reflexivity|]. split; [tauto | lia].
      * destruct (IH (S s)) as [Heq Hpos]. split; [exact Heq|].
        split; [tauto|]. intros _. apply Hpos. left. lia.
    + destruct (IH s) as [Heq Hpos]. split; [exact Heq|]. rewrite Hpos.
      split.
      * intros [H|(r' & Hin & Hr')]; [left; exact H|].
        right. exists r'. split; [right; exact Hin | exact Hr'].
      * intros [H|(r' & Hin & Hr')]; [left; exact H|].
        apply elem_of_cons in Hin as [->|Hin]; [congruence|].
        right. exists r'. split; [exact Hin | exact Hr'].
Qed.

Lemma isNumericOrDateField_spec (f : string) (data : list (value * record)) :
  IndexManager.isNumericOrDateField data f = true
  <-> exists (id : value) (r : record),
        (id, r) ∈ data /\ IndexManager.getFieldValue r f <> undefined.
Proof.
  unfold IndexManager.isNumericOrDateField, JsMap.size, JsMap.values.
  destruct data as [|p data].
  - cbn. split; [discriminate|]. intros (id & r & Hin & _).
    apply not_elem_of_nil in Hin. contradiction.
  - cbn [length Nat.eqb].
    destruct (sample_loop_spec f (List.map snd (p :: data)) 0) as [Heq Hpos].
    destruct (IndexManager.sample_loop (List.map snd (p :: data)) f 0 0) as [s c].
    cbn [fst snd] in Heq, Hpos. subst c. rewrite Nat.eqb_refl, andb_true_r.
    rewrite Nat.ltb_lt, Hpos. split.
    + intros [H|(r & Hin & Hr)]; [lia|].
      apply list_elem_of_In, in_map_iff in Hin as ([id r'] & Heq & Hin). cbn in Heq. subst r'.
      exists id, r. split; [apply list_elem_of_In; exact Hin | exact Hr].
    + intros (id & r & Hin & Hr). right. exists r. split; [|exact Hr].
      apply list_elem_of_In, in_map_iff. exists (id, r).
      split; [reflexivity | apply list_elem_of_In; exact Hin].
Qed.

(** X18.  [createIndex(field, data)] builds a hash index when no record of
    [data] has the field, an empty [data] included, and a sorted index
    when a record has it (every present value of the value universe being
    a number). *)
Theorem createIndex_kind (f : string) (data : list (value * record))
    (im : IndexManager.t) :
  ((forall (id : value) (r : record),
       (id, r) ∈ data -> IndexManager.getFieldValue r f = undefined) ->
   IndexManager.getIndexType (IndexManager.createIndex f data im) f
   = Some IndexManager.THash)
  /\ ((exists (id : value) (r : record),
          (id, r) ∈ data /\ IndexManager.getFieldValue r f <> undefined) ->
      IndexManager.getIndexType (IndexManager.createIndex f data im) f
      = Some IndexManager.TSorted).
Proof.
  pose proof (isNumericOrDateField_spec f data) as Hspec.
  unfold IndexManager.getIndexType, IndexManager.createIndex.
  destruct (IndexManager.isNumericOrDateField data f).
  - destruct (IndexManager.collect_sorted data f [] []) as [values map].
    cbn [IndexManager.indices]. rewrite JsMap_get_set.
    destruct (decide (f = f)); [|congruence].
    split; [|reflexivity]. intros Hnone.
    destruct (proj1 Hspec eq_refl) as (id & r & Hin & Hr).
    exfalso. apply Hr. exact (Hnone id r Hin).
  - cbn [IndexManager.indices]. rewrite JsMap_get_set.
    destruct (decide (f = f)); [|congruence].
    split; [reflexivity|]. intros Hsome. apply Hspec in Hsome. discriminate.
Qed.

(** X18 on the three resident records, and on no records. *)
Lemma createIndex_kind_witness :
  IndexManager.getIndexType
    (IndexManager.createIndex "age" IndexScenario.data IndexManager.empty) "age"
  = Some IndexManager.TSorted
  /\ IndexManager.getIndexType (IndexManager.createIndex "age" [] IndexManager.empty) "age"
     = Some IndexManager.THash.
Proof.
  split.
  - apply (proj2 (createIndex_kind "age" IndexScenario.data IndexManager.empty)).
    exists (Some 3), (obj [("_id"%string, 3); ("age"%string, 1)]).
    split; [apply list_elem_of_here | discriminate].
  - apply (proj1 (createIndex_kind "age" [] IndexManager.empty)).
    intros id r Hin. apply not_elem_of_nil in Hin. contradiction.
Defined.

(** ** The order of the sorted indices as an invariant *)





(** X19.  After [updateIndices(id, old, new)] on indices in ascending
    order, [findByIndex(field, v)] returns the id for every indexed field
    whose value in the new record is [v], in a hash as in a sorted
    index. *)
Theorem updateIndices_then_findByIndex (id : value) (o : option record) (n : record)
    (im : IndexManager.t) (f : string) (v : Z) :
  indices_sorted im ->
  IndexManager.hasIndex im f = true ->
  IndexManager.getFieldValue n f = Some v ->
  exists ids : list value,
    IndexManager.findByIndex (IndexManager.updateIndices id o (Some n) im) f (Some v)
    = Some ids
    /\ id ∈ ids.
Proof.
  intros Hs Hhas Hv. unfold IndexManager.findByIndex, IndexManager.updateIndices.
  cbn [IndexManager.indices]. rewrite JsMap_get_updateIndex.
  unfold IndexManager.hasIndex, JsMap.has in Hhas.
  destruct (JsMap.get f (IndexManager.indices im)) as [[m|vs mp]|] eqn:Hix; [| |discriminate].
  - unfold IndexManager.updateIndex. cbn [snd].
    eexists. split; [reflexivity|].
    unfold IndexManager.updateHashIndex. rewrite Hv.
    rewrite JsMap_get_set. destruct (decide (v = v)); [|congruence].
    cbn [from_option Datatypes.id]. apply elem_of_JsSet_add. left. reflexivity.
  - unfold IndexManager.updateIndex.
    pose proof (updateSortedIndex_keeps_order f vs mp id o (Some n) (Hs f vs mp Hix))
      as Hkept.
    assert (Hin : IndexManager.Item v id
                  ∈ (IndexManager.updateSortedIndex f vs mp id o (Some n)).1).
    { unfold IndexManager.updateSortedIndex.
      destruct (if bool_decide (is_Some o) || JsMap.has id mp then _ else _)
        as [values1 map1].
      rewrite Hv. cbn [fst]. apply elem_of_splice_in. left. reflexivity. }
    destruct (IndexManager.updateSortedIndex f vs mp id o (Some n)) as [vs' mp'].
    cbn [fst snd] in *. eexists. split; [reflexivity|].
    apply (findByIndex_scan_spec vs' v Hkept). right.
    exists (IndexManager.Item v id). split; [exact Hin | split; reflexivity].
Qed.

(** X19 on the index of three elements: a fourth record is found. *)
Lemma updateIndices_then_findByIndex_witness :
  exists ids : list value,
    IndexManager.findByIndex
      (IndexManager.updateIndices (Some 4) None (Some (obj [("age"%string, 5)]))
         IndexScenario.manager) "age" (Some 5)
    = Some ids
    /\ Some 4 ∈ ids.
Proof.
  apply (updateIndices_then_findByIndex (Some 4) None (obj [("age"%string, 5)])
           IndexScenario.manager "age" 5).
  - intros f values map Hget. cbn in Hget.
    destruct (decide (f = "age"%string)); [|discriminate].
    injection Hget as <- _. exact IndexScenario_sorted.
  - reflexivity.
  - reflexivity.
Defined.


(** ** Queries *)

Lemma length_projectFields (fields : list string) (results : list record) :
  length (Query.projectFields fields results) = length results.
Proof. unfold Query.projectFields. apply length_map. Qed.

Lemma length_filters (cs : list (record -> bool)) (results : list record) :
  (length (foldl (fun rs c => List.filter c rs) results cs) <= length results)%nat.
Proof.
  revert results. induction cs as [|c cs IH]; intros results; cbn [foldl]; [lia|].
  etransitivity; [apply IH|]. apply List.filter_length_le.
Qed.

Lemma length_sortResults (q : Query.t) (f : string) (results : list record) :
  length (Query.sortResults q f results) = length results.
Proof.
  unfold Query.sortResults.
  assert (Hsort : length (Js.sort (Query.sort_compare f (Query.sortOrder q)) results)
                  = length results)
    by (apply Permutation_length, sort_Permutation).
  destruct (Query.limitCount q) as [k|]; [|exact Hsort].
  destruct ((0 <? k)%nat && (Query.skipCount q =? 0)%nat && (10 * k <? length results)%nat)
    eqn:Hheap; [|exact Hsort].
  apply andb_true_iff in Hheap as [_ Hk]. apply Nat.ltb_lt in Hk.
  unfold Query.heapSort. rewrite length_app, length_take, length_drop. lia.
Qed.

Lemma length_finish (q : Query.t) (results : list record) :
  (length (Query.finish q results) <= length results)%nat
  /\ (forall k : nat, Query.limitCount q = Some k ->
                      (length (Query.finish q results) <= k)%nat).
Proof.
  unfold Query.finish.
  pose proof (length_filters (Query.nonIndexableConditions q) results) as H1.
  set (r1 := foldl _ results _) in *.
  assert (H2 : length (match Query.sortField q with
                       | Some f => if Query.str_truthy f then Query.sortResults q f r1 else r1
                       | None => r1
                       end) = length r1).
  { destruct (Query.sortField q) as [f|]; [|reflexivity].
    destruct (Query.str_truthy f); [apply length_sortResults | reflexivity]. }
  set (r2 := match Query.sortField q with Some _ => _ | None => _ end) in *.
  assert (H3 : (length (if (0 <? Query.skipCount q)%nat
                        then drop (Query.skipCount q) r2 else r2) <= length r2)%nat).
  { destruct (0 <? Query.skipCount q)%nat; [rewrite length_drop|]; lia. }
  set (r3 := if (0 <? Query.skipCount q)%nat then _ else _) in *.
  assert (H4 : (length (match Query.limitCount q with
                        | Some k => take k r3
                        | None => r3
                        end) <= length r3)%nat
               /\ (forall k : nat, Query.limitCount q = Some k ->
                                   (length (match Query.limitCount q with
                                            | Some k => take k r3
                                            | None => r3
                                            end) <= k)%nat)).
  { destruct (Query.limitCount q) as [k|].
    - rewrite length_take. split; [lia|]. intros k' [= <-]. lia.
    - split; [lia | discriminate]. }
  set (r4 := match Query.limitCount q with Some _ => _ | None => _ end) in *.
  destruct H4 as [H4 H5].
  assert (H6 : length (match Query.selectedFields q with
                       | Some fields => Query.projectFields fields r4
                       | None => r4
                       end) = length r4).
  { destruct (Query.selectedFields q); [apply length_projectFields | reflexivity]. }
  rewrite H6. split; [lia|]. intros k Hk. exact (H5 k Hk).
Qed.

Lemma execute_finish (x : Table.t) (q : Query.t) :
  (Query.execute x q).1 = []
  \/ exists results : list record, (Query.execute x q).1 = Query.finish q results.
Proof.
  unfold Query.execute.
  destruct (Query.getIndexCandidateSet (Table.indexManager x) q) as [cs|].
  - destruct (JsSet.size cs =? 0)%nat; [left; reflexivity|].
    destruct (Query.executeWithIndex x cs []) as [results x']. right. eauto.
  - destruct (_ <? _)%nat; right; eauto.
Qed.

(** X20.  A query with [limit(k)] returns at most [k] records, with every
    combination of conditions, sort, skip and projection and on each of
    the three ways [execute] collects the records. *)
Theorem execute_respects_limit (x : Table.t) (q : Query.t) (k : nat) :
  (length (Query.execute x (Query.limit k q)).1 <= k)%nat.
Proof.
  destruct (execute_finish x (Query.limit k q)) as [->|[results ->]]; [cbn; lia|].
  apply (proj2 (length_finish (Query.limit k q) results)). reflexivity.
Qed.

Lemma length_executeWithIndex (x : Table.t) (cs : list value) (acc : list record) :
  (length (Query.executeWithIndex x cs acc).1
   <= length acc
      + length (List.filter (fun id => negb (JsSet.has id (Table.pendingDeletes x))) cs))%nat.
Proof.
  revert x acc. induction cs as [|id cs IH]; intros x acc;
    cbn [Query.executeWithIndex List.filter fst]; [lia|].
  destruct (JsSet.has id (Table.pendingDeletes x)) eqn:Hdel; cbn [negb]; [apply IH|].
  cbn [length].
  destruct (JsMap.get id (Table.pendingUpdates x)) as [r|].
  { etransitivity; [apply IH|]. rewrite length_app. cbn [length]. lia. }
  destruct (JsMap.get id (Table.data x)) as [r|].
  { etransitivity; [apply IH|]. rewrite length_app. cbn [length]. lia. }
  destruct (loadRecordById_cache_only id x) as [c Hx].
  destruct (Table.loadRecordById id x) as [[r|] x'] eqn:Hload; cbn [snd] in Hx.
  - etransitivity; [apply IH|]. rewrite length_app. cbn [length]. subst x'.
    cbn [Table.pendingDeletes Table.set_cache]. lia.
  - etransitivity; [apply IH|]. subst x'.
    cbn [Table.pendingDeletes Table.set_cache]. lia.
Qed.

(** X21.  [count()] is never below the length of what [execute()]
    returns for the same query: with candidates from the indices and no
    other condition it counts the candidate ids that are not pending
    deletes, whether or not a record is found for them and whatever the
    skip and the limit are; otherwise it is the length itself. *)
Theorem count_bounds_execute (x : Table.t) (q : Query.t) :
  (length (Query.execute x q).1 <= (Query.count x q).1)%nat.
Proof.
  unfold Query.count.
  destruct (Query.getIndexCandidateSet (Table.indexManager x) q) as [cs|] eqn:Hcs.
  - destruct (Query.nonIndexableConditions q) as [|c rest] eqn:Hnic.
    + cbn [fst]. unfold Query.execute. rewrite Hcs.
      destruct (JsSet.size cs =? 0)%nat; [cbn; lia|].
      pose proof (length_executeWithIndex x cs []) as Hlen.
      destruct (Query.executeWithIndex x cs []) as [results x']. cbn [fst length] in *.
      pose proof (proj1 (length_finish q results)). lia.
    + destruct (Query.execute x q) as [results x']. cbn [fst]. lia.
  - destruct (Query.execute x q) as [results x']. cbn [fst]. lia.
Qed.

Lemma analyzeCondition_unindexed (im : IndexManager.t)
    (entries : list (string * Query.cond_value)) (q : Query.t) :
  (forall key : string,
      key ∈ List.map fst entries -> IndexManager.hasIndex im key = false) ->
  Query.analyzeCondition im entries q
  = Query.Mk (Query.conditions q) (Query.sortField q) (Query.sortOrder q)
      (Query.limitCount q) (Query.skipCount q) (Query.selectedFields q)
      (Query.indexableConditions q)
      (Query.nonIndexableConditions q
       ++ List.map (fun e => Query.buildCondition [e]) entries).
Proof.
  revert q. induction entries as [|[key v] rest IH]; intros q Hno.
  - cbn [Query.analyzeCondition List.map]. rewrite app_nil_r. destruct q. reflexivity.
  - cbn [Query.analyzeCondition]. rewrite (Hno key) by (cbn [List.map fst]; left).
    rewrite IH by (intros k Hk; apply Hno; cbn [List.map fst]; right; exact Hk).
    cbn [Query.conditions Query.sortField Query.sortOrder Query.limitCount Query.skipCount
         Query.selectedFields Query.indexableConditions Query.nonIndexableConditions
         List.map].
    rewrite <- app_assoc. reflexivity.
Qed.

Lemma filter_entries (entries : list (string * Query.cond_value)) (l : list record) :
  foldl (fun rs c => List.filter c rs) l
    (List.map (fun e => Query.buildCondition [e]) entries)
  = List.filter (Query.buildCondition entries) l.
Proof.
  revert l. induction entries as [|[key v] rest IH]; intros l; cbn [List.map foldl].
  - induction l as [|a l IHl]; [reflexivity|]. cbn [List.filter Query.buildCondition].
    f_equal. exact IHl.
  - rewrite IH, <- filter_andb. apply List.filter_ext. intros r.
    cbn [Query.buildCondition].
    destruct v as [lit|o]; [destruct (Js.seq _ _) | destruct (Query.evaluateOperator _ _)];
      cbn [negb]; rewrite ?andb_true_r, ?andb_false_r; reflexivity.
Qed.

Lemma where_unindexed (im : IndexManager.t) (c : Query.condition) (q : Query.t) :
  unindexed im c ->
  Query.where_ im c q
  = Query.Mk (Query.conditions q ++ [Query.cond_fn c]) (Query.sortField q)
      (Query.sortOrder q) (Query.limitCount q) (Query.skipCount q)
      (Query.selectedFields q) (Query.indexableConditions q)
      (Query.nonIndexableConditions (Query.where_ im c q))
  /\ forall l : list record,
       foldl (fun rs c' => List.filter c' rs) l
         (Query.nonIndexableConditions (Query.where_ im c q))
       = List.filter (Query.cond_fn c)
           (foldl (fun rs c' => List.filter c' rs) l (Query.nonIndexableConditions q)).
Proof.
  intros Hun. destruct c as [p|entries]; cbn [Query.where_ Query.cond_fn].
  - cbn [Query.nonIndexableConditions]. split; [reflexivity|].
    intros l. rewrite foldl_snoc. reflexivity.
  - rewrite (analyzeCondition_unindexed im entries _ Hun).
    cbn [Query.conditions Query.sortField Query.sortOrder Query.limitCount Query.skipCount
         Query.selectedFields Query.indexableConditions Query.nonIndexableConditions].
    split; [reflexivity|]. intros l. rewrite foldl_app. apply filter_entries.
Qed.

(** X22.  On a query without index-eligible condition, sort, skip, limit
    and projection, [where(c)] with a condition on fields that have no
    index is a filter: the records returned are those of the query before
    that satisfy [c], in the same order. *)
Theorem where_filters_results (x : Table.t) (c : Query.condition) (q : Query.t) :
  plain q ->
  Query.indexableConditions q = [] ->
  unindexed (Table.indexManager x) c ->
  (Query.execute x (Query.where_ (Table.indexManager x) c q)).1
  = List.filter (Query.cond_fn c) (Query.execute x q).1.
Proof.
  intros (Hsort & Hskip & Hlimit & Hselect) Hix Hun.
  destruct (where_unindexed (Table.indexManager x) c q Hun) as [Hq' Hfilter].
  set (q' := Query.where_ (Table.indexManager x) c q) in *.
  assert (Hfinish : forall l : list record,
             Query.finish q' l = List.filter (Query.cond_fn c) (Query.finish q l)).
  { intros l. unfold Query.finish. rewrite Hfilter. rewrite Hq'.
    cbn [Query.sortField Query.skipCount Query.limitCount Query.selectedFields].
    rewrite Hsort, Hskip, Hlimit, Hselect. reflexivity. }
  unfold Query.execute, Query.getIndexCandidateSet.
  replace (Query.indexableConditions q') with (@nil Query.indexable)
    by (rewrite Hq'; cbn [Query.indexableConditions]; symmetry; exact Hix).
  rewrite Hix.
  assert (Hstream : Query.streamResults x q' = Query.streamResults x q).
  { unfold Query.streamResults. rewrite Hq'. reflexivity. }
  destruct (_ <? _)%nat; cbn [fst]; rewrite ?Hstream; apply Hfinish.
Qed.

(** X22 on the two pending records and [{x: 2}]. *)
Lemma where_filters_results_witness :
  (Query.execute OrScenario.table
     (Query.where_ (Table.indexManager OrScenario.table) (lit_cond "x" 2) Query.create)).1
  = List.filter (Query.cond_fn (lit_cond "x" 2))
      (Query.execute OrScenario.table Query.create).1.
Proof.
  apply (where_filters_results OrScenario.table (lit_cond "x" 2) Query.create).
  - repeat split.
  - reflexivity.
  - intros key _. reflexivity.
Defined.

(** A condition object of literal values accepts the records that
    have, under every key, the value listed ([undefined] for an absent
    field), and no other. *)
Lemma buildCondition_literals (entries : list (string * value)) (r : record) :
  Query.buildCondition (List.map (fun e => (e.1, Query.Lit e.2)) entries) r = true
  <-> forall (key : string) (v : value), (key, v) ∈ entries -> field r key = v.
Proof.
  induction entries as [|[k v] rest IH]; cbn [List.map Query.buildCondition fst snd].
  - split; [|reflexivity]. intros _ key v Hin. apply not_elem_of_nil in Hin. contradiction.
  - unfold Js.seq at 1. destruct (decide (field r k = v)) as [Heq|Hne].
    + rewrite bool_decide_eq_true_2 by exact Heq. cbn [negb]. rewrite IH. split.
      * intros Hrest key v' Hin. apply elem_of_cons in Hin as [[= -> ->]|Hin];
          [exact Heq | exact (Hrest key v' Hin)].
      * intros Hall key v' Hin. apply Hall. right. exact Hin.
    + rewrite bool_decide_eq_false_2 by exact Hne. cbn [negb]. split; [discriminate|].
      intros Hall. exfalso. apply Hne, Hall. left.
Qed.

Lemma candidate_loop_spec (im : IndexManager.t) (cs : list Query.indexable) :
  forall s : list value,
  exists s' : list value,
    Query.candidate_loop im cs (Some s) = Some s'
    /\ forall id : value,
         id ∈ s' <-> id ∈ s /\ forall c, c ∈ cs -> id ∈ Query.condition_ids im c.
Proof.
  induction cs as [|c cs IH]; intros s; cbn [Query.candidate_loop].
  - exists s. split; [reflexivity|]. intros id. split; [|tauto].
    intros Hin. split; [exact Hin|]. intros c Hc. apply not_elem_of_nil in Hc. contradiction.
  - set (inter := List.filter (fun id => JsSet.has id s) (Query.condition_ids im c)).
    assert (Hinter : forall id : value,
               id ∈ inter <-> id ∈ s /\ id ∈ Query.condition_ids im c).
    { intros id. unfold inter. rewrite list_elem_of_In, filter_In, <- list_elem_of_In.
      unfold JsSet.has. rewrite bool_decide_eq_true. tauto. }
    destruct (JsSet.size inter =? 0)%nat eqn:Hsize.
    + exists inter. split; [reflexivity|]. intros id. rewrite Hinter. split.
      * intros Hin. exfalso. apply Hinter in Hin.
        apply Nat.eqb_eq in Hsize. unfold JsSet.size in Hsize.
        destruct inter; [apply not_elem_of_nil in Hin; exact Hin | discriminate].
      * intros [Hs Hall]. split; [exact Hs|]. apply Hall. left.
    + destruct (IH inter) as (s' & Hs' & Hmem). exists s'. split; [exact Hs'|].
      intros id. rewrite Hmem, Hinter. split.
      * intros [[Hs Hc] Hall]. split; [exact Hs|]. intros c' Hc'.
        apply elem_of_cons in Hc' as [->|Hc']; [exact Hc | exact (Hall c' Hc')].
      * intros [Hs Hall]. split; [split; [exact Hs | apply Hall; left]|].
        intros c' Hc'. apply Hall. right. exact Hc'.
Qed.

(** X24.  [getIndexCandidateSet()] returns [null] when no condition is
    index-eligible, and otherwise the ids that every index-eligible
    condition selects: the intersection of their id sets, also when the
    loop stops at an empty one. *)
Theorem candidates_are_intersection (im : IndexManager.t) (q : Query.t) :
  match Query.getIndexCandidateSet im q with
  | None => Query.indexableConditions q = []
  | Some s =>
      Query.indexableConditions q <> []
      /\ forall id : value,
           id ∈ s
           <-> forall c, c ∈ Query.indexableConditions q -> id ∈ Query.condition_ids im c
  end.
Proof.
  unfold Query.getIndexCandidateSet.
  destruct (Query.indexableConditions q) as [|c cs]; [reflexivity|].
  cbn [Query.candidate_loop].
  destruct (candidate_loop_spec im cs (Query.condition_ids im c)) as (s' & -> & Hmem).
  split; [discriminate|]. intros id. rewrite Hmem. split.
  - intros [Hc Hall] c' Hc'.
    apply elem_of_cons in Hc' as [->|Hc']; [exact Hc | exact (Hall c' Hc')].
  - intros Hall. split; [apply Hall; left|]. intros c' Hc'. apply Hall. right. exact Hc'.
Qed.

Lemma NoDup_JsSet_add {K} `{EqDecision K} (k : K) (s : list K) :
  NoDup s -> NoDup (JsSet.add k s).
Proof.
  intros Hs. unfold JsSet.add, JsSet.has. destruct (decide (k ∈ s)) as [Hin|Hin].
  - rewrite bool_decide_eq_true_2 by exact Hin. exact Hs.
  - rewrite bool_decide_eq_false_2 by exact Hin.
    apply NoDup_app. split; [exact Hs|]. split; [|apply NoDup_singleton].
    intros a Ha Ha'. apply list_elem_of_singleton in Ha'. subst a. contradiction.
Qed.

Lemma distinct_fold (f : string) (results : list record) :
  forall values : list Z,
    NoDup values ->
    NoDup (foldl (fun values r =>
                    match IndexManager.getFieldValue r f with
                    | Some v => JsSet.add v values
                    | None => values
                    end) values results)
    /\ forall v : Z,
         v ∈ foldl (fun values r =>
                      match IndexManager.getFieldValue r f with
                      | Some v => JsSet.add v values
                      | None => values
                      end) values results
         <-> v ∈ values
             \/ exists r : record, r ∈ results /\ IndexManager.getFieldValue r f = Some v.
Proof.
  induction results as [|r results IH]; intros values Hnd; cbn [foldl].
  - split; [exact Hnd|]. intros v. split; [tauto|].
    intros [H|(r & Hin & _)]; [exact H|]. apply not_elem_of_nil in Hin. contradiction.
  - destruct (IndexManager.getFieldValue r f) as [v0|] eqn:Hv0.
    + destruct (IH (JsSet.add v0 values) (NoDup_JsSet_add v0 values Hnd)) as [Hnd' Hmem].
      split; [exact Hnd'|]. intros v. rewrite Hmem, elem_of_JsSet_add. split.
      * intros [[->|H]|(r' & Hin & Hr')].
        -- right. exists r. split; [left | exact Hv0].
        -- left. exact H.
        -- right. exists r'. split; [right; exact Hin | exact Hr'].
      * intros [H|(r' & Hin & Hr')]; [left; right; exact H|].
        apply elem_of_cons in Hin as [->|Hin].
        -- left. left. congruence.
        -- right. exists r'. split; [exact Hin | exact Hr'].
    + destruct (IH values Hnd) as [Hnd' Hmem]. split; [exact Hnd'|].
      intros v. rewrite Hmem. split.
      * intros [H|(r' & Hin & Hr')]; [left; exact H|].
        right. exists r'. split; [right; exact Hin | exact Hr'].
      * intros [H|(r' & Hin & Hr')]; [left; exact H|].
        apply elem_of_cons in Hin as [->|Hin]; [congruence|].
        right. exists r'. split; [exact Hin | exact Hr'].
Qed.

(** X25.  [distinct(field)] returns every value that the field has in a
    record of the result of [execute()], each once, and nothing else. *)
Theorem distinct_values (x : Table.t) (f : string) (q : Query.t) :
  NoDup (Query.distinct x f q).1
  /\ forall v : Z,
       v ∈ (Query.distinct x f q).1
       <-> exists r : record,
             r ∈ (Query.execute x q).1 /\ IndexManager.getFieldValue r f = Some v.
Proof.
  unfold Query.distinct. destruct (Query.execute x q) as [results x']. cbn [fst].
  destruct (distinct_fold f results [] (NoDup_nil_2)) as [Hnd Hmem].
  split; [exact Hnd|]. intros v. rewrite Hmem. split; [|intros H; right; exact H].
  intros [H|H]; [apply not_elem_of_nil in H; contradiction | exact H].
Qed.

(** ** Aggregation, sorting and projection *)

Lemma fold_min_spec (values : list (option Z)) :
  forall acc : option Z,
    match foldl (fun (acc : option Z) v =>
                   match acc, v with
                   | Some a, Some b => Some (Z.min a b)
                   | None, _ => v
                   | _, None => acc
                   end) acc values with
    | None => acc = None /\ forall v, v ∈ values -> v = None
    | Some m =>
        (acc = Some m \/ Some m ∈ values)
        /\ (forall a, acc = Some a -> m <= a)
        /\ (forall b, Some b ∈ values -> m <= b)
    end.
Proof.
  induction values as [|v values IH]; intros acc; cbn [foldl].
  - destruct acc as [a|].
    + split; [left; reflexivity|]. split; [intros a' [= <-]; lia|].
      intros b Hb. apply not_elem_of_nil in Hb. contradiction.
    + split; [reflexivity|]. intros v Hv. apply not_elem_of_nil in Hv. contradiction.
  - specialize (IH (match acc, v with
                    | Some a, Some b => Some (Z.min a b)
                    | None, _ => v
                    | _, None => acc
                    end)).
    destruct (foldl _ _ values) as [m|].
    + destruct IH as (Hin & Hacc & Hall). split; [|split].
      * destruct Hin as [Hin|Hin]; [|right; right; exact Hin].
        destruct acc as [a|], v as [b|]; try discriminate.
        -- injection Hin as <-. destruct (Z.min_spec a b) as [[_ ->]|[_ ->]];
             [left; reflexivity | right; left].
        -- left. exact Hin.
        -- right. rewrite Hin. left.
      * intros a ->. destruct v as [b|]; [|apply Hacc; reflexivity].
        pose proof (Hacc (Z.min a b) eq_refl). lia.
      * intros b Hb. apply elem_of_cons in Hb as [<-|Hb]; [|exact (Hall b Hb)].
        destruct acc as [a|]; [|apply Hacc; reflexivity].
        pose proof (Hacc (Z.min a b) eq_refl). lia.
    + destruct IH as [Hacc Hall]. destruct acc as [a|], v as [b|]; try discriminate.
      split; [reflexivity|]. intros v Hv.
      apply elem_of_cons in Hv as [->|Hv]; [reflexivity | exact (Hall v Hv)].
Qed.

Lemma fold_max_spec (values : list (option Z)) :
  forall acc : option Z,
    match foldl (fun (acc : option Z) v =>
                   match acc, v with
                   | Some a, Some b => Some (Z.max a b)
                   | None, _ => v
                   | _, None => acc
                   end) acc values with
    | None => acc = None /\ forall v, v ∈ values -> v = None
    | Some m =>
        (acc = Some m \/ Some m ∈ values)
        /\ (forall a, acc = Some a -> a <= m)
        /\ (forall b, Some b ∈ values -> b <= m)
    end.
Proof.
  induction values as [|v values IH]; intros acc; cbn [foldl].
  - destruct acc as [a|].
    + split; [left; reflexivity|]. split; [intros a' [= <-]; lia|].
      intros b Hb. apply not_elem_of_nil in Hb. contradiction.
    + split; [reflexivity|]. intros v Hv. apply not_elem_of_nil in Hv. contradiction.
  - specialize (IH (match acc, v with
                    | Some a, Some b => Some (Z.max a b)
                    | None, _ => v
                    | _, None => acc
                    end)).
    destruct (foldl _ _ values) as [m|].
    + destruct IH as (Hin & Hacc & Hall). split; [|split].
      * destruct Hin as [Hin|Hin]; [|right; right; exact Hin].
        destruct acc as [a|], v as [b|]; try discriminate.
        -- injection Hin as <-. destruct (Z.max_spec a b) as [[_ ->]|[_ ->]];
             [right; left | left; reflexivity].
        -- left. exact Hin.
        -- right. rewrite Hin. left.
      * intros a ->. destruct v as [b|]; [|apply Hacc; reflexivity].
        pose proof (Hacc (Z.max a b) eq_refl). lia.
      * intros b Hb. apply elem_of_cons in Hb as [<-|Hb]; [|exact (Hall b Hb)].
        destruct acc as [a|]; [|apply Hacc; reflexivity].
        pose proof (Hacc (Z.max a b) eq_refl). lia.
    + destruct IH as [Hacc Hall]. destruct acc as [a|], v as [b|]; try discriminate.
      split; [reflexivity|]. intros v Hv.
      apply elem_of_cons in Hv as [->|Hv]; [reflexivity | exact (Hall v Hv)].
Qed.

Lemma elem_of_or_infinity (f : string) (results : list record) (v : Z) :
  Some v ∈ List.map (fun r => Query.or_infinity (field r f)) results
  <-> counted f results v.
Proof.
  unfold counted. rewrite list_elem_of_In, in_map_iff. split.
  - intros (r & Hr & Hin). unfold Query.or_infinity, Js.truthy in Hr.
    destruct (field r f) as [n|] eqn:Hn; [|discriminate].
    destruct (Z.eqb_spec n 0) as [->|Hne]; cbn [negb] in Hr; [discriminate|].
    injection Hr as ->. split; [exact Hne|]. exists r.
    split; [apply list_elem_of_In; exact Hin | exact Hn].
  - intros (Hne & r & Hin & Hr). exists r. split; [|apply list_elem_of_In; exact Hin].
    unfold Query.or_infinity, Js.truthy. rewrite Hr.
    destruct (Z.eqb_spec v 0); [contradiction | reflexivity].
Qed.

(** X26.  [$min] returns the least and [$max] the greatest of the truthy
    values of the field in the results; when no record has a truthy value
    there, [$min] is [Infinity] and [$max] is [-Infinity]. *)
Theorem aggregate_min_max_of_counted (f : string) (results : list record) :
  Query.str_truthy f = true ->
  ((forall v : Z, ~ counted f results v) ->
   Query.aggregate_one results (min_of f) = Some Query.Infinity
   /\ Query.aggregate_one results (max_of f) = Some Query.NegInfinity)
  /\ (forall m : Z,
        counted f results m ->
        (forall v : Z, counted f results v -> m <= v) ->
        Query.aggregate_one results (min_of f) = Some (Query.of_Z m))
  /\ (forall m : Z,
        counted f results m ->
        (forall v : Z, counted f results v -> v <= m) ->
        Query.aggregate_one results (max_of f) = Some (Query.of_Z m)).
Proof.
  intros Hf.
  assert (Hmin : Query.aggregate_one results (min_of f)
                 = Some (Query.math_min
                           (List.map (fun r => Query.or_infinity (field r f)) results))).
  { unfold Query.aggregate_one, min_of. cbn [Query.op_sum Query.op_avg Query.op_min
      Query.named]. rewrite Hf. reflexivity. }
  assert (Hmax : Query.aggregate_one results (max_of f)
                 = Some (Query.math_max
                           (List.map (fun r => Query.or_infinity (field r f)) results))).
  { unfold Query.aggregate_one, max_of. cbn [Query.op_sum Query.op_avg Query.op_min
      Query.op_max Query.named]. rewrite Hf. reflexivity. }
  rewrite Hmin, Hmax. unfold Query.math_min, Query.math_max.
  pose proof (fold_min_spec (List.map (fun r => Query.or_infinity (field r f)) results)
                None) as Hlow.
  pose proof (fold_max_spec (List.map (fun r => Query.or_infinity (field r f)) results)
                None) as Hhigh.
  destruct (foldl _ None _) as [lo|] in Hlow |- *;
    destruct (foldl _ None _) as [hi|] in Hhigh |- *.
  - destruct Hlow as ([Hlo|Hlo] & _ & Hleast); [discriminate|].
    destruct Hhigh as ([Hhi|Hhi] & _ & Hmost); [discriminate|].
    apply elem_of_or_infinity in Hlo, Hhi. split; [|split].
    + intros Hnone. exfalso. exact (Hnone lo Hlo).
    + intros m Hm Hall. do 2 f_equal. apply Z.le_antisymm.
      * apply Hleast, elem_of_or_infinity. exact Hm.
      * apply Hall. exact Hlo.
    + intros m Hm Hall. do 2 f_equal. apply Z.le_antisymm.
      * apply Hall. exact Hhi.
      * apply Hmost, elem_of_or_infinity. exact Hm.
  - exfalso. destruct Hlow as ([Hlo|Hlo] & _); [discriminate|].
    destruct Hhigh as [_ Hnone]. specialize (Hnone _ Hlo). discriminate.
  - exfalso. destruct Hhigh as ([Hhi|Hhi] & _); [discriminate|].
    destruct Hlow as [_ Hnone]. specialize (Hnone _ Hhi). discriminate.
  - destruct Hlow as [_ Hnone]. split; [split; reflexivity|]. split.
    + intros m Hm. apply elem_of_or_infinity in Hm. specialize (Hnone _ Hm). discriminate.
    + intros m Hm. apply elem_of_or_infinity in Hm. specialize (Hnone _ Hm). discriminate.
Qed.

(** X26 on three records of which the first has the value 0. *)
Lemma aggregate_min_max_of_counted_witness :
  Query.aggregate_one QueryScenario.results (min_of "x") = Some (Query.of_Z 3)
  /\ Query.aggregate_one QueryScenario.results (max_of "x") = Some (Query.of_Z 5).
Proof.
  assert (Hvalues : forall v : Z, counted "x" QueryScenario.results v -> v = 5 \/ v = 3).
  { intros v (Hne & r & Hin & Hr). unfold QueryScenario.results in Hin.
    repeat (apply elem_of_cons in Hin as [->|Hin]); vm_compute in Hr.
    - injection Hr as <-. contradiction.
    - injection Hr as <-. left. reflexivity.
    - injection Hr as <-. right. reflexivity.
    - apply not_elem_of_nil in Hin. contradiction. }
  destruct (aggregate_min_max_of_counted "x" QueryScenario.results eq_refl)
    as (_ & Hmin & Hmax).
  split.
  - apply Hmin.
    + split; [lia|]. exists QueryScenario.three.
      split; [right; right; left | reflexivity].
    + intros v Hv. destruct (Hvalues v Hv); lia.
  - apply Hmax.
    + split; [lia|]. exists QueryScenario.five. split; [right; left | reflexivity].
    + intros v Hv. destruct (Hvalues v Hv); lia.
Defined.

Lemma length_stream_loop (x : Table.t) (m : nat) (lines : list Table.line) :
  forall (processedCount : nat) (results : list record),
    (processedCount <= m)%nat ->
    (length (Query.stream_loop x (Some m) lines processedCount results)
     <= length results + (m - processedCount))%nat.
Proof.
  induction lines as [|l lines IH]; intros p rs Hp; cbn [Query.stream_loop]; [lia|].
  destruct l as [| |r].
  - destruct (Nat.leb_spec m p); [lia | apply IH; lia].
  - destruct (Nat.leb_spec m p); [lia | apply IH; lia].
  - destruct (Nat.ltb_spec p m) as [Hlt|Hge]; cbn [andb].
    + destruct (negb (JsSet.has (_id r) (Table.pendingDeletes x))).
      * destruct (Nat.leb_spec m (S p)).
        -- rewrite length_app. cbn [length]. lia.
        -- etransitivity; [apply IH; lia|]. rewrite length_app. cbn [length]. lia.
      * destruct (Nat.leb_spec m p); [lia | apply IH; lia].
    + destruct (Nat.leb_spec m p); [lia | apply IH; lia].
Qed.

(** X27.  With a limit [k > 0], the pass of [streamResults()] over the
    file takes at most [2 * (k + skip)] records from it, however many
    lines follow; the pending writes are added to these. *)
Theorem streamResults_takes_bounded (x : Table.t) (q : Query.t) (k : nat) :
  Query.limitCount q = Some k ->
  (0 < k)%nat ->
  (length (Query.streamResults x q)
   <= (k + Query.skipCount q) * 2 + length (Query.pending_written x))%nat.
Proof.
  intros Hk Hpos. unfold Query.streamResults. rewrite Hk.
  destruct (Nat.ltb_spec 0 k) as [_|]; [|lia].
  rewrite length_app.
  pose proof (length_stream_loop x ((k + Query.skipCount q) * 2)
                (default [] (Table.file x)) 0 [] ltac:(lia)) as Hlen.
  cbn [length] in Hlen. lia.
Qed.

(** X27 on a log of three records and [limit(1)]: two are taken. *)
Lemma streamResults_takes_bounded_witness :
  (length (Query.streamResults QueryScenario.table QueryScenario.query)
   <= (1 + Query.skipCount QueryScenario.query) * 2
      + length (Query.pending_written QueryScenario.table))%nat.
Proof.
  apply (streamResults_takes_bounded QueryScenario.table QueryScenario.query 1).
  - reflexivity.
  - lia.
Defined.

Lemma project_fold (r : record) (fields : list string) (g : string) :
  forall selected : record,
    foldl (fun (selected : record) f =>
             match r !! f with
             | Some v => <[f := v]> selected
             | None => selected
             end) selected fields !! g
    = if bool_decide (g ∈ fields)
      then match r !! g with Some v => Some v | None => selected !! g end
      else selected !! g.
Proof.
  induction fields as [|f fields IH]; intros selected; cbn [foldl].
  - rewrite bool_decide_eq_false_2 by apply not_elem_of_nil. reflexivity.
  - rewrite IH. destruct (decide (g = f)) as [->|Hne].
    + rewrite (bool_decide_eq_true_2 (f ∈ f :: fields)) by left.
      destruct (r !! f) as [v|] eqn:Hv.
      * rewrite lookup_insert_eq. destruct (bool_decide (f ∈ fields)); reflexivity.
      * destruct (bool_decide (f ∈ fields)); reflexivity.
    + assert (Hsame : match r !! f with
                      | Some v => <[f := v]> selected
                      | None => selected
                      end !! g = selected !! g).
      { destruct (r !! f); [apply lookup_insert_ne; congruence | reflexivity]. }
      rewrite Hsame.
      destruct (decide (g ∈ fields)) as [Hin|Hin].
      * rewrite !bool_decide_eq_true_2; [reflexivity | right; exact Hin | exact Hin].
      * rewrite !bool_decide_eq_false_2; [reflexivity | | exact Hin].
        intros Hin'. apply elem_of_cons in Hin' as [?|?]; contradiction.
Qed.

(** X28.  [projectFields] returns one object for each record, in the
    same order; the object has the selected fields that the record has,
    with the record's values, and no other field. *)
Theorem projectFields_selects (fields : list string) (results : list record)
    (i : nat) (r : record) :
  results !! i = Some r ->
  exists selected : record,
    Query.projectFields fields results !! i = Some selected
    /\ forall g : string,
         field selected g = if bool_decide (g ∈ fields) then field r g else undefined.
Proof.
  intros Hi. unfold Query.projectFields.
  change (List.map ?f ?l) with (f <$> l). rewrite list_lookup_fmap, Hi. cbn [fmap option_fmap option_map].
  eexists. split; [reflexivity|]. intros g. unfold field.
  rewrite project_fold, lookup_empty. destruct (bool_decide (g ∈ fields)); [|reflexivity].
  destruct (r !! g); reflexivity.
Qed.

(** X28 on the second of three records and the fields [x] and [y]. *)
Lemma projectFields_selects_witness :
  exists selected : record,
    Query.projectFields ["x"%string; "y"%string] QueryScenario.results !! 1%nat
    = Some selected
    /\ forall g : string,
         field selected g
         = if bool_decide (g ∈ ["x"%string; "y"%string])
           then field QueryScenario.five g else undefined.
Proof.
  apply (projectFields_selects ["x"%string; "y"%string] QueryScenario.results 1
           QueryScenario.five).
  reflexivity.
Defined.

Lemma ascending_sort_insert (f : string) (x : record) (l : list record) :
  field x f <> undefined ->
  Forall (fun r => field r f <> undefined) l ->
  ascending f l ->
  ascending f (Js.sort_insert (Query.sort_compare f Query.Asc) x l).
Proof.
  unfold ascending. intros Hx Hdef. induction l as [|y l IH]; intros Hs;
    cbn [Js.sort_insert].
  - repeat constructor.
  - pose proof Hs as Hs'. apply StronglySorted_cons in Hs' as [Hall Hl].
    rewrite Forall_forall in Hall.
    apply Forall_cons in Hdef as [Hy Hdef].
    destruct (field x f) as [a|] eqn:Ha; [|congruence].
    destruct (field y f) as [b|] eqn:Hb; [|congruence].
    assert (Hcmp : (0 <? Query.sort_compare f Query.Asc x y) = (b <? a)).
    { unfold Query.sort_compare, Query.comparison, Js.seq, Js.lt. rewrite Ha, Hb.
      destruct (decide (Some a = Some b)) as [[= ->]|Hne].
      - rewrite bool_decide_eq_true_2 by reflexivity. rewrite (Z.ltb_irrefl b). reflexivity.
      - rewrite bool_decide_eq_false_2 by exact Hne.
        destruct (Z.ltb_spec a b), (Z.ltb_spec b a); try reflexivity; try lia.
        exfalso. apply Hne. f_equal. lia. }
    rewrite Hcmp. destruct (Z.ltb_spec b a) as [Hlt|Hge].
    + apply StronglySorted_cons. split; [|exact (IH Hdef Hl)].
      apply Forall_forall. intros z Hz.
      rewrite Hb.
      apply elem_of_sort_insert in Hz as [->|Hz]; [|exact (Hall z Hz)].
      rewrite Ha. cbn [Js.le]. apply Z.leb_le. lia.
    + apply StronglySorted_cons. split; [|exact Hs].
      apply Forall_forall. intros z Hz. rewrite Ha.
      apply elem_of_cons in Hz as [->|Hz].
      * rewrite Hb. cbn [Js.le]. apply Z.leb_le. lia.
      * pose proof (Hall z Hz) as Hyz.
        destruct (field z f) as [c|]; cbn [Js.le] in Hyz |- *; [|discriminate].
        apply Z.leb_le in Hyz. apply Z.leb_le. lia.
Qed.

(** X29.  Sorting never changes the number of results.  Without a limit
    the sorted array is a permutation of the results, and when every
    result has the sort field and the order is ['asc'] it is in ascending
    order of that field. *)
Theorem sortResults_orders (q : Query.t) (f : string) (results : list record) :
  length (Query.sortResults q f results) = length results
  /\ (Query.limitCount q = None ->
      Query.sortResults q f results ≡ₚ results
      /\ (Query.sortOrder q = Query.Asc ->
          Forall (fun r => field r f <> undefined) results ->
          ascending f (Query.sortResults q f results))).
Proof.
  split; [apply length_sortResults|]. intros Hlimit.
  unfold Query.sortResults. rewrite Hlimit. split; [apply sort_Permutation|].
  intros -> Hdef. unfold Js.sort.
  induction results as [|x results IH]; cbn [foldr]; [constructor|].
  apply Forall_cons in Hdef as [Hx Hdef].
  apply ascending_sort_insert; [exact Hx | | exact (IH Hdef)].
  apply Forall_forall. intros r Hr. rewrite Forall_forall in Hdef. apply Hdef.
  fold (Js.sort (Query.sort_compare f Query.Asc) results) in Hr.
  rewrite sort_Permutation in Hr. exact Hr.
Qed.

(** X29 on three records with the field [x]. *)
Lemma sortResults_orders_witness :
  Query.sortResults (Query.sort "x" Query.Asc all) "x" QueryScenario.results
  ≡ₚ QueryScenario.results
  /\ ascending "x"
       (Query.sortResults (Query.sort "x" Query.Asc all) "x" QueryScenario.results).
Proof.
  destruct (sortResults_orders (Query.sort "x" Query.Asc all) "x" QueryScenario.results)
    as [_ Hsorted].
  destruct (Hsorted eq_refl) as [Hperm Hasc]. split; [exact Hperm|].
  apply Hasc; [reflexivity|].
  repeat (apply Forall_cons; split; [discriminate|]). apply Forall_nil_2.
Defined.

(** ** [updateMany] *)

Lemma updateOne_fold (now : Z) (updates : record) (records : list record) :
  forall (updated : list record) (x : Table.t),
    (foldl (Bulk.updateOne now updates) (updated, x) records).1
    = updated
      ++ List.map (fun r =>
                     Table.assign "_modified" (Some now)
                       (Table.assign "_created" (_created r)
                          (Table.assign "_id" (_id r) (Table.spread r updates))))
           records.
Proof.
  induction records as [|r records IH]; intros updated x; cbn [foldl List.map].
  - cbn [fst]. rewrite app_nil_r. reflexivity.
  - unfold Bulk.updateOne at 2. rewrite IH, <- app_assoc. reflexivity.
Qed.

(** X30.  [updateMany(condition, updates)] returns one record for each
    record that the condition selects, in the same order: the record with
    the fields of [updates] written over it, except that [_id] and
    [_created] stay those of the record and [_modified] is the clock
    reading. *)
Theorem updateMany_keeps_identity (now : Z) (c : Query.condition) (updates : record)
    (x : Table.t) (i : nat) (r : record) :
  (Query.execute x (find x c)).1 !! i = Some r ->
  exists u : record,
    (Bulk.updateMany now c updates x).1 !! i = Some u
    /\ _id u = _id r
    /\ _created u = _created r
    /\ _modified u = Some now
    /\ forall g : string,
         g <> "_id"%string -> g <> "_created"%string -> g <> "_modified"%string ->
         field u g = match field updates g with Some v => Some v | None => field r g end.
Proof.
  intros Hi. unfold Bulk.updateMany.
  destruct (Query.execute x (find x c)) as [records x1]. cbn [fst] in Hi.
  pose proof (updateOne_fold now updates records [] x1) as Hfold.
  destruct (foldl (Bulk.updateOne now updates) ([], x1) records) as [updated x2].
  cbn [fst app] in Hfold |- *. subst updated.
  change (List.map ?f ?l) with (f <$> l). rewrite list_lookup_fmap, Hi.
  cbn [fmap option_fmap option_map]. eexists. split; [reflexivity|].
  unfold _id, _created, _modified. rewrite !field_assign.
  repeat split.
  intros g Hid Hcreated Hmodified. rewrite !field_assign.
  repeat (destruct (decide _); [contradiction|]). apply field_spread.
Qed.

(** X30 on the two pending records, [{x: 2}] and the update [{x: 7}]. *)
Lemma updateMany_keeps_identity_witness :
  exists u : record,
    (Bulk.updateMany 9 (lit_cond "x" 2) (obj [("x"%string, 7)]) OrScenario.table).1
      !! 0%nat = Some u
    /\ _id u = _id OrScenario.second
    /\ _created u = _created OrScenario.second
    /\ _modified u = Some 9
    /\ forall g : string,
         g <> "_id"%string -> g <> "_created"%string -> g <> "_modified"%string ->
         field u g = match field (obj [("x"%string, 7)]) g with
                     | Some v => Some v
                     | None => field OrScenario.second g
                     end.
Proof.
  apply (updateMany_keeps_identity 9 (lit_cond "x" 2) (obj [("x"%string, 7)])
           OrScenario.table 0 OrScenario.second).
  compute_done.
Defined.

(** X7 on the two pending records and [{x: 2}]: the second record is
    returned and is not readable afterwards. *)
Lemma deleteMany_then_get_witness :
  OrScenario.second ∈ (Bulk.deleteMany (lit_cond "x" 2) OrScenario.table).1
  /\ (Table.get (_id OrScenario.second)
        (Bulk.deleteMany (lit_cond "x" 2) OrScenario.table).2).1 = None.
Proof.
  assert (Hin : OrScenario.second ∈ (Bulk.deleteMany (lit_cond "x" 2) OrScenario.table).1)
    by compute_done.
  split; [exact Hin|].
  exact (proj2 (deleteMany_then_get (lit_cond "x" 2) OrScenario.table)
           OrScenario.second Hin).
Defined.
